(** * A shallow embedding of [avatar_compositor.py]

    The compositor is a single-pass Python pipeline over PIL images.  Its
    numeric code runs on Python [int] (modelled as [Z]) and Python [float]
    (IEEE-754 binary64, modelled with the Standard Library's executable
    specification [SpecFloat] at precision 53 and [emax] 1024, rounding to
    nearest-even).  Images are records of a size and a pixel function, and
    the PIL operations the pipeline uses ([Image.new], [paste], [crop],
    [getchannel], [putalpha], [ImageChops.multiply], [resize], [rotate])
    are modelled by the sizes and pixels PIL gives them. *)

From Stdlib Require Import ZArith List Bool Lia String Ascii Reals Lra.
From Stdlib Require Import Floats.SpecFloat.
Import ListNotations.
Open Scope Z_scope.

(** ** Python floats *)

Module Py.

Definition float := spec_float.

Definition prec : Z := 53.
Definition emax : Z := 1024.

(** [float(z)] for a Python int: round to nearest binary64. *)
Definition of_Z (z : Z) : float := binary_normalize prec emax z 0 false.

Definition fadd (x y : float) : float := SFadd prec emax x y.
Definition fsub (x y : float) : float := SFsub prec emax x y.
Definition fmul (x y : float) : float := SFmul prec emax x y.
Definition fdiv (x y : float) : float := SFdiv prec emax x y.

(** [x < y] on floats. *)
Definition fltb (x y : float) : bool := SFltb x y.

(** [int/int] true division.  CPython returns the correctly rounded
    quotient; for operands of magnitude at most 2^53 (all image
    coordinates) both operands are exact floats and this is [fdiv]. *)
Definition truediv_int (n d : Z) : float := fdiv (of_Z n) (of_Z d).

(** A decimal literal [n / 10^k], correctly rounded, e.g. [-29.6]. *)
Definition lit (n : Z) (k : nat) : float := fdiv (of_Z n) (of_Z (10 ^ Z.of_nat k)).

(** Truncation toward zero of a finite float. *)
Definition trunc (f : float) : Z :=
  match f with
  | S754_finite s m e =>
      let v := if 0 <=? e then Z.shiftl (Zpos m) e else Z.shiftr (Zpos m) (- e) in
      if s then - v else v
  | _ => 0
  end.

(** [int(f)]: truncation; [OverflowError] / [ValueError] on infinities
    and NaN. *)
Definition int_of_float (f : float) : option Z :=
  match f with
  | S754_zero _ | S754_finite _ _ _ => Some (trunc f)
  | _ => None
  end.

(** [f == int(f)] for a finite float, compared exactly as Python compares
    a float with an int. *)
Definition is_integral (f : float) : bool :=
  match f with
  | S754_finite _ m e => (0 <=? e) || (Z.land (Zpos m) (Z.ones (- e)) =? 0)
  | _ => true
  end.

(** Values held by the numeric fields of a config: Python [int] or
    [float]. *)
Inductive value := VInt (z : Z) | VFloat (f : float).

Definition to_float (v : value) : float :=
  match v with VInt z => of_Z z | VFloat f => f end.

(** [v * s] with [s] a float. *)
Definition mul_float (v : value) (s : float) : float := fmul (to_float v) s.

(** Python's [//] on ints (floor division). *)
Definition floordiv (a b : Z) : Z := Z.div a b.

(** [max(a, b)] on floats: the first argument unless the second is
    strictly larger. *)
Definition fmax (a b : float) : float := if fltb a b then b else a.

End Py.

(** ** Python strings: [lstrip], slicing and [int(s, 16)] *)

Module PyStr.

(** [str.lstrip(c)]: removes every leading occurrence of [c]. *)
Fixpoint lstrip (c : ascii) (s : string) : string :=
  match s with
  | String a r => if Ascii.eqb a c then lstrip c r else s
  | EmptyString => EmptyString
  end.

(** [s[i:i+n]] for [i, n >= 0]: Python clips slices at the end of the
    string, as [substring] does. *)
Definition slice (s : string) (i n : nat) : string := substring i n s.

(** Whitespace skipped by [int()] on an ASCII string: [\t \n \v \f \r],
    the separators [\x1c]-[\x1f], and space. *)
Definition is_space (c : ascii) : bool :=
  let n := nat_of_ascii c in
  ((9 <=? n) && (n <=? 13))%nat || ((28 <=? n) && (n <=? 32))%nat.

(** Value of a base-16 digit. *)
Definition hex_digit (c : ascii) : option Z :=
  let n := Z.of_nat (nat_of_ascii c) in
  if (48 <=? n) && (n <=? 57) then Some (n - 48)
  else if (97 <=? n) && (n <=? 102) then Some (n - 87)
  else if (65 <=? n) && (n <=? 70) then Some (n - 55)
  else None.

Fixpoint skip_spaces (l : list ascii) : list ascii :=
  match l with
  | c :: r => if is_space c then skip_spaces r else l
  | [] => []
  end.

(** The digit loop of CPython's [PyLong_FromString]: digits with single
    underscores between them.  Returns the accumulated value, the number
    of digits read, whether the last character was an underscore, and the
    unread rest. *)
Fixpoint digits16 (l : list ascii) (acc : Z) (nd : nat) (prev_us : bool)
  : option (Z * nat * bool * list ascii) :=
  match l with
  | c :: r =>
      if Ascii.eqb c "_"%char then
        if prev_us then None else digits16 r acc nd true
      else match hex_digit c with
           | Some d => digits16 r (16 * acc + d) (S nd) false
           | None => Some (acc, nd, prev_us, l)
           end
  | [] => Some (acc, nd, prev_us, [])
  end.

(** [int(s, 16)] on an ASCII string. *)
Definition int16 (s : string) : option Z :=
  let l := skip_spaces (list_ascii_of_string s) in
  let '(sign, l) :=
    match l with
    | "+"%char :: r => (1, r)
    | "-"%char :: r => (-1, r)
    | _ => (1, l)
    end in
  let l :=
    match l with
    | "0"%char :: x :: r =>
        if Ascii.eqb x "x"%char || Ascii.eqb x "X"%char then
          match r with "_"%char :: r' => r' | _ => r end
        else l
    | _ => l
    end in
  match l with
  | "_"%char :: _ => None
  | _ =>
      match digits16 l 0 0 false with
      | Some (v, S _, false, rest) =>
          if forallb is_space rest then Some (sign * v) else None
      | _ => None
      end
  end.

End PyStr.

(** ** [hex_to_rgb] *)

(** [hex_color = hex_color.lstrip('#')], then
    [tuple(int(hex_color[i:i+2], 16) for i in (0, 2, 4))]; a [ValueError]
    from [int] is [None]. *)
Definition hex_to_rgb (hex_color : string) : option (Z * Z * Z) :=
  let h := PyStr.lstrip "#"%char hex_color in
  match PyStr.int16 (PyStr.slice h 0 2), PyStr.int16 (PyStr.slice h 2 2),
        PyStr.int16 (PyStr.slice h 4 2) with
  | Some r, Some g, Some b => Some (r, g, b)
  | _, _, _ => None
  end.

(** The condition "exactly 6 hex digits". *)
Definition is_hex_char (c : ascii) : bool :=
  match PyStr.hex_digit c with Some _ => true | None => false end.

Definition six_hex_digits (s : string) : bool :=
  (String.length s =? 6)%nat && forallb is_hex_char (list_ascii_of_string s).

(** All 256 characters, for checks by enumeration. *)
Definition all_ascii : list ascii := map ascii_of_nat (seq 0 256).

(** [int(c1 c2, 16)] on two hex digits is [16 d1 + d2]. *)
Definition hex_pair_ok (c1 c2 : ascii) : bool :=
  match PyStr.hex_digit c1, PyStr.hex_digit c2 with
  | Some d1, Some d2 =>
      match PyStr.int16 (String c1 (String c2 EmptyString)) with
      | Some v => v =? 16 * d1 + d2
      | None => false
      end
  | _, _ => true
  end.

(** ** PIL images *)

Module Img.

(** An image: [img.size = (width, height)] and its pixels, read only at
    [0 <= x < width], [0 <= y < height]. *)
Record image (P : Type) := mkImage {
  width : Z;
  height : Z;
  pixel : Z -> Z -> P
}.
Arguments mkImage {P} _ _ _.
Arguments width {P} _.
Arguments height {P} _.
Arguments pixel {P} _ _ _.

Definition size {P} (im : image P) : Z * Z := (width im, height im).

Definition in_bounds {P} (im : image P) (x y : Z) : bool :=
  (0 <=? x) && (x <? width im) && (0 <=? y) && (y <? height im).

(** RGBA pixels; an [RGB] image is an RGBA image with opaque alpha, and an
    [L] image has [Z] pixels. *)
Record rgba := RGBA { red : Z; green : Z; blue : Z; alpha : Z }.

(** [CLIP8]: PIL stores 8-bit channels clamped to [0, 255]. *)
Definition clip8 (v : Z) : Z := Z.max 0 (Z.min 255 v).

(** [Image.new(mode, size, color)]: [ValueError] on a negative size. *)
Definition new {P} (size : Z * Z) (color : P) : option (image P) :=
  let '(w, h) := size in
  if (0 <=? w) && (0 <=? h) then Some (mkImage w h (fun _ _ => color)) else None.

(** [dst.paste(src, (x0, y0))] without a mask: the pixels of [src] replace
    those of [dst] where they overlap; the size of [dst] is unchanged. *)
Definition paste {P} (dst src : image P) (pos : Z * Z) : image P :=
  let '(x0, y0) := pos in
  mkImage (width dst) (height dst)
    (fun x y => if in_bounds src (x - x0) (y - y0) then pixel src (x - x0) (y - y0)
                else pixel dst x y).

(** [img.crop((x0, y0, x1, y1))]: [ValueError] when [x1 < x0] or
    [y1 < y0]; otherwise an image of size [(x1 - x0, y1 - y0)] whose pixels
    outside the source are zero. *)
Definition crop {P} (zero : P) (im : image P) (box : Z * Z * Z * Z) : option (image P) :=
  let '(x0, y0, x1, y1) := box in
  if (x1 <? x0) || (y1 <? y0) then None
  else Some (mkImage (x1 - x0) (y1 - y0)
               (fun x y => if in_bounds im (x0 + x) (y0 + y) then pixel im (x0 + x) (y0 + y)
                           else zero)).

Definition rgba_zero : rgba := RGBA 0 0 0 0.

(** [img.getchannel("A")]. *)
Definition getchannel_A (im : image rgba) : image Z :=
  mkImage (width im) (height im) (fun x y => alpha (pixel im x y)).

(** [img.putalpha(a)] for an [L] image [a] of the same size
    ([ValueError] otherwise). *)
Definition putalpha (im : image rgba) (a : image Z) : option (image rgba) :=
  if (width a =? width im) && (height a =? height im) then
    Some (mkImage (width im) (height im)
            (fun x y => let p := pixel im x y in
                        RGBA (red p) (green p) (blue p) (pixel a x y)))
  else None.

(** [ImageChops.multiply(a, b)] on two [L] images: [a * b / 255] per
    pixel in integer arithmetic, over the overlap of the two sizes. *)
Definition multiply (a b : image Z) : image Z :=
  mkImage (Z.min (width a) (width b)) (Z.min (height a) (height b))
    (fun x y => pixel a x y * pixel b x y / 255).

(** [img.copy()]. *)
Definition copy {P} (im : image P) : image P := im.

End Img.

Import Img.

(** ** [create_gradient_image] *)

Definition gradient_t_num (width x y : Z) : Z := (width - x) + y.
Definition gradient_t_den (width height : Z) : Z := width + height.

(** [t = ((width - x) + y) / (width + height)]. *)
Definition gradient_t (width height x y : Z) : Py.float :=
  Py.truediv_int (gradient_t_num width x y) (gradient_t_den width height).

(** [int(start * (1 - t) + end * t)]: the operand is a finite float (the
    channels and [t] are bounded), so [int] is [trunc]. *)
Definition gradient_channel (start end_ : Z) (t : Py.float) : Z :=
  Py.trunc (Py.fadd (Py.fmul (Py.of_Z start) (Py.fsub (Py.of_Z 1) t))
                    (Py.fmul (Py.of_Z end_) t)).

Record PortalGradient := { start_color : string; end_color : string }.

(** [create_gradient_image(size, gradient)]: [Image.new("RGB", size)],
    [hex_to_rgb] of both colours, then [putpixel((x, y), (r, g, b))] for
    every pixel, which stores each channel clipped to 8 bits. *)
Definition create_gradient_image (size : Z * Z) (gradient : PortalGradient)
  : option (image rgba) :=
  let '(width, height) := size in
  match Img.new (width, height) (RGBA 0 0 0 255) with
  | None => None
  | Some img =>
      match hex_to_rgb (start_color gradient), hex_to_rgb (end_color gradient) with
      | Some (sr, sg, sb), Some (er, eg, eb) =>
          Some (mkImage width height
                  (fun x y =>
                     let t := gradient_t width height x y in
                     RGBA (clip8 (gradient_channel sr er t))
                          (clip8 (gradient_channel sg eg t))
                          (clip8 (gradient_channel sb eb t)) 255))
      | _, _ => None
      end
  end.

(** Two gradients used below: black to white, and a constant one. *)
Definition black_to_white : PortalGradient :=
  {| start_color := "#000000"; end_color := "#FFFFFF" |}.
Definition constant_03 : PortalGradient :=
  {| start_color := "#030303"; end_color := "#030303" |}.

(** ** [AvatarConfig] and [AvatarConfig.scaled] *)

Import Py.

(** The dataclass: tuples of Python numbers and scalars. *)
Record AvatarConfig := {
  output_size : value * value;
  portal_size : value * value;
  mask_size : value * value;
  portal_offset : value * value;
  mask_offset : value * value;
  character_offset : value * value;
  character_size : value * value;
  character_rotation : value;
  face_position : value;
  output_scale : value;
  internal_scale : value  (* [_internal_scale] *)
}.

(** [AvatarConfig()]: the defaults, with [mask_offset = (0, -29.6)]. *)
Definition default_config : AvatarConfig := {|
  output_size := (VInt 340, VInt 400);
  portal_size := (VInt 340, VInt 340);
  mask_size := (VInt 340, VInt 430);
  portal_offset := (VInt 0, VInt 60);
  mask_offset := (VInt 0, VFloat (lit (-296) 1));
  character_offset := (VInt (-70), VInt (-40));
  character_size := (VInt 449, VInt 804);
  character_rotation := VFloat (of_Z 3);
  face_position := VFloat (of_Z 0);
  output_scale := VFloat (of_Z 1);
  internal_scale := VFloat (of_Z 1)
|}.

(** [any(isinstance(v, float) and v != int(v) for v in vs)], evaluated
    lazily left to right; [int(v)] raises on an infinite or NaN float. *)
Fixpoint any_subpixel (vs : list value) : option bool :=
  match vs with
  | [] => Some false
  | VInt _ :: r => any_subpixel r
  | VFloat f :: r =>
      match int_of_float f with
      | None => None
      | Some _ => if negb (is_integral f) then Some true else any_subpixel r
      end
  end.

(** The six offset components [scaled] inspects. *)
Definition subpixel_candidates (c : AvatarConfig) : list value :=
  [fst (mask_offset c); snd (mask_offset c);
   fst (portal_offset c); snd (portal_offset c);
   fst (character_offset c); snd (character_offset c)].

(** The config [scaled()] returns: every size and offset is the Python int
    [int(v * s)]; rotation and face position are copied;
    [output_scale = 1.0]; [_internal_scale] records the render factor. *)
Module Eff.
Record t := {
  output_size : Z * Z;
  portal_size : Z * Z;
  mask_size : Z * Z;
  portal_offset : Z * Z;
  mask_offset : Z * Z;
  character_offset : Z * Z;
  character_size : Z * Z;
  character_rotation : value;
  face_position : value;
  output_scale : value;
  internal_scale : float
}.
End Eff.

(** [(int(p[0] * s), int(p[1] * s))]. *)
Definition scale_pair (p : value * value) (s : float) : option (Z * Z) :=
  match int_of_float (mul_float (fst p) s) with
  | None => None
  | Some a =>
      match int_of_float (mul_float (snd p) s) with
      | None => None
      | Some b => Some (a, b)
      end
  end.

(** [internal_scale = 2.0 if has_subpixel else 1.0]. *)
Definition internal_scale_of (has_subpixel : bool) : float :=
  if has_subpixel then of_Z 2 else of_Z 1.

Definition scaled (self : AvatarConfig) : option Eff.t :=
  match any_subpixel (subpixel_candidates self) with
  | None => None
  | Some has_subpixel =>
      let isc := internal_scale_of has_subpixel in
      let s := mul_float (output_scale self) isc in
      match scale_pair (output_size self) s, scale_pair (portal_size self) s,
            scale_pair (mask_size self) s, scale_pair (portal_offset self) s,
            scale_pair (mask_offset self) s, scale_pair (character_offset self) s,
            scale_pair (character_size self) s with
      | Some os, Some ps, Some ms, Some po, Some mo, Some co, Some cs =>
          Some {| Eff.output_size := os; Eff.portal_size := ps; Eff.mask_size := ms;
                  Eff.portal_offset := po; Eff.mask_offset := mo;
                  Eff.character_offset := co; Eff.character_size := cs;
                  Eff.character_rotation := character_rotation self;
                  Eff.face_position := face_position self;
                  Eff.output_scale := VFloat (of_Z 1);
                  Eff.internal_scale := isc |}
      | _, _, _, _, _, _, _ => None
      end
  end.

(** ** Cover transform arithmetic *)

(** Python [a * b] on two numbers. *)
Definition vmul (a b : value) : value :=
  match a, b with
  | VInt x, VInt y => VInt (x * y)
  | _, _ => VFloat (fmul (to_float a) (to_float b))
  end.

(** [int(v)]. *)
Definition int_of_value (v : value) : option Z :=
  match v with VInt z => Some z | VFloat f => int_of_float f end.

(** [scale = max(target_width / img_width, target_height / img_height)],
    [new_width = int(img_width * scale)], [new_height = int(img_height * scale)];
    [ZeroDivisionError] on an empty source. *)
Definition cover_new_size (target_width target_height img_width img_height : Z)
  : option (float * Z * Z) :=
  if (img_width =? 0) || (img_height =? 0) then None
  else
    let scale := fmax (truediv_int target_width img_width)
                      (truediv_int target_height img_height) in
    match int_of_float (fmul (of_Z img_width) scale),
          int_of_float (fmul (of_Z img_height) scale) with
    | Some nw, Some nh => Some (scale, nw, nh)
    | _, _ => None
    end.

(** [left = (new_width - target_width) // 2], [max_top = new_height -
    target_height], [top = int(max_top * face_position)]; the crop box is
    [(left, top, left + target_width, top + target_height)]. *)
Definition cover_crop_box (target_width target_height new_width new_height : Z)
  (face_position : value) : option (Z * Z * Z * Z) :=
  let left := floordiv (new_width - target_width) 2 in
  let max_top := new_height - target_height in
  match int_of_value (vmul (VInt max_top) face_position) with
  | None => None
  | Some top => Some (left, top, left + target_width, top + target_height)
  end.

(** ** [angle % 360.0] *)

(** Python's float modulo by [360.0]: the remainder [fmod] is exact, and a
    negative remainder has [360.0] added (rounded); a zero result is
    [+0.0]. *)
Definition fmod360 (a : float) : float :=
  match a with
  | S754_finite s m e =>
      let M := if s then Zneg m else Zpos m in
      if 0 <=? e then of_Z (Z.modulo (Z.shiftl M e) 360)
      else binary_normalize prec emax (Z.modulo M (360 * 2 ^ (- e))) e false
  | S754_zero _ => S754_zero false
  | _ => S754_nan
  end.

Definition feq_int (f : float) (z : Z) : bool := SFeqb f (of_Z z).

Definition value_is_zero (v : value) : bool :=
  match v with VInt z => z =? 0 | VFloat f => feq_int f 0 end.

(** ** Object identity

    Python passes the config object by reference.  The heap maps
    references to the objects [composite_avatar] allocates or reads. *)

Module Heap.
Inductive obj := OConfig (c : AvatarConfig) | OScaled (e : Eff.t).
Record heap := { store : nat -> option obj; next : nat }.

(** Allocate a new object at the next free reference. *)
Definition alloc (h : heap) (o : obj) : heap * nat :=
  ({| store := fun l => if Nat.eqb l (next h) then Some o else store h l;
      next := S (next h) |}, next h).

Definition read_config (h : heap) (l : nat) : option AvatarConfig :=
  match store h l with Some (OConfig c) => Some c | _ => None end.

(** Every reference at or above [next] is free. *)
Definition wf (h : heap) : Prop := forall l, (next h <= l)%nat -> store h l = None.
End Heap.

(** ** The pipeline *)

Section Pipeline.

(** Pixels of [src.resize((w, h), LANCZOS)]. *)
Variable lanczos : image rgba -> Z -> Z -> Z -> Z -> rgba.
(** [PIL.Image.rotate]'s general path ([expand=True], bicubic): the size of
    the bounding box of the rotated rectangle, and its pixels, for an angle
    already reduced modulo 360 and not in [{0, 90, 180, 270}]. *)
Variable rotate_bbox : float -> Z -> Z -> Z * Z.
Variable rotate_bicubic : image rgba -> float -> Z -> Z -> rgba.
(** [load_shape_mask(path, (w, h))]: the alpha mask of the shape asset at
    the requested size. *)
Variable shape_alpha : string -> Z -> Z -> Z -> Z -> Z.
(** Pixels of [create_portal_with_fill(shape, (w, h), fill)]. *)
Variable portal_pixels : Z -> Z -> Z -> Z -> rgba.
(** [canvas.paste(img, pos, img)]: the per-pixel blend by the mask. *)
Variable paste_blend : rgba -> rgba -> Z -> rgba.
(** [Image.alpha_composite]'s per-pixel "over" operator. *)
Variable over : rgba -> rgba -> rgba.

(** [img.resize(size, LANCZOS)]: a copy when the size is unchanged,
    [ValueError] for a non-positive size. *)
Definition resize (im : image rgba) (size : Z * Z) : option (image rgba) :=
  let '(w, h) := size in
  if (w =? width im) && (h =? height im) then Some (copy im)
  else if (w <? 1) || (h <? 1) then None
  else Some (mkImage w h (lanczos im w h)).

(** [img.transpose(ROTATE_90 / ROTATE_180 / ROTATE_270)]. *)
Definition rotate_90 (im : image rgba) : image rgba :=
  mkImage (height im) (width im) (fun x y => pixel im (width im - 1 - y) x).
Definition rotate_180 (im : image rgba) : image rgba :=
  mkImage (width im) (height im)
    (fun x y => pixel im (width im - 1 - x) (height im - 1 - y)).
Definition rotate_270 (im : image rgba) : image rgba :=
  mkImage (height im) (width im) (fun x y => pixel im y (height im - 1 - x)).

(** [img.rotate(angle, expand=True, resample=BICUBIC)]: [angle % 360.0],
    then PIL's fast paths for 0, 180, 90 and 270 degrees, else the general
    rotation into the bounding box. *)
Definition rotate_expand (im : image rgba) (angle : value) : image rgba :=
  let a := fmod360 (to_float angle) in
  if feq_int a 0 then copy im
  else if feq_int a 180 then rotate_180 im
  else if feq_int a 90 then rotate_90 im
  else if feq_int a 270 then rotate_270 im
  else let '(w, h) := rotate_bbox a (width im) (height im) in
       mkImage w h (rotate_bicubic im a).

(** Steps 2 of [composite_avatar]: cover scale, resize, crop, rotation. *)
Definition prepare_character (cfg : Eff.t) (character : image rgba) : option (image rgba) :=
  let '(target_width, target_height) := Eff.character_size cfg in
  match cover_new_size target_width target_height (width character) (height character) with
  | None => None
  | Some (_, new_width, new_height) =>
      match resize character (new_width, new_height) with
      | None => None
      | Some character =>
          match cover_crop_box target_width target_height new_width new_height
                  (Eff.face_position cfg) with
          | None => None
          | Some box =>
              match crop rgba_zero character box with
              | None => None
              | Some character =>
                  if negb (value_is_zero (Eff.character_rotation cfg))
                  then Some (rotate_expand character (Eff.character_rotation cfg))
                  else Some character
              end
          end
      end
  end.

(** [load_shape_mask(mask_shape, config.mask_size)]. *)
Definition load_shape_mask (path : string) (size : Z * Z) : image Z :=
  let '(w, h) := size in mkImage w h (shape_alpha path w h).

(** [expand_left = abs(min(0, mask_offset[0], character_offset[0]))] and
    likewise [expand_top]. *)
Definition expand_left (cfg : Eff.t) : Z :=
  Z.abs (Z.min (Z.min 0 (fst (Eff.mask_offset cfg))) (fst (Eff.character_offset cfg))).
Definition expand_top (cfg : Eff.t) : Z :=
  Z.abs (Z.min (Z.min 0 (snd (Eff.mask_offset cfg))) (snd (Eff.character_offset cfg))).

(** [expanded_size = (output_size[0] + expand_left * 2 + 200,
                      output_size[1] + expand_top * 2 + 200)]. *)
Definition expanded_size (cfg : Eff.t) : Z * Z :=
  (fst (Eff.output_size cfg) + expand_left cfg * 2 + 200,
   snd (Eff.output_size cfg) + expand_top cfg * 2 + 200).

(** Step 4.3: [full_mask = Image.new("L", expanded_size, 0)],
    [full_mask.paste(mask, (mask_x, mask_y))]. *)
Definition place_mask (cfg : Eff.t) (mask : image Z) : option (image Z) :=
  let mask_x := expand_left cfg + fst (Eff.mask_offset cfg) in
  let mask_y := expand_top cfg + snd (Eff.mask_offset cfg) in
  match Img.new (expanded_size cfg) 0 with
  | None => None
  | Some full_mask => Some (paste full_mask mask (mask_x, mask_y))
  end.

(** Step 4.4: [temp = Image.new("RGBA", expanded_size, (0, 0, 0, 0))],
    [temp.paste(character, (char_x, char_y))]. *)
Definition place_character (cfg : Eff.t) (character : image rgba) : option (image rgba) :=
  let char_x := expand_left cfg + fst (Eff.character_offset cfg) in
  let char_y := expand_top cfg + snd (Eff.character_offset cfg) in
  match Img.new (expanded_size cfg) rgba_zero with
  | None => None
  | Some temp => Some (paste temp character (char_x, char_y))
  end.

(** Step 4 of [composite_avatar]: place mask and character on the expanded
    canvas, multiply the alphas, put the product back and crop back to the
    output frame. *)
Definition layer_compositor (cfg : Eff.t) (character : image rgba) (mask : image Z)
  : option (image rgba) :=
  let el := expand_left cfg in
  let et := expand_top cfg in
  match place_mask cfg mask with
  | None => None
  | Some full_mask =>
      match place_character cfg character with
      | None => None
      | Some temp =>
          let char_orig_alpha := getchannel_A temp in
          let final_alpha := multiply char_orig_alpha full_mask in
          match putalpha (copy temp) final_alpha with
          | None => None
          | Some char_expanded =>
              crop rgba_zero char_expanded
                (el, et, el + fst (Eff.output_size cfg), et + snd (Eff.output_size cfg))
          end
      end
  end.

(** [canvas.paste(img, pos, img)]. *)
Definition paste_masked (dst src : image rgba) (pos : Z * Z) : image rgba :=
  let '(x0, y0) := pos in
  mkImage (width dst) (height dst)
    (fun x y => if in_bounds src (x - x0) (y - y0)
                then paste_blend (pixel dst x y) (pixel src (x - x0) (y - y0))
                       (alpha (pixel src (x - x0) (y - y0)))
                else pixel dst x y).

(** [Image.alpha_composite(a, b)]: [ValueError] unless the sizes match. *)
Definition alpha_composite (a b : image rgba) : option (image rgba) :=
  if (width a =? width b) && (height a =? height b) then
    Some (mkImage (width a) (height a) (fun x y => over (pixel a x y) (pixel b x y)))
  else None.

(** Step 6: [if config._internal_scale > 1.0], resize to
    [(int(canvas.width / s), int(canvas.height / s))]. *)
Definition downscale (cfg : Eff.t) (canvas : image rgba) : option (image rgba) :=
  let s := Eff.internal_scale cfg in
  if fltb (of_Z 1) s then
    match int_of_float (fdiv (of_Z (width canvas)) s),
          int_of_float (fdiv (of_Z (height canvas)) s) with
    | Some w, Some h => resize canvas (w, h)
    | _, _ => None
    end
  else Some canvas.

(** [composite_avatar] from step 1 on, once [config = config.scaled()]
    has been computed; the character is already loaded. *)
Definition composite_scaled (cfg : Eff.t) (character : image rgba) (mask_shape : string)
  : option (image rgba) :=
  match Img.new (Eff.output_size cfg) rgba_zero with
  | None => None
  | Some canvas =>
      let '(pw, ph) := Eff.portal_size cfg in
      (* [create_portal_with_fill] allocates [Image.new("RGBA", size)] *)
      if (pw <? 0) || (ph <? 0) then None else
      let portal_img := mkImage pw ph (portal_pixels pw ph) in
      let canvas := paste_masked canvas portal_img (Eff.portal_offset cfg) in
      match prepare_character cfg character with
      | None => None
      | Some character =>
          let mask := load_shape_mask mask_shape (Eff.mask_size cfg) in
          match layer_compositor cfg character mask with
          | None => None
          | Some char_layer =>
              match alpha_composite canvas char_layer with
              | None => None
              | Some canvas => downscale cfg canvas
              end
          end
      end
  end.

(** [composite_avatar(character, fill, config, portal_shape, mask_shape)]. *)
Definition composite_avatar (character : image rgba) (config : AvatarConfig)
  (mask_shape : string) : option (image rgba) :=
  match scaled config with
  | None => None
  | Some cfg => composite_scaled cfg character mask_shape
  end.

(** [composite_avatar] with [config] a reference, or [None] for
    [config = AvatarConfig()]; [config = config.scaled()] allocates the
    derived object and rebinds the local name to it. *)
Definition composite_avatar_heap (h : Heap.heap) (config : option nat)
  (character : image rgba) (mask_shape : string) : option (Heap.heap * image rgba) :=
  let '(h, cref) :=
    match config with
    | None => Heap.alloc h (Heap.OConfig default_config)
    | Some l => (h, l)
    end in
  match Heap.read_config h cref with
  | None => None
  | Some c =>
      match scaled c with
      | None => None
      | Some e =>
          let '(h, _) := Heap.alloc h (Heap.OScaled e) in
          match composite_scaled e character mask_shape with
          | None => None
          | Some img => Some (h, img)
          end
      end
  end.

(** The size of [rotate_expand] on an image of size [(w, h)]: unchanged on
    the 0 and 180 degree paths, swapped on the 90 and 270 degree paths, the
    bounding box otherwise. *)
Definition rotate_expand_size (angle : value) (w h : Z) : Z * Z :=
  let a := fmod360 (to_float angle) in
  if feq_int a 0 then (w, h)
  else if feq_int a 180 then (w, h)
  else if feq_int a 90 then (h, w)
  else if feq_int a 270 then (h, w)
  else rotate_bbox a w h.

End Pipeline.

(** ** Concrete configurations *)

(** [AvatarConfig().scaled()]: [-29.6] is fractional, so everything is
    doubled and truncated ([int(-59.2) = -59]). *)
Definition default_scaled : Eff.t := {|
  Eff.output_size := (680, 800);
  Eff.portal_size := (680, 680);
  Eff.mask_size := (680, 860);
  Eff.portal_offset := (0, 120);
  Eff.mask_offset := (0, -59);
  Eff.character_offset := (-140, -80);
  Eff.character_size := (898, 1608);
  Eff.character_rotation := VFloat (of_Z 3);
  Eff.face_position := VFloat (of_Z 0);
  Eff.output_scale := VFloat (of_Z 1);
  Eff.internal_scale := of_Z 2
|}.

(** The scaled default with [character_rotation = 90.0]. *)
Definition rotated_90_scaled : Eff.t := {|
  Eff.output_size := (680, 800);
  Eff.portal_size := (680, 680);
  Eff.mask_size := (680, 860);
  Eff.portal_offset := (0, 120);
  Eff.mask_offset := (0, -59);
  Eff.character_offset := (-140, -80);
  Eff.character_size := (898, 1608);
  Eff.character_rotation := VFloat (of_Z 90);
  Eff.face_position := VFloat (of_Z 0);
  Eff.output_scale := VFloat (of_Z 1);
  Eff.internal_scale := of_Z 2
|}.

(** A config whose offsets are all integers but whose [mask_size] is
    [(340.5, 430)]. *)
Definition fractional_mask_size_config : AvatarConfig := {|
  output_size := (VInt 340, VInt 400);
  portal_size := (VInt 340, VInt 340);
  mask_size := (VFloat (lit 3405 1), VInt 430);
  portal_offset := (VInt 0, VInt 60);
  mask_offset := (VInt 0, VInt (-30));
  character_offset := (VInt (-70), VInt (-40));
  character_size := (VInt 449, VInt 804);
  character_rotation := VFloat (of_Z 3);
  face_position := VFloat (of_Z 0);
  output_scale := VFloat (of_Z 1);
  internal_scale := VFloat (of_Z 1)
|}.

(** [AvatarConfig(mask_offset=(0, -30), output_scale=2.0)]: integer
    offsets and an integral output scale. *)
Definition integer_scale_2_config : AvatarConfig := {|
  output_size := (VInt 340, VInt 400);
  portal_size := (VInt 340, VInt 340);
  mask_size := (VInt 340, VInt 430);
  portal_offset := (VInt 0, VInt 60);
  mask_offset := (VInt 0, VInt (-30));
  character_offset := (VInt (-70), VInt (-40));
  character_size := (VInt 449, VInt 804);
  character_rotation := VFloat (of_Z 3);
  face_position := VFloat (of_Z 0);
  output_scale := VFloat (of_Z 2);
  internal_scale := VFloat (of_Z 1)
|}.

(** A heap holding one config, [AvatarConfig()], at reference [0]. *)
Definition one_config_heap : Heap.heap :=
  {| Heap.store := fun l => if Nat.eqb l 0 then Some (Heap.OConfig default_config) else None;
     Heap.next := 1 |}.

(** A uniform transparent image. *)
Definition blank (w h : Z) : image rgba := mkImage w h (fun _ _ => rgba_zero).

(** ** The preset gradients *)

Module Presets.
Definition orange : PortalGradient := {| start_color := "#CE782D"; end_color := "#E1A371" |}.
Definition blue : PortalGradient := {| start_color := "#2D7ECE"; end_color := "#71A3E1" |}.
Definition green : PortalGradient := {| start_color := "#2DCE78"; end_color := "#71E1A3" |}.
Definition purple : PortalGradient := {| start_color := "#782DCE"; end_color := "#A371E1" |}.
Definition red : PortalGradient := {| start_color := "#CE2D2D"; end_color := "#E17171" |}.
Definition all : list PortalGradient := [orange; blue; green; purple; red].
End Presets.

(** ** Views of a config's geometry *)

(** The four sizes and the three offsets of a config, in field order. *)
Definition config_sizes (c : AvatarConfig) : list (value * value) :=
  [output_size c; portal_size c; mask_size c; character_size c].
Definition config_offsets (c : AvatarConfig) : list (value * value) :=
  [portal_offset c; mask_offset c; character_offset c].
Definition eff_sizes (e : Eff.t) : list (Z * Z) :=
  [Eff.output_size e; Eff.portal_size e; Eff.mask_size e; Eff.character_size e].
Definition eff_offsets (e : Eff.t) : list (Z * Z) :=
  [Eff.portal_offset e; Eff.mask_offset e; Eff.character_offset e].

(** A pair of Python ints. *)
Definition vint_pair (p : value * value) : option (Z * Z) :=
  match p with (VInt x, VInt y) => Some (x, y) | _ => None end.

(** A config whose four sizes and three offsets are pairs of Python ints
    [x] with [|x|] and [|k x|] below [2^53]. *)
Definition small_int (z : Z) : bool := Z.abs z <? 2 ^ 53.
Definition int_pair_fits (k : Z) (p : value * value) : bool :=
  match vint_pair p with
  | Some (x, y) => small_int x && small_int y && small_int (k * x) && small_int (k * y)
  | None => false
  end.
Definition int_geometry (k : Z) (c : AvatarConfig) : bool :=
  forallb (int_pair_fits k) (config_sizes c ++ config_offsets c).
Definition scale_int (k : Z) (xy : Z * Z) : Z * Z := (k * fst xy, k * snd xy).

(** ** [ui.generate_avatar]: the config it builds *)

(** Lines 38-53 of [ui.py]: [char_width = int(408 * character_scale)],
    [char_height = int(731 * character_scale)], the offsets passed
    through [int()], the fixed sizes, and the dataclass defaults for
    [output_scale] and [_internal_scale]. *)
Definition generate_avatar_config (character_scale : float) (character_rotation : value)
  (character_x_offset character_y_offset mask_x_offset mask_y_offset
   portal_x_offset portal_y_offset : value) (face_position : value) : option AvatarConfig :=
  match int_of_float (fmul (of_Z 408) character_scale),
        int_of_float (fmul (of_Z 731) character_scale),
        int_of_value portal_x_offset, int_of_value portal_y_offset,
        int_of_value mask_x_offset, int_of_value mask_y_offset,
        int_of_value character_x_offset, int_of_value character_y_offset with
  | Some char_width, Some char_height, Some px, Some py, Some mx, Some my, Some cx, Some cy =>
      Some {| output_size := (VInt 340, VInt 341);
              portal_size := (VInt 340, VInt 376);
              mask_size := (VInt 340, VInt 472);
              portal_offset := (VInt px, VInt py);
              mask_offset := (VInt mx, VInt my);
              character_offset := (VInt cx, VInt cy);
              character_size := (VInt char_width, VInt char_height);
              character_rotation := character_rotation;
              face_position := face_position;
              output_scale := VFloat (of_Z 1);
              internal_scale := VFloat (of_Z 1) |}
  | _, _, _, _, _, _, _, _ => None
  end.

(** ** The command line *)

(** [str.startswith(prefix)]. *)
Definition startswith (prefix s : string) : bool := String.prefix prefix s.

(** [output_path = sys.argv[2] if len(sys.argv) > 2 and not
    sys.argv[2].startswith('--') else "avatar_output.png"]. *)
Definition cli_output_path (argv : list string) : string :=
  match nth_error argv 2 with
  | Some a => if startswith "--" a then "avatar_output.png"%string else a
  | None => "avatar_output.png"%string
  end.

(** [s.replace(old, new)] for a non-empty [old]: occurrences are replaced
    left to right, without overlap; [fuel] bounds the number of steps, and
    [length s] steps suffice. *)
Fixpoint replace_all (fuel : nat) (old new s : string) : string :=
  match fuel with
  | O => s
  | S f =>
      match s with
      | EmptyString => EmptyString
      | String c r =>
          if String.prefix old s
          then (new ++ replace_all f old new
                        (substring (String.length old) (String.length s - String.length old) s))%string
          else String c (replace_all f old new r)
      end
  end.

Definition py_replace (old new s : string) : string := replace_all (String.length s) old new s.

(** [variant_path = output_path.replace(".png", f"_{name}.png")]. *)
Definition variant_path (output_path name : string) : string :=
  py_replace ".png" ("_" ++ name ++ ".png")%string output_path.

(** The three variants the script writes after the avatar. *)
Definition variant_names : list string := ["blue"%string; "green"%string; "purple"%string].

(** ** Shape masks, portal fills and character loading *)

Module Files.

(** [str.endswith(suffix)]. *)
Definition endswith (suffix s : string) : bool :=
  let n := String.length s in
  let k := String.length suffix in
  (k <=? n)%nat && String.eqb (substring (n - k) k s) suffix.

(** [re.sub(r'fill="[^"]*"', 'fill="white"', svg_content)]: at each
    position, [fill="] followed by any run of non-quote characters and a
    closing quote is replaced; the scan resumes after the match, or one
    character further when there is none. *)
Definition dq : ascii := ascii_of_nat 34.
Definition fill_open : list ascii := list_ascii_of_string "fill=" ++ [dq].
Definition fill_white : list ascii := fill_open ++ list_ascii_of_string "white" ++ [dq].

Fixpoint strip_prefix (p l : list ascii) : option (list ascii) :=
  match p, l with
  | [], _ => Some l
  | a :: p', b :: l' => if Ascii.eqb a b then strip_prefix p' l' else None
  | _ :: _, [] => None
  end.

(** [[^"]*"]: the rest after the first quote. *)
Fixpoint skip_to_quote (l : list ascii) : option (list ascii) :=
  match l with
  | [] => None
  | c :: r => if Ascii.eqb c dq then Some r else skip_to_quote r
  end.

Fixpoint sub_fill (fuel : nat) (l : list ascii) : list ascii :=
  match fuel with
  | O => l
  | S f =>
      match l with
      | [] => []
      | c :: r =>
          match match strip_prefix fill_open l with
                | Some l' => skip_to_quote l'
                | None => None
                end with
          | Some rest => fill_white ++ sub_fill f rest
          | None => c :: sub_fill f r
          end
      end
  end.

Definition re_sub_fill (s : string) : string :=
  let l := list_ascii_of_string s in string_of_list_ascii (sub_fill (List.length l) l).

(** A file opened by [Image.open]: its mode and its pixels. *)
Inductive opened :=
| OpenedRGBA (im : image rgba)
| OpenedL (im : image Z)
| OpenedOther (mode : string) (im : image rgba).

Inductive fill := FillGradient (g : PortalGradient) | FillPath (p : string) | FillImage (o : opened).

Section FileSystem.
(** [HAS_CAIROSVG]. *)
Variable has_cairosvg : bool.
(** [open(path, "r").read()]. *)
Variable read_text : string -> option string.
(** [Image.open(BytesIO(cairosvg.svg2png(bytestring=svg, output_width=w,
    output_height=h))).convert("RGBA")]. *)
Variable svg2png : string -> Z -> Z -> option (image rgba).
(** [Image.open(path)], and [Image.open(BytesIO(requests.get(url).content))]. *)
Variable open_image : string -> option opened.
Variable fetch_image : string -> option opened.
(** [convert("L")], [convert("RGB")] and [convert("RGBA")] from the other
    modes. *)
Variable convert_L_other : string -> image rgba -> Z -> Z -> Z.
Variable convert_RGB_other : string -> image rgba -> Z -> Z -> rgba.
Variable convert_RGBA_other : string -> image rgba -> Z -> Z -> rgba.
(** Pixels of [resize(size, LANCZOS)] on [L] and on [RGB]/[RGBA] images. *)
Variable lanczos_L : image Z -> Z -> Z -> Z -> Z -> Z.
Variable lanczos : image rgba -> Z -> Z -> Z -> Z -> rgba.

(** [img.resize(size, LANCZOS)] on an [L] image. *)
Definition resize_L (im : image Z) (size : Z * Z) : option (image Z) :=
  let '(w, h) := size in
  if (w =? width im) && (h =? height im) then Some (copy im)
  else if (w <? 1) || (h <? 1) then None
  else Some (mkImage w h (lanczos_L im w h)).

Definition size_eqb (a b : Z * Z) : bool := (fst a =? fst b) && (snd a =? snd b).

Definition load_shape_mask (shape_path : string) (size : Z * Z) : option (image Z) :=
  if endswith ".svg" shape_path then
    if negb has_cairosvg then None
    else match read_text shape_path with
         | None => None
         | Some svg_content =>
             let svg_content := re_sub_fill svg_content in
             match svg2png svg_content (fst size) (snd size) with
             | None => None
             | Some img => Some (getchannel_A img)
             end
         end
  else match open_image shape_path with
       | None => None
       | Some img =>
           let mask := match img with
                       | OpenedRGBA i => getchannel_A i
                       | OpenedL i => i
                       | OpenedOther m i => mkImage (width i) (height i) (convert_L_other m i)
                       end in
           if negb (size_eqb (Img.size mask) size) then resize_L mask size else Some mask
       end.

(** [img.convert("RGB")]: drops the alpha band, spreads [L] to three
    bands. *)
Definition convert_RGB (o : opened) : image rgba :=
  match o with
  | OpenedRGBA i =>
      mkImage (width i) (height i)
        (fun x y => let p := pixel i x y in RGBA (red p) (green p) (blue p) 255)
  | OpenedL i =>
      mkImage (width i) (height i)
        (fun x y => RGBA (pixel i x y) (pixel i x y) (pixel i x y) 255)
  | OpenedOther m i => mkImage (width i) (height i) (convert_RGB_other m i)
  end.

(** [Image.open] of a URL (through [requests]) or of a path. *)
Definition open_source (path : string) : option opened :=
  if startswith "http://" path || startswith "https://" path
  then fetch_image path else open_image path.

(** The fill image of [create_portal_with_fill]. *)
Definition fill_image (size : Z * Z) (f : fill) : option (image rgba) :=
  match f with
  | FillGradient g => create_gradient_image size g
  | FillPath path =>
      match open_source path with
      | None => None
      | Some o => resize lanczos (convert_RGB o) size
      end
  | FillImage o => resize lanczos (convert_RGB o) size
  end.

Definition create_portal_with_fill (shape_path : string) (size : Z * Z) (f : fill)
  : option (image rgba) :=
  match load_shape_mask shape_path size with
  | None => None
  | Some shape_mask =>
      match fill_image size f with
      | None => None
      | Some fill_img =>
          match Img.new size rgba_zero with
          | None => None
          | Some result => putalpha (paste result fill_img (0, 0)) shape_mask
          end
      end
  end.

(** [img.convert("RGBA")]. *)
Definition convert_RGBA (o : opened) : image rgba :=
  match o with
  | OpenedRGBA i => i
  | OpenedL i =>
      mkImage (width i) (height i)
        (fun x y => RGBA (pixel i x y) (pixel i x y) (pixel i x y) 255)
  | OpenedOther m i => mkImage (width i) (height i) (convert_RGBA_other m i)
  end.

(** [load_character_image(source)] for a PIL image or a string. *)
Inductive source := SourceImage (o : opened) | SourcePath (p : string).

Definition load_character_image (src : source) : option (image rgba) :=
  match src with
  | SourceImage o => Some (convert_RGBA o)
  | SourcePath p => option_map convert_RGBA (open_source p)
  end.

End FileSystem.
End Files.

(** A nonzero integer by its sign and magnitude. *)

Definition zsign (s : bool) (p : positive) : Z := if s then Zneg p else Zpos p.

(** [int(s, 16)] lies in [lo, hi] when it succeeds. *)
Definition int16_within (lo hi : Z) (s : string) : bool :=
  match PyStr.int16 s with Some v => (lo <=? v) && (v <=? hi) | None => true end.

(** [list.index(x)]: the position of the first element equal to [x]; a
    [ValueError] when there is none. *)
Fixpoint list_index (x : string) (l : list string) : option nat :=
  match l with
  | [] => None
  | y :: r => if String.eqb y x then Some O else option_map S (list_index x r)
  end.

(** [fill = PortalGradient.orange()]; [if '--fill' in sys.argv:
    fill_idx = sys.argv.index('--fill')]; [if fill_idx + 1 < len(sys.argv):
    fill = sys.argv[fill_idx + 1]]. *)
Definition cli_fill (argv : list string) : Files.fill :=
  if existsb (String.eqb "--fill") argv then
    match list_index "--fill" argv with
    | Some fill_idx =>
        if (fill_idx + 1 <? List.length argv)%nat
        then Files.FillPath (nth (fill_idx + 1) argv EmptyString)
        else Files.FillGradient Presets.orange
    | None => Files.FillGradient Presets.orange
    end
  else Files.FillGradient Presets.orange.

(** The spec's [floor] of the real value [m * 2^e] of a float. *)
Definition spec_floor_float (f : float) : Z :=
  match f with
  | S754_finite s m e =>
      let v := if s then Zneg m else Zpos m in
      if 0 <=? e then v * 2 ^ e else v / 2 ^ (- e)
  | _ => 0
  end.

(** ** Rounding in binary64, stated over the reals

    [locZ D r] is the location of [r / D] in [[0, 1)] as [SpecFloat]
    records it (exact, below, at or above one half); [mkfloat q E] is the
    float [q * 2^E] once the rounded mantissa [q] is renormalised
    ([2^53] becomes [2^52] one binade up); [fval] is the real value of a
    float; [ulp_rel] is the unit roundoff [2^-53]; [nonneg_float lo hi f]
    says [f] is [+0.0] or a positive normal float with exponent in
    [[lo, hi]]. *)
Definition locZ (D r : Z) : location :=
  if r =? 0 then loc_Exact else loc_Inexact (Z.compare (2 * r) D).

Definition mkfloat (q E : Z) : float :=
  if q =? 2 ^ 53 then S754_finite false (Z.to_pos (2 ^ 52)) (E + 1)
  else S754_finite false (Z.to_pos q) E.

Definition fval (f : float) : R :=
  match f with
  | S754_finite s m e => ((if s then (-1)%R else 1%R) * IZR (Zpos m) * powerRZ 2 e)%R
  | _ => 0%R
  end.

Definition ulp_rel : R := (/ 9007199254740992)%R.

Definition nonneg_float (lo hi : Z) (f : float) : Prop :=
  f = S754_zero false \/
  exists m e, f = S754_finite false m e /\ Zpos (digits2_pos m) = 53 /\ lo <= e <= hi.

(** * Properties *)

(** ** Layer compositor *)

Lemma expand_left_nonneg (cfg : Eff.t) : 0 <= expand_left cfg.
Proof. unfold expand_left; lia. Qed.

Lemma expand_top_nonneg (cfg : Eff.t) : 0 <= expand_top cfg.
Proof. unfold expand_top; lia. Qed.

Lemma new_size {P} (w h : Z) (c : P) (im : image P) :
  Img.new (w, h) c = Some im -> size im = (w, h) /\ 0 <= w /\ 0 <= h.
Proof.
  unfold Img.new; destruct ((0 <=? w) && (0 <=? h)) eqn:E; [|discriminate].
  intros H; inversion H; subst; unfold size; simpl.
  apply andb_true_iff in E as [E1 E2]; apply Z.leb_le in E1, E2; auto.
Qed.

Lemma new_some {P} (w h : Z) (c : P) :
  0 <= w -> 0 <= h -> Img.new (w, h) c = Some (mkImage w h (fun _ _ => c)).
Proof.
  intros Hw Hh; unfold Img.new.
  rewrite (proj2 (Z.leb_le 0 w) Hw), (proj2 (Z.leb_le 0 h) Hh); reflexivity.
Qed.

(** C1: the layer produced by the compositor is exactly the output frame:
    for every placement of mask and character, whatever the signs and
    magnitudes of their offsets, it has size [output_size]; it fails only
    for a negative output size, where [Image.new] raises first. *)
Theorem layer_compositor_size (cfg : Eff.t) (character : image rgba) (mask : image Z) :
  option_map size (layer_compositor cfg character mask) =
  (let '(w, h) := Eff.output_size cfg in
   if (0 <=? w) && (0 <=? h) then Some (w, h) else None).
Proof.
  pose proof (expand_left_nonneg cfg) as Hel; pose proof (expand_top_nonneg cfg) as Het.
  unfold layer_compositor, place_mask, place_character, expanded_size.
  destruct (Eff.output_size cfg) as [w h] eqn:Eo; simpl fst; simpl snd.
  set (el := expand_left cfg) in *; set (et := expand_top cfg) in *.
  unfold Img.new.
  destruct (0 <=? w + el * 2 + 200) eqn:E1; destruct (0 <=? h + et * 2 + 200) eqn:E2;
    simpl; unfold putalpha, multiply, getchannel_A, copy, crop; simpl;
    rewrite ?Z.min_id, ?Z.eqb_refl; simpl;
    destruct (0 <=? w) eqn:Ew; destruct (0 <=? h) eqn:Eh; simpl;
    repeat match goal with
           | H : (_ <=? _) = true |- _ => apply Z.leb_le in H
           | H : (_ <=? _) = false |- _ => apply Z.leb_gt in H
           end; try lia;
    try (destruct (el + w <? el) eqn:F1; destruct (et + h <? et) eqn:F2; simpl;
         repeat match goal with
                | H : (_ <? _) = true |- _ => apply Z.ltb_lt in H
                | H : (_ <? _) = false |- _ => apply Z.ltb_ge in H
                end; try lia; unfold size; simpl; f_equal; f_equal; lia).
Qed.

(** C5: the combined alpha [ImageChops.multiply(subject_alpha, mask)] is
    [subject_alpha(p) * mask(p) / 255] at every pixel; swapping the two
    arguments gives the same size and pixels; and it is [0] wherever
    either input is [0]. *)
Theorem multiply_alpha_combination (subject_alpha mask_alpha : image Z) (x y : Z) :
  pixel (multiply subject_alpha mask_alpha) x y
    = pixel subject_alpha x y * pixel mask_alpha x y / 255 /\
  size (multiply subject_alpha mask_alpha) = size (multiply mask_alpha subject_alpha) /\
  pixel (multiply subject_alpha mask_alpha) x y = pixel (multiply mask_alpha subject_alpha) x y /\
  (pixel subject_alpha x y = 0 \/ pixel mask_alpha x y = 0 ->
   pixel (multiply subject_alpha mask_alpha) x y = 0).
Proof.
  unfold multiply, size; simpl.
  refine (conj eq_refl (conj _ (conj _ _))).
  - f_equal; apply Z.min_comm.
  - rewrite Z.mul_comm; reflexivity.
  - intros [H | H]; rewrite H; [rewrite Z.mul_0_l | rewrite Z.mul_0_r]; reflexivity.
Qed.

(** C6: the working canvas: [expand_left = |min(0, mask_offset_x,
    character_offset_x)|], [expand_top = |min(0, mask_offset_y,
    character_offset_y)|], and both the mask canvas and the character canvas
    have size [(output_w + 2 expand_left + 200, output_h + 2 expand_top + 200)]:
    the pad is the constant 200 at whatever scale the config was derived. *)
Theorem working_canvas_geometry (cfg : Eff.t) (character : image rgba) (mask : image Z)
  (Hw : 0 <= fst (Eff.output_size cfg)) (Hh : 0 <= snd (Eff.output_size cfg)) :
  expand_left cfg
    = Z.abs (Z.min 0 (Z.min (fst (Eff.mask_offset cfg)) (fst (Eff.character_offset cfg)))) /\
  expand_top cfg
    = Z.abs (Z.min 0 (Z.min (snd (Eff.mask_offset cfg)) (snd (Eff.character_offset cfg)))) /\
  exists full_mask temp,
    place_mask cfg mask = Some full_mask /\
    place_character cfg character = Some temp /\
    size full_mask = (fst (Eff.output_size cfg) + 2 * expand_left cfg + 200,
                      snd (Eff.output_size cfg) + 2 * expand_top cfg + 200) /\
    size temp = (fst (Eff.output_size cfg) + 2 * expand_left cfg + 200,
                 snd (Eff.output_size cfg) + 2 * expand_top cfg + 200).
Proof.
  pose proof (expand_left_nonneg cfg) as Hel; pose proof (expand_top_nonneg cfg) as Het.
  split; [unfold expand_left; rewrite <- Z.min_assoc; reflexivity|].
  split; [unfold expand_top; rewrite <- Z.min_assoc; reflexivity|].
  unfold place_mask, place_character, expanded_size.
  rewrite !new_some by lia.
  do 2 eexists; refine (conj eq_refl (conj eq_refl (conj _ _)));
    unfold size, paste; cbn -[expand_left expand_top Z.mul]; f_equal; lia.
Qed.

(** ** Gradient *)

Lemma create_gradient_image_pixel (g : PortalGradient) (W H : Z) (img : image rgba)
  (sr sg sb er eg eb : Z) :
  hex_to_rgb (start_color g) = Some (sr, sg, sb) ->
  hex_to_rgb (end_color g) = Some (er, eg, eb) ->
  create_gradient_image (W, H) g = Some img ->
  size img = (W, H) /\
  forall x y, pixel img x y =
    RGBA (clip8 (gradient_channel sr er (gradient_t W H x y)))
         (clip8 (gradient_channel sg eg (gradient_t W H x y)))
         (clip8 (gradient_channel sb eb (gradient_t W H x y))) 255.
Proof.
  intros Hs He; unfold create_gradient_image.
  destruct (Img.new (W, H) (RGBA 0 0 0 255)) as [im|]; [|discriminate].
  rewrite Hs, He; intros Hi; inversion Hi; subst; split; reflexivity.
Qed.

(** C2 (counterexample): for the 10x10 gradient from [#000000] to
    [#FFFFFF], pixel (9,0) is 12, not 242, and pixel (0,9) is 242, not 12:
    [t] is small near the top-right corner, where the start colour
    dominates. *)
Lemma gradient_example_values_swapped :
  exists img, create_gradient_image (10, 10) black_to_white = Some img /\
    red (pixel img 9 0) = 12 /\ red (pixel img 9 0) <> 242 /\
    red (pixel img 0 9) = 242 /\ red (pixel img 0 9) <> 12.
Proof.
  eexists; split; [reflexivity|].
  vm_compute; repeat split; discriminate.
Qed.

(** C2 (amended): every pixel (x,y) of a W x H gradient has
    [t = ((W - x) + y) / (W + H)] (float division) and each channel
    [int(start * (1 - t) + end * t)] (float arithmetic, truncated), stored
    clamped to 8 bits; for the 10x10 gradient from [#000000] to [#FFFFFF],
    pixel (9,0) has channel 12 and pixel (0,9) has channel 242. *)
Theorem gradient_pixel_formula (g : PortalGradient) (W H : Z) (img : image rgba)
  (sr sg sb er eg eb : Z)
  (Hs : hex_to_rgb (start_color g) = Some (sr, sg, sb))
  (He : hex_to_rgb (end_color g) = Some (er, eg, eb))
  (Hi : create_gradient_image (W, H) g = Some img) :
  size img = (W, H) /\
  (forall x y, 0 <= x < W -> 0 <= y < H ->
     gradient_t W H x y = Py.truediv_int ((W - x) + y) (W + H) /\
     pixel img x y =
       RGBA (clip8 (gradient_channel sr er (gradient_t W H x y)))
            (clip8 (gradient_channel sg eg (gradient_t W H x y)))
            (clip8 (gradient_channel sb eb (gradient_t W H x y))) 255) /\
  (exists bw, create_gradient_image (10, 10) black_to_white = Some bw /\
     pixel bw 9 0 = RGBA 12 12 12 255 /\ pixel bw 0 9 = RGBA 242 242 242 255).
Proof.
  destruct (create_gradient_image_pixel g W H img sr sg sb er eg eb Hs He Hi) as [Hsz Hpx].
  split; [exact Hsz|]; split.
  - intros x y _ _; split; [reflexivity | apply Hpx].
  - eexists; split; [reflexivity|]; split; vm_compute; reflexivity.
Qed.

Lemma gradient_pixel_formula_witness :
  hex_to_rgb "#000000" = Some (0, 0, 0) /\ hex_to_rgb "#FFFFFF" = Some (255, 255, 255) /\
  exists img, create_gradient_image (10, 10) black_to_white = Some img /\
    size img = (10, 10).
Proof.
  split; [reflexivity|]; split; [reflexivity|].
  eexists; split; [reflexivity|].
  exact (proj1 (gradient_pixel_formula black_to_white 10 10 _ 0 0 0 255 255 255
                  eq_refl eq_refl eq_refl)).
Defined.

(** C10 (counterexample): the float blend is truncated, so a pixel can fall
    below [min(start, end)]: with start = end = [#030303] on a 1x9 raster,
    pixel (0,2) has channel 2. *)
Lemma gradient_channel_below_min :
  exists img, create_gradient_image (1, 9) constant_03 = Some img /\
    hex_to_rgb (start_color constant_03) = Some (3, 3, 3) /\
    hex_to_rgb (end_color constant_03) = Some (3, 3, 3) /\
    red (pixel img 0 2) = 2 /\ red (pixel img 0 2) < Z.min 3 3.
Proof.
  eexists; split; [reflexivity|].
  split; [reflexivity|]; split; [reflexivity|].
  vm_compute; split; [reflexivity | reflexivity].
Qed.

(** ** [hex_to_rgb] *)

Lemma in_all_ascii (c : ascii) : In c all_ascii.
Proof.
  unfold all_ascii; rewrite <- (ascii_nat_embedding c).
  apply in_map, in_seq; pose proof (nat_ascii_bounded c); lia.
Qed.

Lemma hex_pair_ok_all : forallb (fun c1 => forallb (hex_pair_ok c1) all_ascii) all_ascii = true.
Proof. vm_compute; reflexivity. Qed.

Lemma int16_hex_pair (c1 c2 : ascii) (d1 d2 : Z) :
  PyStr.hex_digit c1 = Some d1 -> PyStr.hex_digit c2 = Some d2 ->
  PyStr.int16 (String c1 (String c2 EmptyString)) = Some (16 * d1 + d2).
Proof.
  intros H1 H2.
  pose proof hex_pair_ok_all as Hall.
  rewrite forallb_forall in Hall; specialize (Hall c1 (in_all_ascii c1)).
  rewrite forallb_forall in Hall; specialize (Hall c2 (in_all_ascii c2)).
  unfold hex_pair_ok in Hall; rewrite H1, H2 in Hall.
  destruct (PyStr.int16 _) as [v|]; [|discriminate].
  apply Z.eqb_eq in Hall; subst; reflexivity.
Qed.

Lemma hex_digit_range (c : ascii) (d : Z) : PyStr.hex_digit c = Some d -> 0 <= d <= 15.
Proof.
  unfold PyStr.hex_digit.
  destruct ((48 <=? _) && (_ <=? 57)) eqn:E1;
    [intros H; inversion H; subst; apply andb_true_iff in E1 as [A B];
     apply Z.leb_le in A, B; lia|].
  destruct ((97 <=? _) && (_ <=? 102)) eqn:E2;
    [intros H; inversion H; subst; apply andb_true_iff in E2 as [A B];
     apply Z.leb_le in A, B; lia|].
  destruct ((65 <=? _) && (_ <=? 70)) eqn:E3;
    [intros H; inversion H; subst; apply andb_true_iff in E3 as [A B];
     apply Z.leb_le in A, B; lia|].
  discriminate.
Qed.

Lemma is_hex_char_digit (c : ascii) :
  is_hex_char c = true -> exists d, PyStr.hex_digit c = Some d /\ 0 <= d <= 15.
Proof.
  unfold is_hex_char; destruct (PyStr.hex_digit c) as [d|] eqn:E; [|discriminate].
  intros _; exists d; split; [reflexivity | exact (hex_digit_range c d E)].
Qed.

(** C8 (counterexample): [hex_to_rgb] does not check the length: the
    seven-digit input [1234567] succeeds with [(0x12, 0x34, 0x56)]. *)
Lemma hex_to_rgb_accepts_seven_digits :
  six_hex_digits (PyStr.lstrip "#"%char "1234567") = false /\
  hex_to_rgb "1234567" = Some (18, 52, 86).
Proof. split; reflexivity. Qed.

(** A colour whose part after the leading ['#']s is six hex digits
    parses to [16 d0 + d1], [16 d2 + d3], [16 d4 + d5], each in [0, 255]. *)
Lemma hex_to_rgb_six_digits (s : string)
  (Hs : six_hex_digits (PyStr.lstrip "#"%char s) = true) :
  exists c0 c1 c2 c3 c4 c5 d0 d1 d2 d3 d4 d5,
    PyStr.lstrip "#"%char s
      = String c0 (String c1 (String c2 (String c3 (String c4 (String c5 EmptyString))))) /\
    PyStr.hex_digit c0 = Some d0 /\ PyStr.hex_digit c1 = Some d1 /\
    PyStr.hex_digit c2 = Some d2 /\ PyStr.hex_digit c3 = Some d3 /\
    PyStr.hex_digit c4 = Some d4 /\ PyStr.hex_digit c5 = Some d5 /\
    hex_to_rgb s = Some (16 * d0 + d1, 16 * d2 + d3, 16 * d4 + d5) /\
    0 <= 16 * d0 + d1 <= 255 /\ 0 <= 16 * d2 + d3 <= 255 /\ 0 <= 16 * d4 + d5 <= 255.
Proof.
  unfold hex_to_rgb; revert Hs.
  destruct (PyStr.lstrip "#"%char s) as
    [|c0 [|c1 [|c2 [|c3 [|c4 [|c5 [|c6 r]]]]]]]; try discriminate.
  unfold six_hex_digits; cbn -[Z.mul is_hex_char PyStr.int16].
  intros H; rewrite !andb_true_r in H.
  apply andb_true_iff in H as [H0 H]; apply andb_true_iff in H as [H1 H].
  apply andb_true_iff in H as [H2 H]; apply andb_true_iff in H as [H3 H].
  apply andb_true_iff in H as [H4 H5].
  destruct (is_hex_char_digit _ H0) as [d0 [E0 R0]].
  destruct (is_hex_char_digit _ H1) as [d1 [E1 R1]].
  destruct (is_hex_char_digit _ H2) as [d2 [E2 R2]].
  destruct (is_hex_char_digit _ H3) as [d3 [E3 R3]].
  destruct (is_hex_char_digit _ H4) as [d4 [E4 R4]].
  destruct (is_hex_char_digit _ H5) as [d5 [E5 R5]].
  exists c0, c1, c2, c3, c4, c5, d0, d1, d2, d3, d4, d5.
  unfold PyStr.slice; cbn -[Z.mul PyStr.int16].
  rewrite (int16_hex_pair c0 c1 d0 d1 E0 E1), (int16_hex_pair c2 c3 d2 d3 E2 E3),
    (int16_hex_pair c4 c5 d4 d5 E4 E5).
  split; [reflexivity|].
  do 6 (split; [assumption|]).
  split; [reflexivity|].
  lia.
Qed.


(** ** Exact float arithmetic on small integers

    Integers below [2^53] are floats exactly, and multiplying or dividing
    them by [1.0] or [2.0] is exact.  [binary_round_aux] leaves a
    53-digit mantissa unchanged, and it strips trailing zero bits exactly. *)

Lemma digits2_iter_xO (p k : positive) :
  digits2_pos (Pos.iter xO p k) = (digits2_pos p + k)%positive.
Proof.
  induction k using Pos.peano_ind.
  - simpl. rewrite Pos.add_1_r; reflexivity.
  - rewrite Pos.iter_succ; simpl; rewrite IHk, Pos.add_succ_r; reflexivity.
Qed.

Lemma iter_pos_iter {A} (f : A -> A) (k : positive) (x : A) :
  iter_pos f k x = Pos.iter f x k.
Proof.
  revert x; induction k; intros x; simpl.
  - rewrite !IHk, !Pos.iter_swap; reflexivity.
  - rewrite !IHk; reflexivity.
  - reflexivity.
Qed.

Lemma shr_iter_exact (m k : positive) :
  iter_pos shr_1 k (Build_shr_record (Zpos (Pos.iter xO m k)) false false)
  = Build_shr_record (Zpos m) false false.
Proof.
  rewrite iter_pos_iter.
  induction k using Pos.peano_ind.
  - reflexivity.
  - rewrite (Pos.iter_succ k _ xO m), (Pos.iter_succ_r k _ shr_1); simpl; exact IHk.
Qed.

Lemma round_aux_exact (s : bool) (m : positive) (e : Z) :
  digits2_pos m = 53%positive -> -1074 <= e <= 971 ->
  binary_round_aux Py.prec Py.emax s (Zpos m) e loc_Exact = S754_finite s m e.
Proof.
  intros Hd He; unfold binary_round_aux, shr_fexp, Zdigits2; rewrite Hd.
  assert (H0 : fexp Py.prec Py.emax (Zpos 53 + e) - e = 0)
    by (unfold fexp, emin, Py.prec, Py.emax; lia).
  rewrite H0; cbn [shr shr_record_of_loc loc_of_shr_record shr_m round_nearest_even].
  unfold Zdigits2; rewrite Hd, H0; cbn [shr shr_m].
  assert (H1 : (e <=? Py.emax - Py.prec) = true)
    by (apply Z.leb_le; unfold Py.prec, Py.emax; lia).
  rewrite H1; reflexivity.
Qed.

Lemma round_aux_shift (s : bool) (m k : positive) (e : Z) :
  digits2_pos m = 53%positive -> -1074 <= e <= 971 ->
  binary_round_aux Py.prec Py.emax s (Zpos (Pos.iter xO m k)) (e - Zpos k) loc_Exact
  = S754_finite s m e.
Proof.
  intros Hd He; unfold binary_round_aux, shr_fexp, Zdigits2.
  rewrite digits2_iter_xO, Hd.
  assert (H0 : fexp Py.prec Py.emax (Zpos (53 + k) + (e - Zpos k)) - (e - Zpos k) = Zpos k)
    by (unfold fexp, emin, Py.prec, Py.emax; rewrite Pos2Z.inj_add; lia).
  rewrite H0; cbn [shr shr_record_of_loc].
  rewrite shr_iter_exact; cbn [loc_of_shr_record shr_m round_nearest_even].
  replace (e - Zpos k + Zpos k) with e by lia.
  unfold Zdigits2; rewrite Hd.
  assert (H1 : fexp Py.prec Py.emax (Zpos 53 + e) - e = 0)
    by (unfold fexp, emin, Py.prec, Py.emax; lia).
  rewrite H1; cbn [shr shr_m].
  assert (H2 : (e <=? Py.emax - Py.prec) = true)
    by (apply Z.leb_le; unfold Py.prec, Py.emax; lia).
  rewrite H2; reflexivity.
Qed.

Lemma iter_xO_Z (p k : positive) : Zpos (Pos.iter xO p k) = Zpos p * 2 ^ Zpos k.
Proof.
  induction k using Pos.peano_ind.
  - simpl; lia.
  - rewrite Pos.iter_succ, Pos2Z.inj_succ, Z.pow_succ_r by lia.
    change (Zpos (xO (Pos.iter xO p k))) with (2 * Zpos (Pos.iter xO p k)).
    rewrite IHk; lia.
Qed.

Lemma digits2_pos_bound (p : positive) :
  2 ^ (Zpos (digits2_pos p) - 1) <= Zpos p < 2 ^ Zpos (digits2_pos p).
Proof.
  induction p as [p IH|p IH|]; simpl digits2_pos; try (simpl; lia);
  rewrite Pos2Z.inj_succ; set (d := Zpos (digits2_pos p)) in *;
  assert (Hd : 1 <= d) by (subst d; lia);
  assert (A : 2 ^ Z.succ d = 2 * 2 ^ d) by (apply Z.pow_succ_r; lia);
  assert (B : 2 ^ d = 2 * 2 ^ (d - 1))
    by (rewrite <- Z.pow_succ_r by lia; f_equal; lia);
  replace (Z.succ d - 1) with d by lia;
  [change (Zpos p~1) with (2 * Zpos p + 1) | change (Zpos p~0) with (2 * Zpos p)]; lia.
Qed.

Lemma of_Z_pos (p : positive) :
  (Zpos (digits2_pos p) <= 53) ->
  exists m, Py.of_Z (Zpos p) = S754_finite false m (Zpos (digits2_pos p) - 53) /\
            digits2_pos m = 53%positive /\
            Zpos m = Zpos p * 2 ^ (53 - Zpos (digits2_pos p)).
Proof.
  intros Hd.
  unfold Py.of_Z, binary_normalize, binary_round, shl_align.
  assert (Hf : fexp Py.prec Py.emax (Zpos (digits2_pos p) + 0) = Zpos (digits2_pos p) - 53)
    by (unfold fexp, emin, Py.prec, Py.emax; lia).
  rewrite Hf.
  destruct (Zpos (digits2_pos p) - 53 - 0) eqn:E.
  - assert (H53 : digits2_pos p = 53%positive) by lia.
    exists p; rewrite round_aux_exact by (try exact H53; lia).
    rewrite H53; split; [reflexivity|]; split; [reflexivity|]; simpl; lia.
  - lia.
  - assert (Hk : digits2_pos (Pos.iter xO p p0) = 53%positive)
      by (rewrite digits2_iter_xO; lia).
    exists (Pos.iter xO p p0).
    rewrite round_aux_exact by (try exact Hk; lia).
    split; [f_equal; lia|]; split; [exact Hk|].
    rewrite iter_xO_Z; f_equal; f_equal; lia.
Qed.

Lemma digits_le (p : positive) (n : Z) :
  0 <= n -> Zpos p < 2 ^ n -> Zpos (digits2_pos p) <= n.
Proof.
  intros Hn Hp; pose proof (digits2_pos_bound p) as [Hl _].
  destruct (Z.le_gt_cases (Zpos (digits2_pos p)) n) as [H|H]; [exact H|].
  assert (2 ^ n <= 2 ^ (Zpos (digits2_pos p) - 1)) by (apply Z.pow_le_mono_r; lia).
  lia.
Qed.

Lemma mul_iter_xO (m k : positive) : Pos.mul m (Pos.iter xO 1%positive k) = Pos.iter xO m k.
Proof.
  induction k using Pos.peano_ind.
  - simpl; rewrite Pos.mul_comm; reflexivity.
  - rewrite !Pos.iter_succ, Pos.mul_xO_r, IHk; reflexivity.
Qed.

Lemma of_Z_one : Py.of_Z 1 = S754_finite false (Pos.iter xO 1%positive 52) (-52).
Proof. reflexivity. Qed.

Lemma of_Z_two : Py.of_Z 2 = S754_finite false (Pos.iter xO 1%positive 52) (-51).
Proof. reflexivity. Qed.

Lemma trunc_of_Z (z : Z) : 0 <= z < 2 ^ 53 -> Py.trunc (Py.of_Z z) = z.
Proof.
  intros Hz; destruct z as [|p|p]; [reflexivity| |lia].
  pose proof (digits_le p 53 ltac:(lia) ltac:(lia)) as Hd.
  destruct (of_Z_pos p Hd) as (m & Hm & _ & Hmv); rewrite Hm; unfold Py.trunc.
  destruct (0 <=? Zpos (digits2_pos p) - 53) eqn:E.
  - apply Z.leb_le in E.
    rewrite Z.shiftl_mul_pow2 by lia.
    replace (Zpos (digits2_pos p) - 53) with 0 by lia; rewrite Hmv.
    replace (53 - Zpos (digits2_pos p)) with 0 by lia; simpl; lia.
  - apply Z.leb_gt in E.
    rewrite Z.shiftr_div_pow2 by lia.
    replace (- (Zpos (digits2_pos p) - 53)) with (53 - Zpos (digits2_pos p)) by lia.
    rewrite Hmv, Z.div_mul; [reflexivity|].
    apply Z.pow_nonzero; lia.
Qed.

Lemma mul_one_of_Z (z : Z) : 0 <= z < 2 ^ 53 -> Py.fmul (Py.of_Z z) (Py.of_Z 1) = Py.of_Z z.
Proof.
  intros Hz; destruct z as [|p|p]; [reflexivity| |lia].
  pose proof (digits_le p 53 ltac:(lia) ltac:(lia)) as Hd.
  destruct (of_Z_pos p Hd) as (m & Hm & Hmd & _).
  rewrite Hm, of_Z_one; unfold Py.fmul, SFmul; simpl xorb.
  rewrite mul_iter_xO.
  replace (Zpos (digits2_pos p) - 53 + -52) with ((Zpos (digits2_pos p) - 53) - Zpos 52) by lia.
  apply round_aux_shift; [exact Hmd | lia].
Qed.

Lemma of_Z_double (p : positive) (m : positive) :
  Zpos p < 2 ^ 52 ->
  Py.of_Z (Zpos p) = S754_finite false m (Zpos (digits2_pos p) - 53) ->
  Py.of_Z (Zpos (xO p)) = S754_finite false m (Zpos (digits2_pos p) - 52).
Proof.
  intros Hp Hm.
  pose proof (digits_le p 52 ltac:(lia) Hp) as Hd.
  assert (Hd2 : Zpos (digits2_pos (xO p)) <= 53) by (simpl; lia).
  destruct (of_Z_pos (xO p) Hd2) as (m' & Hm' & _ & Hm'v).
  destruct (of_Z_pos p ltac:(lia)) as (m0 & Hm0 & _ & Hm0v).
  rewrite Hm in Hm0; inversion Hm0; subst m0.
  rewrite Hm'; simpl digits2_pos in *; rewrite Pos2Z.inj_succ in *.
  assert (Zpos m' = Zpos m).
  { rewrite Hm'v, Hm0v.
    change (Zpos (xO p)) with (2 * Zpos p).
    replace (53 - Z.succ (Zpos (digits2_pos p))) with (52 - Zpos (digits2_pos p)) by lia.
    replace (53 - Zpos (digits2_pos p)) with (Z.succ (52 - Zpos (digits2_pos p))) by lia.
    rewrite Z.pow_succ_r by lia; lia. }
  inversion H; subst; f_equal; lia.
Qed.

Lemma mul_two_of_Z (z : Z) : 0 <= z < 2 ^ 52 -> Py.fmul (Py.of_Z z) (Py.of_Z 2) = Py.of_Z (2 * z).
Proof.
  intros Hz; destruct z as [|p|p]; [reflexivity| |lia].
  pose proof (digits_le p 52 ltac:(lia) ltac:(lia)) as Hd.
  destruct (of_Z_pos p ltac:(lia)) as (m & Hm & Hmd & _).
  change (2 * Zpos p) with (Zpos (xO p)).
  rewrite (of_Z_double p m ltac:(lia) Hm).
  rewrite Hm, of_Z_two; unfold Py.fmul, SFmul; simpl xorb.
  rewrite mul_iter_xO.
  replace (Zpos (digits2_pos p) - 53 + -51) with ((Zpos (digits2_pos p) - 52) - Zpos 52) by lia.
  apply round_aux_shift; [exact Hmd | lia].
Qed.

Lemma div_core_two (m : positive) (E : Z) :
  Zpos (digits2_pos m) = 53 -> -1000 <= E <= 971 ->
  SFdiv_core_binary Py.prec Py.emax (Zpos m) E (Zpos (Pos.iter xO 1%positive 52)) (-51)
  = (Zpos (xO m), E - 2, loc_Exact).
Proof.
  intros Hd HE; unfold SFdiv_core_binary; cbv zeta.
  change (Zdigits2 (Zpos m)) with (Zpos (digits2_pos m)); rewrite Hd.
  change (Zdigits2 (Zpos (Pos.iter xO 1%positive 52))) with 53.
  assert (He : Z.min (fexp Py.prec Py.emax (53 + E - (53 + -51))) (E - -51) = E - 2)
    by (unfold fexp, emin, Py.prec, Py.emax; lia).
  rewrite He.
  replace (E - -51 - (E - 2)) with 53 by lia.
  change (Zpos (Pos.iter xO 1%positive 52)) with (2 ^ 52).
  cbn iota.
  rewrite Z.shiftl_mul_pow2 by lia.
  replace (Zpos m * 2 ^ 53) with ((Zpos m * 2) * 2 ^ 52)
    by (rewrite <- Z.mul_assoc; reflexivity).
  destruct (Z.div_eucl (Zpos m * 2 * 2 ^ 52) (2 ^ 52)) as [q r] eqn:Ediv.
  assert (Hq : q = Zpos m * 2).
  { change q with (fst (q, r)); rewrite <- Ediv.
    change (fst (Z.div_eucl (Zpos m * 2 * 2 ^ 52) (2 ^ 52))) with (Zpos m * 2 * 2 ^ 52 / 2 ^ 52).
    apply Z.div_mul; lia. }
  assert (Hr : r = 0).
  { change r with (snd (q, r)); rewrite <- Ediv.
    change (snd (Z.div_eucl (Zpos m * 2 * 2 ^ 52) (2 ^ 52))) with (Zpos m * 2 * 2 ^ 52 mod 2 ^ 52).
    apply Z.mod_mul; lia. }
  subst q r; rewrite Z.mul_comm; reflexivity.
Qed.

Lemma div_two_of_Z (z : Z) : 0 <= z < 2 ^ 52 -> Py.fdiv (Py.of_Z (2 * z)) (Py.of_Z 2) = Py.of_Z z.
Proof.
  intros Hz; destruct z as [|p|p]; [reflexivity| |lia].
  pose proof (digits_le p 52 ltac:(lia) ltac:(lia)) as Hd.
  pose proof (Pos2Z.is_pos (digits2_pos p)).
  destruct (of_Z_pos p ltac:(lia)) as (m & Hm & Hmd & _).
  change (2 * Zpos p) with (Zpos (xO p)).
  rewrite (of_Z_double p m ltac:(lia) Hm), Hm, of_Z_two.
  unfold Py.fdiv, SFdiv; simpl xorb.
  rewrite div_core_two by (auto; lia).
  change (xO m) with (Pos.iter xO m 1).
  replace (Zpos (digits2_pos p) - 52 - 2) with ((Zpos (digits2_pos p) - 53) - Zpos 1) by lia.
  apply round_aux_shift; [exact Hmd | lia].
Qed.

Lemma int_of_float_of_Z (z : Z) : 0 <= z < 2 ^ 53 -> int_of_float (of_Z z) = Some z.
Proof.
  intros Hz; destruct z as [|p|p]; [reflexivity| |lia].
  pose proof (digits_le p 53 ltac:(lia) ltac:(lia)) as Hd.
  destruct (of_Z_pos p Hd) as (m & Hm & _ & _).
  rewrite Hm; change (Some (trunc (S754_finite false m (Zpos (digits2_pos p) - 53))) = Some (Zpos p)).
  rewrite <- Hm, (trunc_of_Z (Zpos p) Hz); reflexivity.
Qed.

Lemma int_of_float_mul_zero (z : Z) : 0 <= z < 2 ^ 53 -> int_of_float (fmul (of_Z z) (of_Z 0)) = Some 0.
Proof.
  intros Hz; destruct z as [|p|p]; [reflexivity| |lia].
  pose proof (digits_le p 53 ltac:(lia) ltac:(lia)) as Hd.
  destruct (of_Z_pos p Hd) as (m & Hm & _ & _).
  rewrite Hm; reflexivity.
Qed.

Lemma of_Z_neg (p : positive) :
  (Zpos (digits2_pos p) <= 53) ->
  exists m, Py.of_Z (Zneg p) = S754_finite true m (Zpos (digits2_pos p) - 53) /\
            digits2_pos m = 53%positive /\
            Zpos m = Zpos p * 2 ^ (53 - Zpos (digits2_pos p)).
Proof.
  intros Hd.
  unfold Py.of_Z, binary_normalize, binary_round, shl_align.
  change IntDef.Z.add with Z.add; change IntDef.Z.sub with Z.sub.
  assert (Hf : fexp Py.prec Py.emax (Zpos (digits2_pos p) + 0) = Zpos (digits2_pos p) - 53)
    by (unfold fexp, emin, Py.prec, Py.emax; lia).
  rewrite Hf.
  destruct (Zpos (digits2_pos p) - 53 - 0) eqn:E.
  - assert (H53 : digits2_pos p = 53%positive) by lia.
    exists p; rewrite round_aux_exact by (try exact H53; lia).
    rewrite H53; split; [reflexivity|]; split; [reflexivity|]; simpl; lia.
  - lia.
  - assert (Hk : digits2_pos (Pos.iter xO p p0) = 53%positive)
      by (rewrite digits2_iter_xO; lia).
    exists (Pos.iter xO p p0).
    rewrite round_aux_exact by (try exact Hk; lia).
    split; [f_equal; lia|]; split; [exact Hk|].
    rewrite iter_xO_Z; f_equal; f_equal; lia.
Qed.

(** [of_Z] on [-p] is [of_Z] on [p] with the sign set. *)
Lemma of_Z_opp_pos (p m : positive) (e : Z) :
  Zpos p < 2 ^ 53 ->
  Py.of_Z (Zpos p) = S754_finite false m e -> Py.of_Z (Zneg p) = S754_finite true m e.
Proof.
  intros Hp Hm.
  pose proof (digits_le p 53 ltac:(lia) Hp) as Hd.
  destruct (of_Z_pos p Hd) as (m1 & H1 & _ & Hv1).
  destruct (of_Z_neg p Hd) as (m2 & H2 & _ & Hv2).
  rewrite Hm in H1.
  assert (E1 : m = m1) by congruence.
  assert (E2 : e = Zpos (digits2_pos p) - 53) by congruence.
  rewrite H2, E1, E2; f_equal; apply Pos2Z.inj; lia.
Qed.

Lemma trunc_sign (s : bool) (m : positive) (e : Z) :
  Py.trunc (S754_finite s m e) = (if s then - Py.trunc (S754_finite false m e)
                                  else Py.trunc (S754_finite false m e)).
Proof. destruct s; reflexivity. Qed.

Lemma int_of_float_of_Z_abs (z : Z) : Z.abs z < 2 ^ 53 -> int_of_float (of_Z z) = Some z.
Proof.
  intros Hz; destruct z as [|p|p]; [reflexivity| apply int_of_float_of_Z; lia|].
  pose proof (digits_le p 53 ltac:(lia) ltac:(lia)) as Hd.
  destruct (of_Z_pos p Hd) as (m & Hm & _ & _).
  rewrite (of_Z_opp_pos p m _ ltac:(lia) Hm).
  change (Some (Py.trunc (S754_finite true m (Zpos (digits2_pos p) - 53))) = Some (Zneg p)).
  rewrite trunc_sign, <- Hm, trunc_of_Z by lia; reflexivity.
Qed.

Lemma digits_pos_ge (p : positive) : 2 ^ (Zpos (digits2_pos p) - 1) <= Zpos p.
Proof. apply digits2_pos_bound. Qed.

(** The product of two integers below [2^53] whose product is below
    [2^53] is computed exactly. *)
Lemma mul_finite_exact (sa sb : bool) (p q m1 m2 : positive) :
  Zpos p * Zpos q < 2 ^ 53 ->
  Zpos (digits2_pos p) <= 53 -> Zpos (digits2_pos q) <= 53 ->
  Zpos m1 = Zpos p * 2 ^ (53 - Zpos (digits2_pos p)) ->
  Zpos m2 = Zpos q * 2 ^ (53 - Zpos (digits2_pos q)) ->
  exists m3,
    Py.of_Z (Zpos (p * q)) = S754_finite false m3 (Zpos (digits2_pos (p * q)) - 53) /\
    Py.fmul (S754_finite sa m1 (Zpos (digits2_pos p) - 53))
            (S754_finite sb m2 (Zpos (digits2_pos q) - 53))
    = S754_finite (xorb sa sb) m3 (Zpos (digits2_pos (p * q)) - 53).
Proof.
  intros Hpq Hdp Hdq Hm1 Hm2.
  set (dp := Zpos (digits2_pos p)) in *; set (dq := Zpos (digits2_pos q)) in *.
  assert (Hpq' : Zpos (p * q) < 2 ^ 53) by (rewrite Pos2Z.inj_mul; exact Hpq).
  pose proof (digits_le (p * q) 53 ltac:(lia) Hpq') as Hd3.
  set (d3 := Zpos (digits2_pos (p * q))) in *.
  destruct (of_Z_pos (p * q) Hd3) as (m3 & H3 & Hm3d & Hm3v).
  exists m3; split; [exact H3|].
  assert (Hk : dp + dq - 2 < d3).
  { pose proof (digits_pos_ge p) as Lp; pose proof (digits_pos_ge q) as Lq.
    pose proof (digits2_pos_bound (p * q)) as [_ L3]; fold d3 in L3.
    assert (Hdp1 : 1 <= dp) by (subst dp; lia); assert (Hdq1 : 1 <= dq) by (subst dq; lia).
    assert (2 ^ (dp + dq - 2) < 2 ^ d3).
    { replace (dp + dq - 2) with ((dp - 1) + (dq - 1)) by lia.
      rewrite Z.pow_add_r by lia; rewrite Pos2Z.inj_mul in L3.
      apply Z.le_lt_trans with (Zpos p * Zpos q); [|exact L3].
      apply Z.mul_le_mono_nonneg; try assumption; apply Z.pow_nonneg; lia. }
    apply Z.pow_lt_mono_r_iff in H; lia. }
  set (k := 53 + d3 - dp - dq).
  assert (Hk0 : 0 < k) by (subst k; lia).
  assert (Hm : (m1 * m2)%positive = Pos.iter xO m3 (Z.to_pos k)).
  { apply Pos2Z.inj; rewrite iter_xO_Z, Pos2Z.inj_mul, Hm1, Hm2, Hm3v, Z2Pos.id by lia.
    rewrite Pos2Z.inj_mul.
    assert (E : 2 ^ (53 - dp) * 2 ^ (53 - dq) = 2 ^ (53 - d3) * 2 ^ k).
    { rewrite <- !Z.pow_add_r by (subst k; lia); f_equal; subst k; lia. }
    transitivity (Zpos p * Zpos q * (2 ^ (53 - dp) * 2 ^ (53 - dq))); [ring|].
    rewrite E; unfold d3; ring. }
  unfold Py.fmul, SFmul; rewrite Hm.
  replace (dp - 53 + (dq - 53)) with ((d3 - 53) - Zpos (Z.to_pos k)) by (rewrite Z2Pos.id by lia; subst k; lia).
  apply round_aux_shift; [exact Hm3d | lia].
Qed.

Lemma of_Z_signed (s : bool) (p : positive) :
  Zpos (digits2_pos p) <= 53 ->
  exists m, Py.of_Z (zsign s p) = S754_finite s m (Zpos (digits2_pos p) - 53) /\
            Zpos m = Zpos p * 2 ^ (53 - Zpos (digits2_pos p)).
Proof.
  intros Hd; destruct s.
  - destruct (of_Z_neg p Hd) as (m & H & _ & Hv); exists m; auto.
  - destruct (of_Z_pos p Hd) as (m & H & _ & Hv); exists m; auto.
Qed.

Lemma zsign_mul (sa sb : bool) (p q : positive) :
  zsign sa p * zsign sb q = zsign (xorb sa sb) (p * q).
Proof. destruct sa, sb; reflexivity. Qed.

Lemma trunc_zsign (s : bool) (m : positive) (e : Z) (p : positive) :
  Py.trunc (S754_finite false m e) = Zpos p -> Py.trunc (S754_finite s m e) = zsign s p.
Proof. intros H; destruct s; [rewrite trunc_sign, H; reflexivity | exact H]. Qed.

Lemma of_Z_small_cases (z : Z) :
  Z.abs z < 2 ^ 53 ->
  (z = 0 /\ Py.of_Z z = S754_zero false) \/ exists s m e, Py.of_Z z = S754_finite s m e.
Proof.
  intros Hz; destruct z as [|p|p]; [left; split; reflexivity| |];
  pose proof (digits_le p 53 ltac:(lia) ltac:(lia)) as Hd; right.
  - destruct (of_Z_signed false p Hd) as (m & H & _); exists false, m; eexists; exact H.
  - destruct (of_Z_signed true p Hd) as (m & H & _); exists true, m; eexists; exact H.
Qed.

(** [int(float(a) * float(b)) = a * b] when [a], [b] and [a * b] are
    below [2^53] in magnitude. *)
Lemma int_of_float_mul_of_Z (a b : Z) :
  Z.abs a < 2 ^ 53 -> Z.abs b < 2 ^ 53 -> Z.abs (a * b) < 2 ^ 53 ->
  int_of_float (fmul (of_Z a) (of_Z b)) = Some (a * b).
Proof.
  intros Ha Hb Hab.
  destruct (of_Z_small_cases a Ha) as [[-> Ea] | (sa' & ma' & ea' & Ea)];
  destruct (of_Z_small_cases b Hb) as [[-> Eb] | (sb' & mb' & eb' & Eb)];
  try (rewrite ?Ea, ?Eb; reflexivity).
  - rewrite Z.mul_0_r, Ea, Eb; reflexivity.
  - clear Ea Eb.
    assert (Hs : forall z, z <> 0 -> exists s p, z = zsign s p)
      by (intros [|p|p] Hz; [congruence | exists false, p | exists true, p]; reflexivity).
    destruct (Z.eq_dec a 0) as [->|Ha0]; [rewrite Z.mul_0_l; destruct (of_Z_small_cases b Hb) as [[-> E]|(s&m&e&E)]; rewrite E; reflexivity|].
    destruct (Z.eq_dec b 0) as [->|Hb0]; [rewrite Z.mul_0_r; destruct (of_Z_small_cases a Ha) as [[-> E]|(s&m&e&E)]; rewrite E; reflexivity|].
    destruct (Hs a Ha0) as (sa & p & ->); destruct (Hs b Hb0) as (sb & q & ->).
    assert (Hp : Zpos p < 2 ^ 53) by (destruct sa; simpl in Ha; lia).
    assert (Hq : Zpos q < 2 ^ 53) by (destruct sb; simpl in Hb; lia).
    assert (Hpq : Zpos p * Zpos q < 2 ^ 53)
      by (rewrite zsign_mul in Hab; destruct (xorb sa sb); simpl in Hab; lia).
    pose proof (digits_le p 53 ltac:(lia) Hp) as Hdp.
    pose proof (digits_le q 53 ltac:(lia) Hq) as Hdq.
    destruct (of_Z_signed sa p Hdp) as (m1 & E1 & V1).
    destruct (of_Z_signed sb q Hdq) as (m2 & E2 & V2).
    destruct (mul_finite_exact sa sb p q m1 m2 Hpq Hdp Hdq V1 V2) as (m3 & E3 & M).
    rewrite E1, E2, M, zsign_mul.
    change (Some (Py.trunc (S754_finite (xorb sa sb) m3 (Zpos (digits2_pos (p * q)) - 53)))
            = Some (zsign (xorb sa sb) (p * q))).
    f_equal; apply trunc_zsign; rewrite <- E3; apply trunc_of_Z; rewrite Pos2Z.inj_mul; lia.
Qed.

(** ** Working canvas *)

Lemma working_canvas_geometry_witness :
  let cfg := default_scaled in
  let character := blank 449 804 in
  let mask := mkImage 680 860 (fun _ _ => 255) in
  (0 <= fst (Eff.output_size cfg) /\ 0 <= snd (Eff.output_size cfg)) /\
  (expand_left cfg
    = Z.abs (Z.min 0 (Z.min (fst (Eff.mask_offset cfg)) (fst (Eff.character_offset cfg)))) /\
  expand_top cfg
    = Z.abs (Z.min 0 (Z.min (snd (Eff.mask_offset cfg)) (snd (Eff.character_offset cfg)))) /\
  exists full_mask temp,
    place_mask cfg mask = Some full_mask /\
    place_character cfg character = Some temp /\
    size full_mask = (fst (Eff.output_size cfg) + 2 * expand_left cfg + 200,
                      snd (Eff.output_size cfg) + 2 * expand_top cfg + 200) /\
    size temp = (fst (Eff.output_size cfg) + 2 * expand_left cfg + 200,
                 snd (Eff.output_size cfg) + 2 * expand_top cfg + 200)).
Proof.
  cbv zeta.
  assert (Hw : 0 <= fst (Eff.output_size default_scaled)) by (simpl; lia).
  assert (Hh : 0 <= snd (Eff.output_size default_scaled)) by (simpl; lia).
  exact (conj (conj Hw Hh) (working_canvas_geometry default_scaled _ _ Hw Hh)).
Defined.

(** ** Cover transform *)

(** C3 (counterexample): the cover resize can fall short of its target.
    An 11x11 source and a 15x15 target give the float scale [15/11], and
    [int(11 * (15/11))] is [14]: the resized image is 14x14, so
    [max_top = -1], and with [face_position = 0.5] the crop box is
    [(-1, 0, 14, 15)]: [top] is [int(-0.5) = 0], not the spec's
    [floor(-0.5) = -1]. *)
Lemma cover_top_truncates_toward_zero :
  cover_new_size 15 15 11 11 = Some (truediv_int 15 11, 14, 14) /\
  cover_crop_box 15 15 14 14 (VFloat (lit 5 1)) = Some (-1, 0, 14, 15) /\
  (14 - 15) * 5 / 10 = -1.
Proof. vm_compute; refine (conj eq_refl (conj eq_refl eq_refl)). Qed.


(** ** Supersampling *)

Lemma any_subpixel_false (vs : list value) :
  any_subpixel vs = Some false -> forall f, In (VFloat f) vs -> is_integral f = true.
Proof.
  induction vs as [|v vs IH]; simpl; [tauto|].
  destruct v as [z|g].
  - intros H f [E|Hin]; [discriminate E | exact (IH H f Hin)].
  - destruct (int_of_float g); [|discriminate].
    destruct (is_integral g) eqn:Eg; simpl; [|discriminate].
    intros H f [E|Hin]; [injection E as <-; exact Eg | exact (IH H f Hin)].
Qed.

Lemma any_subpixel_true (vs : list value) :
  any_subpixel vs = Some true -> exists f, In (VFloat f) vs /\ is_integral f = false.
Proof.
  induction vs as [|v vs IH]; simpl; [discriminate|].
  destruct v as [z|g].
  - intros H; destruct (IH H) as (f & Hin & Hf); exists f; auto.
  - destruct (int_of_float g); [|discriminate].
    destruct (is_integral g) eqn:Eg; simpl.
    + intros H; destruct (IH H) as (f & Hin & Hf); exists f; auto.
    + intros _; exists g; auto.
Qed.

Lemma paste_masked_size (paste_blend : rgba -> rgba -> Z -> rgba) (dst src : image rgba)
  (pos : Z * Z) : size (paste_masked paste_blend dst src pos) = size dst.
Proof. destruct pos; reflexivity. Qed.

Lemma alpha_composite_size (over : rgba -> rgba -> rgba) (a b r : image rgba) :
  alpha_composite over a b = Some r -> size r = size a.
Proof.
  unfold alpha_composite; destruct (_ && _); [|discriminate].
  intros H; injection H as <-; reflexivity.
Qed.

(** The canvas [composite_avatar] hands to step 6 has size [output_size]. *)
Lemma composite_scaled_downscale
  (lanczos : image rgba -> Z -> Z -> Z -> Z -> rgba) (rotate_bbox : float -> Z -> Z -> Z * Z)
  (rotate_bicubic : image rgba -> float -> Z -> Z -> rgba)
  (shape_alpha : string -> Z -> Z -> Z -> Z -> Z) (portal_pixels : Z -> Z -> Z -> Z -> rgba)
  (paste_blend : rgba -> rgba -> Z -> rgba) (over : rgba -> rgba -> rgba)
  (cfg : Eff.t) (character : image rgba) (mask_shape : string) (img : image rgba) :
  composite_scaled lanczos rotate_bbox rotate_bicubic shape_alpha portal_pixels paste_blend over
    cfg character mask_shape = Some img ->
  exists canvas, size canvas = Eff.output_size cfg /\ downscale lanczos cfg canvas = Some img.
Proof.
  unfold composite_scaled.
  destruct (Img.new (Eff.output_size cfg) rgba_zero) as [canvas0|] eqn:En; [|discriminate].
  destruct (Eff.portal_size cfg) as [pw ph].
  destruct ((pw <? 0) || (ph <? 0)); [discriminate|].
  destruct (prepare_character lanczos rotate_bbox rotate_bicubic cfg character) as [ch|];
    [|discriminate].
  destruct (layer_compositor cfg ch _) as [layer|]; [|discriminate].
  destruct (alpha_composite over _ layer) as [canvas|] eqn:Ea; [|discriminate].
  intros H; exists canvas; split; [|exact H].
  apply alpha_composite_size in Ea; rewrite Ea, paste_masked_size.
  destruct (Eff.output_size cfg) as [w h]; apply new_size in En; tauto.
Qed.

Lemma downscale_one (lanczos : image rgba -> Z -> Z -> Z -> Z -> rgba) (cfg : Eff.t)
  (canvas img : image rgba) :
  Eff.internal_scale cfg = of_Z 1 -> downscale lanczos cfg canvas = Some img -> img = canvas.
Proof.
  intros Hs; unfold downscale; cbv zeta; rewrite Hs.
  change (fltb (of_Z 1) (of_Z 1)) with false; cbv iota.
  intros H; injection H as <-; reflexivity.
Qed.

Lemma downscale_two (lanczos : image rgba -> Z -> Z -> Z -> Z -> rgba) (cfg : Eff.t)
  (canvas img : image rgba) (w h : Z) :
  Eff.internal_scale cfg = of_Z 2 -> size canvas = (2 * w, 2 * h) ->
  0 <= w < 2 ^ 52 -> 0 <= h < 2 ^ 52 ->
  downscale lanczos cfg canvas = Some img -> size img = (w, h).
Proof.
  intros Hs Hc Hw Hh; unfold downscale; cbv zeta; rewrite Hs.
  assert (P : 2 ^ 53 = 2 * 2 ^ 52) by reflexivity.
  change (fltb (of_Z 1) (of_Z 2)) with true; cbv iota.
  assert (Ew : width canvas = 2 * w) by exact (f_equal fst Hc).
  assert (Eh : height canvas = 2 * h) by exact (f_equal snd Hc).
  rewrite Ew, Eh.
  rewrite !div_two_of_Z, !int_of_float_of_Z by lia.
  unfold resize; rewrite Ew, Eh.
  destruct ((w =? 2 * w) && (h =? 2 * h)) eqn:E1.
  - apply andb_true_iff in E1 as [E1 E2]; apply Z.eqb_eq in E1, E2.
    intros H; injection H as <-; unfold size, copy; rewrite Ew, Eh; f_equal; lia.
  - destruct ((w <? 1) || (h <? 1)); [discriminate|].
    intros H; injection H as <-; reflexivity.
Qed.

(** C4 (counterexample): only the six offsets are inspected, not the
    sizes.  With every offset an integer and [mask_size = (340.5, 430)],
    [scaled()] keeps [_internal_scale = 1.0] and truncates the mask width
    to [340]. *)
Lemma fractional_size_renders_at_scale_one :
  fst (mask_size fractional_mask_size_config) = VFloat (lit 3405 1) /\
  is_integral (lit 3405 1) = false /\
  option_map Eff.internal_scale (scaled fractional_mask_size_config) = Some (of_Z 1) /\
  option_map Eff.mask_size (scaled fractional_mask_size_config) = Some (340, 430).
Proof. vm_compute; refine (conj eq_refl (conj eq_refl (conj eq_refl eq_refl))). Qed.

(** C4 (amended): [scaled()] renders at [_internal_scale = 2.0] exactly
    when one of the six offsets (mask, portal and character offsets, both
    components) is a non-integral float, and at [1.0] otherwise; sizes are
    not inspected.  For a config with [output_scale = 1.0] and an integer
    [output_size = (w, h)] below [2^52], the effective output size is
    [(2w, 2h)] when supersampling and [(w, h)] otherwise, and every image
    [composite_avatar] returns has size exactly [(w, h)]: at scale 2 the
    canvas is resized to [(int(2w / 2.0), int(2h / 2.0)) = (w, h)], at
    scale 1 it is returned as it is. *)
Theorem scaled_internal_scale_and_output_size
  (lanczos : image rgba -> Z -> Z -> Z -> Z -> rgba) (rotate_bbox : float -> Z -> Z -> Z * Z)
  (rotate_bicubic : image rgba -> float -> Z -> Z -> rgba)
  (shape_alpha : string -> Z -> Z -> Z -> Z -> Z) (portal_pixels : Z -> Z -> Z -> Z -> rgba)
  (paste_blend : rgba -> rgba -> Z -> rgba) (over : rgba -> rgba -> rgba)
  (c : AvatarConfig) (e : Eff.t) (H : scaled c = Some e) :
  exists b, any_subpixel (subpixel_candidates c) = Some b /\
    Eff.internal_scale e = internal_scale_of b /\
    (b = true <-> exists f, In (VFloat f) (subpixel_candidates c) /\ is_integral f = false) /\
    forall w h, output_scale c = VFloat (of_Z 1) -> output_size c = (VInt w, VInt h) ->
      0 <= w < 2 ^ 52 -> 0 <= h < 2 ^ 52 ->
      Eff.output_size e = (if b then (2 * w, 2 * h) else (w, h)) /\
      forall character mask_shape img,
        composite_avatar lanczos rotate_bbox rotate_bicubic shape_alpha portal_pixels
          paste_blend over character c mask_shape = Some img ->
        size img = (w, h).
Proof.
  assert (P : 2 ^ 53 = 2 * 2 ^ 52) by reflexivity.
  pose proof H as H0; unfold scaled in H.
  destruct (any_subpixel (subpixel_candidates c)) as [b|] eqn:Eb; [|discriminate].
  exists b; split; [reflexivity|].
  set (s := mul_float (output_scale c) (internal_scale_of b)) in H.
  destruct (scale_pair (output_size c) s) as [os|] eqn:Eos; [|discriminate].
  destruct (scale_pair (portal_size c) s); [|discriminate].
  destruct (scale_pair (mask_size c) s); [|discriminate].
  destruct (scale_pair (portal_offset c) s); [|discriminate].
  destruct (scale_pair (mask_offset c) s); [|discriminate].
  destruct (scale_pair (character_offset c) s); [|discriminate].
  destruct (scale_pair (character_size c) s); [|discriminate].
  injection H as He; subst e.
  split; [reflexivity|].
  split.
  { split; [intros ->; exact (any_subpixel_true _ Eb)|].
    intros (f & Hin & Hf); destruct b; [reflexivity|].
    rewrite (any_subpixel_false _ Eb f Hin) in Hf; discriminate. }
  intros w h Hsc Hout Hw Hh.
  assert (Hos : os = (if b then (2 * w, 2 * h) else (w, h))).
  { subst s; rewrite Hsc, Hout in Eos; unfold scale_pair, mul_float in Eos.
    cbn [fst snd to_float] in Eos.
    destruct b.
    - change (fmul (of_Z 1) (internal_scale_of true)) with (of_Z 2) in Eos.
      rewrite !mul_two_of_Z, !int_of_float_of_Z in Eos by lia.
      injection Eos as <-; reflexivity.
    - change (fmul (of_Z 1) (internal_scale_of false)) with (of_Z 1) in Eos.
      rewrite !mul_one_of_Z, !int_of_float_of_Z in Eos by lia.
      injection Eos as <-; reflexivity. }
  split; [exact Hos|].
  intros character mask_shape img Hc.
  unfold composite_avatar in Hc; rewrite H0 in Hc.
  destruct (composite_scaled_downscale _ _ _ _ _ _ _ _ _ _ _ Hc) as (canvas & Hcs & Hd).
  cbn [Eff.output_size] in Hcs; rewrite Hos in Hcs.
  destruct b.
  - refine (downscale_two _ _ _ _ w h _ Hcs Hw Hh Hd); reflexivity.
  - assert (Hi : img = canvas) by (refine (downscale_one _ _ _ _ _ Hd); reflexivity).
    rewrite Hi; exact Hcs.
Qed.

Lemma scaled_internal_scale_and_output_size_witness :
  scaled default_config = Some default_scaled /\
  exists b, any_subpixel (subpixel_candidates default_config) = Some b /\
    Eff.internal_scale default_scaled = internal_scale_of b /\
    (b = true <-> exists f, In (VFloat f) (subpixel_candidates default_config)
                            /\ is_integral f = false) /\
    forall w h, output_scale default_config = VFloat (of_Z 1) ->
      output_size default_config = (VInt w, VInt h) ->
      0 <= w < 2 ^ 52 -> 0 <= h < 2 ^ 52 ->
      Eff.output_size default_scaled = (if b then (2 * w, 2 * h) else (w, h)) /\
      forall character mask_shape img,
        composite_avatar (fun _ _ _ _ _ => rgba_zero) (fun _ w h => (w, h))
          (fun _ _ _ _ => rgba_zero) (fun _ _ _ _ _ => 255) (fun _ _ _ _ => rgba_zero)
          (fun a _ _ => a) (fun a _ => a) character default_config mask_shape = Some img ->
        size img = (w, h).
Proof.
  assert (H : scaled default_config = Some default_scaled) by (vm_compute; reflexivity).
  exact (conj H (scaled_internal_scale_and_output_size _ _ _ _ _ _ _ _ _ H)).
Defined.

(** ** Character preparation *)

Lemma rotate_expand_size_spec (rotate_bbox : float -> Z -> Z -> Z * Z)
  (rotate_bicubic : image rgba -> float -> Z -> Z -> rgba) (im : image rgba) (angle : value) :
  size (rotate_expand rotate_bbox rotate_bicubic im angle)
  = rotate_expand_size rotate_bbox angle (width im) (height im).
Proof.
  unfold rotate_expand, rotate_expand_size; cbv zeta.
  destruct (feq_int _ 0); [reflexivity|].
  destruct (feq_int _ 180); [reflexivity|].
  destruct (feq_int _ 90); [reflexivity|].
  destruct (feq_int _ 270); [reflexivity|].
  destruct (rotate_bbox _ _ _); reflexivity.
Qed.

Lemma cover_crop_box_shape (tw th nw nh : Z) (fp : value) (box : Z * Z * Z * Z) :
  cover_crop_box tw th nw nh fp = Some box ->
  exists l t, box = (l, t, l + tw, t + th).
Proof.
  unfold cover_crop_box; destruct (int_of_value _) as [t|]; [|discriminate].
  intros H; injection H as <-; eauto.
Qed.

(** C7 (counterexample): rotating by [90.0] takes PIL's transpose path,
    which swaps width and height: the character prepared for a
    [(898, 1608)] box comes out [1608] wide and [898] high, lower than
    the target height. *)
Lemma rotation_90_swaps_target_box :
  Eff.character_size rotated_90_scaled = (898, 1608) /\
  option_map size
    (prepare_character (fun _ _ _ _ _ => rgba_zero) (fun _ w h => (w, h))
       (fun _ _ _ _ => rgba_zero) rotated_90_scaled (blank 898 1608))
  = Some (1608, 898).
Proof. vm_compute; split; reflexivity. Qed.

(** C7 (amended): the prepared character is cropped to the target box
    [character_size = (tw, th)] and then, if the rotation is nonzero,
    rotated with [expand=True] and not cropped again.  Its size is
    [(tw, th)] when the rotation is zero; otherwise it is the size of the
    rotation of a [(tw, th)] image: [(tw, th)] for an angle congruent to 0
    or 180 modulo 360, [(th, tw)] for 90 or 270 (so one side can be
    smaller than its target), and PIL's bounding box for other angles. *)
Theorem prepare_character_size
  (lanczos : image rgba -> Z -> Z -> Z -> Z -> rgba) (rotate_bbox : float -> Z -> Z -> Z * Z)
  (rotate_bicubic : image rgba -> float -> Z -> Z -> rgba)
  (cfg : Eff.t) (character img : image rgba)
  (H : prepare_character lanczos rotate_bbox rotate_bicubic cfg character = Some img) :
  size img =
  (let '(tw, th) := Eff.character_size cfg in
   if value_is_zero (Eff.character_rotation cfg) then (tw, th)
   else rotate_expand_size rotate_bbox (Eff.character_rotation cfg) tw th).
Proof.
  revert H; unfold prepare_character.
  destruct (Eff.character_size cfg) as [tw th].
  destruct (cover_new_size _ _ _ _) as [[[sc nw] nh]|]; [|discriminate].
  destruct (resize lanczos character (nw, nh)) as [r|]; [|discriminate].
  destruct (cover_crop_box tw th nw nh (Eff.face_position cfg)) as [box|] eqn:Eb;
    [|discriminate].
  destruct (cover_crop_box_shape _ _ _ _ _ _ Eb) as (l & t & ->).
  unfold crop; cbv beta iota.
  destruct ((l + tw <? l) || (t + th <? t)); [discriminate|].
  replace (l + tw - l) with tw by lia; replace (t + th - t) with th by lia.
  destruct (value_is_zero (Eff.character_rotation cfg)); simpl negb; cbv iota;
    intros H; injection H as <-; [reflexivity|].
  rewrite rotate_expand_size_spec; reflexivity.
Qed.

Lemma prepare_character_size_witness :
  exists img,
    prepare_character (fun _ _ _ _ _ => rgba_zero) (fun _ w h => (w, h))
      (fun _ _ _ _ => rgba_zero) rotated_90_scaled (blank 898 1608) = Some img /\
    size img =
    (let '(tw, th) := Eff.character_size rotated_90_scaled in
     if value_is_zero (Eff.character_rotation rotated_90_scaled) then (tw, th)
     else rotate_expand_size (fun _ w h => (w, h))
            (Eff.character_rotation rotated_90_scaled) tw th).
Proof.
  assert (Hs : match prepare_character (fun _ _ _ _ _ => rgba_zero) (fun _ w h => (w, h))
                       (fun _ _ _ _ => rgba_zero) rotated_90_scaled (blank 898 1608)
               with Some _ => true | None => false end = true)
    by (vm_compute; reflexivity).
  destruct (prepare_character (fun _ _ _ _ _ => rgba_zero) (fun _ w h => (w, h))
              (fun _ _ _ _ => rgba_zero) rotated_90_scaled (blank 898 1608))
    as [img|] eqn:E; [|discriminate Hs].
  exists img; split; [reflexivity|].
  exact (prepare_character_size _ _ _ _ _ _ E).
Defined.

(** ** The caller's config *)

(** C9: [composite_avatar] derives its effective config into a new object
    and leaves the caller's object alone: if the reference [l] holds the
    config [c] in a well-formed heap, then after a successful call [l]
    still holds [c], every other existing object is unchanged, and the
    derived config [scaled c] sits at the freshly allocated reference. *)
Theorem composite_avatar_keeps_config
  (lanczos : image rgba -> Z -> Z -> Z -> Z -> rgba) (rotate_bbox : float -> Z -> Z -> Z * Z)
  (rotate_bicubic : image rgba -> float -> Z -> Z -> rgba)
  (shape_alpha : string -> Z -> Z -> Z -> Z -> Z) (portal_pixels : Z -> Z -> Z -> Z -> rgba)
  (paste_blend : rgba -> rgba -> Z -> rgba) (over : rgba -> rgba -> rgba)
  (h : Heap.heap) (l : nat) (c : AvatarConfig) (character : image rgba)
  (mask_shape : string) (h' : Heap.heap) (img : image rgba)
  (Hwf : Heap.wf h) (Hl : Heap.store h l = Some (Heap.OConfig c))
  (Hrun : composite_avatar_heap lanczos rotate_bbox rotate_bicubic shape_alpha portal_pixels
            paste_blend over h (Some l) character mask_shape = Some (h', img)) :
  Heap.store h' l = Some (Heap.OConfig c) /\
  (forall l', l' <> Heap.next h -> Heap.store h' l' = Heap.store h l') /\
  exists e, scaled c = Some e /\ Heap.store h' (Heap.next h) = Some (Heap.OScaled e).
Proof.
  assert (Hlt : (l < Heap.next h)%nat).
  { destruct (Nat.lt_ge_cases l (Heap.next h)) as [Hlt|Hge]; [exact Hlt|].
    rewrite (Hwf l Hge) in Hl; discriminate. }
  revert Hrun; unfold composite_avatar_heap, Heap.read_config; cbv beta iota zeta.
  rewrite Hl.
  destruct (scaled c) as [e|]; [|discriminate].
  unfold Heap.alloc; cbv beta iota zeta.
  destruct (composite_scaled _ _ _ _ _ _ _ e character mask_shape); [|discriminate].
  intros H; injection H as <- <-.
  split; [|split].
  - cbn [Heap.store]; destruct (Nat.eqb_spec l (Heap.next h)); [lia | exact Hl].
  - intros l' Hne; cbn [Heap.store].
    destruct (Nat.eqb_spec l' (Heap.next h)); [contradiction | reflexivity].
  - exists e; split; [reflexivity|].
    cbn [Heap.store]; rewrite Nat.eqb_refl; reflexivity.
Qed.

Lemma composite_avatar_keeps_config_witness :
  exists h' img,
    Heap.wf one_config_heap /\
    Heap.store one_config_heap 0 = Some (Heap.OConfig default_config) /\
    composite_avatar_heap (fun _ _ _ _ _ => rgba_zero) (fun _ w h => (w, h))
      (fun _ _ _ _ => rgba_zero) (fun _ _ _ _ _ => 255) (fun _ _ _ _ => rgba_zero)
      (fun a _ _ => a) (fun a _ => a) one_config_heap (Some 0%nat) (blank 898 1608)
      "mask"%string = Some (h', img) /\
    (Heap.store h' 0 = Some (Heap.OConfig default_config) /\
     (forall l', l' <> Heap.next one_config_heap ->
                 Heap.store h' l' = Heap.store one_config_heap l') /\
     exists e, scaled default_config = Some e /\
               Heap.store h' (Heap.next one_config_heap) = Some (Heap.OScaled e)).
Proof.
  assert (Hwf : Heap.wf one_config_heap)
    by (intros l Hl; destruct l as [|l]; [cbn in Hl; lia | reflexivity]).
  assert (Hl : Heap.store one_config_heap 0 = Some (Heap.OConfig default_config))
    by reflexivity.
  assert (Hs : match composite_avatar_heap (fun _ _ _ _ _ => rgba_zero) (fun _ w h => (w, h))
                       (fun _ _ _ _ => rgba_zero) (fun _ _ _ _ _ => 255)
                       (fun _ _ _ _ => rgba_zero) (fun a _ _ => a) (fun a _ => a)
                       one_config_heap (Some 0%nat) (blank 898 1608) "mask"%string
               with Some _ => true | None => false end = true)
    by (vm_compute; reflexivity).
  destruct (composite_avatar_heap (fun _ _ _ _ _ => rgba_zero) (fun _ w h => (w, h))
              (fun _ _ _ _ => rgba_zero) (fun _ _ _ _ _ => 255) (fun _ _ _ _ => rgba_zero)
              (fun a _ _ => a) (fun a _ => a) one_config_heap (Some 0%nat) (blank 898 1608)
              "mask"%string) as [[h' img]|] eqn:E; [|discriminate Hs].
  exists h', img.
  exact (conj Hwf (conj Hl (conj eq_refl
           (composite_avatar_keeps_config _ _ _ _ _ _ _ _ _ _ _ _ _ _ Hwf Hl E)))).
Defined.

(** ** Extra: [hex_to_rgb] *)

Lemma lstrip_app (c : ascii) (s t : string) :
  PyStr.lstrip c s <> EmptyString ->
  PyStr.lstrip c (s ++ t) = (PyStr.lstrip c s ++ t)%string.
Proof.
  induction s as [|a s IH]; simpl; [congruence|].
  destruct (Ascii.eqb a c); [exact IH | reflexivity].
Qed.

Lemma substring_app_l (n m : nat) (u t : string) :
  (n + m <= String.length u)%nat -> substring n m (u ++ t) = substring n m u.
Proof.
  revert n m; induction u as [|a u IH]; intros n m H; simpl in H.
  - assert (n = 0%nat /\ m = 0%nat) as [-> ->] by lia; destruct t; reflexivity.
  - destruct n as [|n]; simpl.
    + destruct m as [|m]; [reflexivity|].
      f_equal; apply (IH 0%nat m); simpl; lia.
    + apply IH; lia.
Qed.

Lemma substring_past_end (n m : nat) (u : string) :
  (String.length u <= n)%nat -> substring n m u = EmptyString.
Proof.
  revert n; induction u as [|a u IH]; intros n H.
  - destruct n, m; reflexivity.
  - destruct n as [|n]; simpl in H; [lia|]; simpl; apply IH; lia.
Qed.

Lemma lstrip_length (c : ascii) (s : string) :
  String.length (PyStr.lstrip c s) <> 0%nat -> PyStr.lstrip c s <> EmptyString.
Proof. destruct (PyStr.lstrip c s); simpl; congruence. Qed.

(** X1: [hex_to_rgb] skips any number of leading ['#'] and reads only the
    first six characters after them: appending text to a colour with at
    least six characters after its ['#']s does not change the result. *)
Theorem hex_to_rgb_reads_six_chars (s t : string)
  (Hs : (6 <= String.length (PyStr.lstrip "#"%char s))%nat) :
  hex_to_rgb (String "#"%char (s ++ t)) = hex_to_rgb s /\ hex_to_rgb (s ++ t) = hex_to_rgb s.
Proof.
  assert (E : hex_to_rgb (s ++ t) = hex_to_rgb s).
  { unfold hex_to_rgb, PyStr.slice.
    rewrite lstrip_app by (apply lstrip_length; lia).
    rewrite !substring_app_l by lia; reflexivity. }
  split; [|exact E].
  rewrite <- E; reflexivity.
Qed.

Lemma hex_to_rgb_reads_six_chars_witness :
  (6 <= String.length (PyStr.lstrip "#"%char "#CE782D"))%nat /\
  hex_to_rgb (String "#"%char ("#CE782D" ++ "FF")) = hex_to_rgb "#CE782D" /\
  hex_to_rgb ("#CE782D" ++ "FF") = hex_to_rgb "#CE782D".
Proof.
  split; [simpl; lia|].
  exact (hex_to_rgb_reads_six_chars "#CE782D" "FF" ltac:(simpl; lia)).
Defined.

(** X2: a colour with at most four characters after its leading ['#']s,
    such as the CSS shorthand [#FFF], is rejected: the slice [4:6] is
    empty and [int('', 16)] raises [ValueError]. *)
Theorem hex_to_rgb_short_fails (s : string)
  (Hs : (String.length (PyStr.lstrip "#"%char s) <= 4)%nat) :
  hex_to_rgb s = None.
Proof.
  unfold hex_to_rgb, PyStr.slice.
  rewrite (substring_past_end 4 2 (PyStr.lstrip "#"%char s) Hs).
  change (PyStr.int16 EmptyString) with (@None Z).
  destruct (PyStr.int16 (substring 0 2 (PyStr.lstrip "#"%char s)));
    destruct (PyStr.int16 (substring 2 2 (PyStr.lstrip "#"%char s))); reflexivity.
Qed.

Lemma hex_to_rgb_short_fails_witness :
  (String.length (PyStr.lstrip "#"%char "#FFF") <= 4)%nat /\ hex_to_rgb "#FFF" = None.
Proof. split; [simpl; lia | exact (hex_to_rgb_short_fails "#FFF" ltac:(simpl; lia))]. Defined.

(** ** Extra: [create_gradient_image] *)

(** X4: the gradient is constant along each diagonal running from top-left
    to bottom-right: pixels [(x, y)] and [(x', y')] with
    [x - y = x' - y'] have the same colour. *)
Theorem gradient_constant_on_diagonals (g : PortalGradient) (W H : Z) (img : image rgba)
  (Hi : create_gradient_image (W, H) g = Some img) (x y x' y' : Z) (Hd : x - y = x' - y') :
  pixel img x y = pixel img x' y'.
Proof.
  revert Hi; unfold create_gradient_image.
  destruct (Img.new (W, H) (RGBA 0 0 0 255)); [|discriminate].
  destruct (hex_to_rgb (start_color g)) as [[[sr sg] sb]|]; [|discriminate].
  destruct (hex_to_rgb (end_color g)) as [[[er eg] eb]|]; [|discriminate].
  intros Hi; injection Hi as <-; cbn [pixel].
  unfold gradient_t, gradient_t_num.
  replace (W - x + y) with (W - x' + y') by lia; reflexivity.
Qed.

Lemma gradient_constant_on_diagonals_witness :
  exists img, create_gradient_image (10, 10) Presets.orange = Some img /\
    (3 - 1 = 8 - 6) /\ pixel img 3 1 = pixel img 8 6.
Proof.
  destruct (create_gradient_image (10, 10) Presets.orange) as [img|] eqn:E;
    [|discriminate E].
  exists img; split; [reflexivity|]; split; [lia|].
  exact (gradient_constant_on_diagonals Presets.orange 10 10 img E 3 1 8 6 ltac:(lia)).
Defined.

(** X5: the five preset gradients have valid colours, so each of them
    renders at every non-negative size. *)
Theorem presets_render_at_every_size (g : PortalGradient) (Hg : In g Presets.all)
  (W H : Z) (HW : 0 <= W) (HH : 0 <= H) :
  exists img, create_gradient_image (W, H) g = Some img /\ size img = (W, H).
Proof.
  assert (Hc : hex_to_rgb (start_color g) <> None /\ hex_to_rgb (end_color g) <> None).
  { simpl in Hg; repeat destruct Hg as [<-|Hg]; try contradiction;
      split; vm_compute; discriminate. }
  unfold create_gradient_image, Img.new.
  replace ((0 <=? W) && (0 <=? H)) with true by (symmetry; apply andb_true_iff; lia).
  destruct (hex_to_rgb (start_color g)) as [[[sr sg] sb]|]; [|tauto].
  destruct (hex_to_rgb (end_color g)) as [[[er eg] eb]|]; [|tauto].
  eexists; split; reflexivity.
Qed.

Lemma presets_render_at_every_size_witness :
  In Presets.blue Presets.all /\
  exists img, create_gradient_image (340, 376) Presets.blue = Some img /\ size img = (340, 376).
Proof.
  split; [simpl; tauto|].
  exact (presets_render_at_every_size Presets.blue ltac:(simpl; tauto) 340 376
           ltac:(lia) ltac:(lia)).
Defined.

(** ** Extra: [scaled] on integer geometry *)

Lemma int_pair_fits_spec (k : Z) (p : value * value) :
  int_pair_fits k p = true ->
  exists x y, p = (VInt x, VInt y) /\ Z.abs x < 2 ^ 53 /\ Z.abs y < 2 ^ 53 /\
              Z.abs (k * x) < 2 ^ 53 /\ Z.abs (k * y) < 2 ^ 53.
Proof.
  unfold int_pair_fits, vint_pair, small_int.
  destruct p as [[x|] [y|]]; try discriminate.
  intros H; repeat (apply andb_true_iff in H as [H ?]); apply Z.ltb_lt in H.
  exists x, y; repeat split; try assumption; apply Z.ltb_lt; assumption.
Qed.

Lemma scale_pair_int (k x y : Z) :
  Z.abs k < 2 ^ 53 -> Z.abs x < 2 ^ 53 -> Z.abs y < 2 ^ 53 ->
  Z.abs (k * x) < 2 ^ 53 -> Z.abs (k * y) < 2 ^ 53 ->
  scale_pair (VInt x, VInt y) (of_Z k) = Some (k * x, k * y).
Proof.
  intros Hk Hx Hy Hkx Hky; unfold scale_pair, mul_float; cbn [fst snd to_float].
  rewrite !int_of_float_mul_of_Z by (rewrite ?(Z.mul_comm _ k); assumption).
  rewrite (Z.mul_comm x k), (Z.mul_comm y k); reflexivity.
Qed.

Lemma output_scale_int (v : value) (k : Z) :
  0 <= k < 2 ^ 53 -> v = VInt k \/ v = VFloat (of_Z k) ->
  mul_float v (internal_scale_of false) = of_Z k.
Proof.
  intros Hk Hv; unfold mul_float, internal_scale_of.
  destruct Hv as [-> | ->]; apply mul_one_of_Z; exact Hk.
Qed.

Lemma scaled_int_geometry (c : AvatarConfig) (k : Z) :
  0 <= k < 2 ^ 53 -> output_scale c = VInt k \/ output_scale c = VFloat (of_Z k) ->
  int_geometry k c = true ->
  exists e, scaled c = Some e /\ Eff.internal_scale e = of_Z 1 /\
    Eff.output_scale e = VFloat (of_Z 1) /\
    Eff.character_rotation e = character_rotation c /\ Eff.face_position e = face_position c /\
    map Some (eff_sizes e ++ eff_offsets e)
    = map (fun p => option_map (scale_int k) (vint_pair p)) (config_sizes c ++ config_offsets c).
Proof.
  intros Hk Hs Hg.
  destruct c as [os ps ms po mo co cs rot fp osc isc]; cbn [output_scale] in Hs.
  unfold int_geometry, config_sizes, config_offsets in Hg.
  cbn [app forallb output_size portal_size mask_size character_size portal_offset
       mask_offset character_offset] in Hg.
  rewrite andb_true_r in Hg.
  repeat (apply andb_true_iff in Hg as [?H Hg]).
  repeat match goal with
         | H : int_pair_fits k ?p = true |- _ =>
             let x := fresh "x" in let y := fresh "y" in
             apply int_pair_fits_spec in H as (x & y & -> & ? & ? & ? & ?)
         end.
  assert (Hk' : Z.abs k < 2 ^ 53) by (clear - Hk; lia).
  unfold scaled; cbn [subpixel_candidates any_subpixel fst snd mask_offset portal_offset
                       character_offset output_scale].
  rewrite (output_scale_int osc k Hk Hs).
  cbn [output_size portal_size mask_size character_size].
  rewrite !scale_pair_int by assumption.
  eexists; split; [reflexivity|].
  repeat split; reflexivity.
Qed.

Lemma composite_avatar_int_size
  (lanczos : image rgba -> Z -> Z -> Z -> Z -> rgba) (rotate_bbox : float -> Z -> Z -> Z * Z)
  (rotate_bicubic : image rgba -> float -> Z -> Z -> rgba)
  (shape_alpha : string -> Z -> Z -> Z -> Z -> Z) (portal_pixels : Z -> Z -> Z -> Z -> rgba)
  (paste_blend : rgba -> rgba -> Z -> rgba) (over : rgba -> rgba -> rgba)
  (c : AvatarConfig) (k : Z) :
  0 <= k < 2 ^ 53 -> output_scale c = VInt k \/ output_scale c = VFloat (of_Z k) ->
  int_geometry k c = true ->
  forall character mask_shape img,
    composite_avatar lanczos rotate_bbox rotate_bicubic shape_alpha portal_pixels
      paste_blend over character c mask_shape = Some img ->
    option_map (scale_int k) (vint_pair (output_size c)) = Some (size img).
Proof.
  intros Hk Hs Hg character mask_shape img H.
  destruct (scaled_int_geometry c k Hk Hs Hg) as (e & He & Hi & _ & _ & _ & Hm).
  unfold composite_avatar in H; rewrite He in H.
  destruct (composite_scaled_downscale _ _ _ _ _ _ _ _ _ _ _ H) as (canvas & Hcs & Hd).
  assert (Himg : img = canvas) by exact (downscale_one _ _ _ _ Hi Hd).
  subst img; rewrite Hcs.
  pose proof (f_equal (@hd_error _) Hm) as H1; cbn in H1.
  injection H1 as H1; symmetry; exact H1.
Qed.

(** X6: for an integral [output_scale] [k] (an int, or a float equal to
    one) and a config whose sizes and offsets are Python ints, [scaled()]
    renders at [_internal_scale = 1.0] and multiplies every size and
    offset by [k] exactly; rotation and face position are copied and the
    new [output_scale] is [1.0]. *)
Theorem scaled_integer_config_multiplies (c : AvatarConfig) (k : Z)
  (Hk : 0 <= k < 2 ^ 53) (Hs : output_scale c = VInt k \/ output_scale c = VFloat (of_Z k))
  (Hg : int_geometry k c = true) :
  exists e, scaled c = Some e /\ Eff.internal_scale e = of_Z 1 /\
    Eff.output_scale e = VFloat (of_Z 1) /\
    Eff.character_rotation e = character_rotation c /\ Eff.face_position e = face_position c /\
    map Some (eff_sizes e ++ eff_offsets e)
    = map (fun p => option_map (scale_int k) (vint_pair p)) (config_sizes c ++ config_offsets c).
Proof. exact (scaled_int_geometry c k Hk Hs Hg). Qed.

Lemma scaled_integer_config_multiplies_witness :
  (0 <= 2 < 2 ^ 53 /\ int_geometry 2 integer_scale_2_config = true) /\
  exists e, scaled integer_scale_2_config = Some e /\ Eff.internal_scale e = of_Z 1 /\
    Eff.output_scale e = VFloat (of_Z 1) /\
    Eff.character_rotation e = character_rotation integer_scale_2_config /\
    Eff.face_position e = face_position integer_scale_2_config /\
    map Some (eff_sizes e ++ eff_offsets e)
    = map (fun p => option_map (scale_int 2) (vint_pair p))
        (config_sizes integer_scale_2_config ++ config_offsets integer_scale_2_config).
Proof.
  split; [split; [lia | vm_compute; reflexivity]|].
  exact (scaled_integer_config_multiplies integer_scale_2_config 2 ltac:(lia)
           (or_intror eq_refl) ltac:(vm_compute; reflexivity)).
Defined.

(** X7: with an integral [output_scale] [k] and integer sizes and offsets,
    every image [composite_avatar] returns has size [k] times
    [output_size]: nothing is supersampled or resized at the end. *)
Theorem composite_avatar_integer_scale_size
  (lanczos : image rgba -> Z -> Z -> Z -> Z -> rgba) (rotate_bbox : float -> Z -> Z -> Z * Z)
  (rotate_bicubic : image rgba -> float -> Z -> Z -> rgba)
  (shape_alpha : string -> Z -> Z -> Z -> Z -> Z) (portal_pixels : Z -> Z -> Z -> Z -> rgba)
  (paste_blend : rgba -> rgba -> Z -> rgba) (over : rgba -> rgba -> rgba)
  (c : AvatarConfig) (k : Z)
  (Hk : 0 <= k < 2 ^ 53) (Hs : output_scale c = VInt k \/ output_scale c = VFloat (of_Z k))
  (Hg : int_geometry k c = true) :
  forall character mask_shape img,
    composite_avatar lanczos rotate_bbox rotate_bicubic shape_alpha portal_pixels
      paste_blend over character c mask_shape = Some img ->
    option_map (scale_int k) (vint_pair (output_size c)) = Some (size img).
Proof. exact (composite_avatar_int_size _ _ _ _ _ _ _ c k Hk Hs Hg). Qed.

Lemma composite_avatar_integer_scale_size_witness :
  (0 <= 2 < 2 ^ 53 /\ int_geometry 2 integer_scale_2_config = true) /\
  forall character mask_shape img,
    composite_avatar (fun _ _ _ _ _ => rgba_zero) (fun _ w h => (w, h))
      (fun _ _ _ _ => rgba_zero) (fun _ _ _ _ _ => 255) (fun _ _ _ _ => rgba_zero)
      (fun a _ _ => a) (fun a _ => a) character integer_scale_2_config mask_shape = Some img ->
    option_map (scale_int 2) (vint_pair (output_size integer_scale_2_config)) = Some (size img).
Proof.
  split; [split; [lia | vm_compute; reflexivity]|].
  exact (composite_avatar_integer_scale_size _ _ _ _ _ _ _ integer_scale_2_config 2
           ltac:(lia) (or_intror eq_refl) ltac:(vm_compute; reflexivity)).
Defined.

(** ** Extra: the config of [ui.generate_avatar] *)

Lemma generate_avatar_config_fixed (character_scale : float) (character_rotation : value)
  (cx cy mx my px py : value) (face_position : value) (c : AvatarConfig) :
  generate_avatar_config character_scale character_rotation cx cy mx my px py face_position
    = Some c ->
  output_scale c = VFloat (of_Z 1) /\ output_size c = (VInt 340, VInt 341).
Proof.
  unfold generate_avatar_config.
  destruct (int_of_float (fmul (of_Z 408) character_scale)); [|discriminate].
  destruct (int_of_float (fmul (of_Z 731) character_scale)); [|discriminate].
  destruct (int_of_value px); [|discriminate]; destruct (int_of_value py); [|discriminate].
  destruct (int_of_value mx); [|discriminate]; destruct (int_of_value my); [|discriminate].
  destruct (int_of_value cx); [|discriminate]; destruct (int_of_value cy); [|discriminate].
  intros H; injection H as <-; split; reflexivity.
Qed.

(** X8: the UI passes every offset through [int()], so the config it
    builds never triggers supersampling: [scaled()] keeps
    [_internal_scale = 1.0] and [output_size = (340, 341)], and every
    avatar it renders is 340 x 341, whatever the sliders say (as long as
    the character size and offsets are below [2^53]). *)
Theorem ui_config_never_supersamples (character_scale : float) (character_rotation : value)
  (cx cy mx my px py : value) (face_position : value) (c : AvatarConfig)
  (Hc : generate_avatar_config character_scale character_rotation cx cy mx my px py
          face_position = Some c)
  (Hg : int_geometry 1 c = true) :
  (exists e, scaled c = Some e /\ Eff.internal_scale e = of_Z 1 /\
             Eff.output_size e = (340, 341)) /\
  forall lanczos rotate_bbox rotate_bicubic shape_alpha portal_pixels paste_blend over
         character mask_shape img,
    composite_avatar lanczos rotate_bbox rotate_bicubic shape_alpha portal_pixels
      paste_blend over character c mask_shape = Some img ->
    size img = (340, 341).
Proof.
  destruct (generate_avatar_config_fixed _ _ _ _ _ _ _ _ _ c Hc) as [Hs Ho].
  split.
  - destruct (scaled_int_geometry c 1 ltac:(lia) (or_intror Hs) Hg)
      as (e & He & Hi & _ & _ & _ & Hm).
    exists e; split; [exact He|]; split; [exact Hi|].
    pose proof (f_equal (@hd_error _) Hm) as H1; cbn in H1; rewrite Ho in H1.
    injection H1 as H1; exact H1.
  - intros lanczos rotate_bbox rotate_bicubic shape_alpha portal_pixels paste_blend over
      character mask_shape img H.
    pose proof (composite_avatar_int_size _ _ _ _ _ _ _ c 1 ltac:(lia) (or_intror Hs) Hg
                  character mask_shape img H) as H1.
    rewrite Ho in H1; unfold size, scale_int in *; simpl in H1; congruence.
Qed.

(** The UI's initial slider values: scale [1.1], rotation [3.0], offsets
    [(-70, -40)], [(0, -48)] and [(0, 38)], face position [0.0]. *)
Lemma ui_config_never_supersamples_witness :
  exists c,
    generate_avatar_config (lit 11 1) (VFloat (of_Z 3)) (VInt (-70)) (VInt (-40))
      (VInt 0) (VInt (-48)) (VInt 0) (VInt 38) (VFloat (of_Z 0)) = Some c /\
    int_geometry 1 c = true /\
    exists e, scaled c = Some e /\ Eff.internal_scale e = of_Z 1 /\
              Eff.output_size e = (340, 341).
Proof.
  assert (Hs : match generate_avatar_config (lit 11 1) (VFloat (of_Z 3)) (VInt (-70))
                       (VInt (-40)) (VInt 0) (VInt (-48)) (VInt 0) (VInt 38)
                       (VFloat (of_Z 0)) with Some _ => true | None => false end = true)
    by (vm_compute; reflexivity).
  destruct (generate_avatar_config (lit 11 1) (VFloat (of_Z 3)) (VInt (-70)) (VInt (-40))
              (VInt 0) (VInt (-48)) (VInt 0) (VInt 38) (VFloat (of_Z 0))) as [c|] eqn:E;
    [|discriminate Hs].
  assert (Hg : int_geometry 1 c = true)
    by (unfold generate_avatar_config in E; vm_compute in E; injection E as <-;
        vm_compute; reflexivity).
  exists c; split; [reflexivity|]; split; [exact Hg|].
  exact (proj1 (ui_config_never_supersamples _ _ _ _ _ _ _ _ _ c E Hg)).
Defined.

(** ** Extra: the pixels of the character layer *)

(** X9: step 4 of [composite_avatar] fails exactly when [output_size] has
    a negative component (the final [crop] raises).  Otherwise the layer
    has size [output_size] and, at each of its pixels, the colour of the
    character placed at [character_offset] (transparent black outside the
    character) with alpha [char_alpha * mask / 255], the mask placed at
    [mask_offset] (0 outside it): the expansion of the working canvas
    does not show in the result. *)
Theorem layer_compositor_pixels (cfg : Eff.t) (character : image rgba) (mask : image Z) :
  match layer_compositor cfg character mask with
  | None => fst (Eff.output_size cfg) < 0 \/ snd (Eff.output_size cfg) < 0
  | Some layer =>
      0 <= fst (Eff.output_size cfg) /\ 0 <= snd (Eff.output_size cfg) /\
      size layer = Eff.output_size cfg /\
      forall x y, 0 <= x < fst (Eff.output_size cfg) -> 0 <= y < snd (Eff.output_size cfg) ->
        let cx := x - fst (Eff.character_offset cfg) in
        let cy := y - snd (Eff.character_offset cfg) in
        let mx := x - fst (Eff.mask_offset cfg) in
        let my := y - snd (Eff.mask_offset cfg) in
        let p := if in_bounds character cx cy then pixel character cx cy else rgba_zero in
        let m := if in_bounds mask mx my then pixel mask mx my else 0 in
        pixel layer x y = RGBA (red p) (green p) (blue p) (alpha p * m / 255)
  end.
Proof.
  pose proof (expand_left_nonneg cfg) as Hel; pose proof (expand_top_nonneg cfg) as Het.
  unfold layer_compositor, place_mask, place_character, expanded_size.
  set (el := expand_left cfg) in *; set (et := expand_top cfg) in *.
  destruct (Eff.output_size cfg) as [ow oh]; cbn [fst snd].
  destruct (Eff.character_offset cfg) as [cox coy]; destruct (Eff.mask_offset cfg) as [mox moy].
  cbn [fst snd].
  unfold Img.new.
  destruct ((0 <=? ow + el * 2 + 200) && (0 <=? oh + et * 2 + 200)) eqn:Ee.
  2:{ apply andb_false_iff in Ee as [E|E]; apply Z.leb_gt in E; lia. }
  apply andb_true_iff in Ee as [Ew Eh]; apply Z.leb_le in Ew, Eh.
  unfold putalpha, copy, multiply, getchannel_A, paste; cbn [width height pixel].
  rewrite !Z.min_id, !Z.eqb_refl; cbn [andb].
  unfold crop.
  destruct ((el + ow <? el) || (et + oh <? et)) eqn:Ec.
  { apply orb_true_iff in Ec as [E|E]; apply Z.ltb_lt in E; lia. }
  apply orb_false_iff in Ec as [E1 E2]; apply Z.ltb_ge in E1, E2.
  split; [lia|]; split; [lia|]; split.
  { unfold size; cbn [width height]; f_equal; lia. }
  intros x y Hx Hy; cbn [pixel].
  match goal with
  | |- context [in_bounds ?im (el + x) (et + y)] =>
      replace (in_bounds im (el + x) (et + y)) with true
        by (symmetry; unfold in_bounds; cbn [width height];
            repeat (apply andb_true_iff; split);
            first [apply Z.leb_le | apply Z.ltb_lt]; lia)
  end.
  replace (el + x - (el + cox)) with (x - cox) by lia.
  replace (et + y - (et + coy)) with (y - coy) by lia.
  replace (el + x - (el + mox)) with (x - mox) by lia.
  replace (et + y - (et + moy)) with (y - moy) by lia.
  reflexivity.
Qed.

(** ** Extra: full turns *)

Lemma fmod360_full_turns (k : Z) :
  Z.abs (360 * k) < 2 ^ 53 -> fmod360 (of_Z (360 * k)) = S754_zero false.
Proof.
  intros Hk.
  destruct (Z.eq_dec (360 * k) 0) as [E|E]; [rewrite E; reflexivity|].
  assert (Hs : exists s p, 360 * k = zsign s p)
    by (destruct (360 * k) as [|p|p]; [congruence | exists false, p | exists true, p]; reflexivity).
  destruct Hs as (s & p & Hz).
  assert (Hp : Zpos p < 2 ^ 53) by (rewrite Hz in Hk; destruct s; simpl in Hk; lia).
  pose proof (digits_le p 53 ltac:(lia) Hp) as Hd.
  destruct (of_Z_signed s p Hd) as (m & Hm & Hv).
  rewrite Hz, Hm; unfold fmod360.
  set (j := 53 - Zpos (digits2_pos p)) in Hv.
  assert (HM : (if s then Zneg m else Zpos m) = 360 * k * 2 ^ j)
    by (rewrite Hz; destruct s; simpl zsign; [change (Zneg m) with (- Zpos m); change (Zneg p) with (- Zpos p)|]; rewrite Hv; ring).
  rewrite HM.
  destruct (0 <=? Zpos (digits2_pos p) - 53) eqn:E0.
  - apply Z.leb_le in E0.
    replace j with 0 by (subst j; lia).
    replace (Zpos (digits2_pos p) - 53) with 0 by lia.
    rewrite Z.mul_1_r, Z.shiftl_0_r.
    rewrite Z.mul_comm, Z_mod_mult; reflexivity.
  - replace (- (Zpos (digits2_pos p) - 53)) with j by (subst j; lia).
    replace (360 * k * 2 ^ j) with (k * (360 * 2 ^ j)) by ring.
    rewrite Z_mod_mult; reflexivity.
Qed.

(** X10: rotating by a whole number of turns ([360 * k] degrees with
    [|360 * k| < 2^53], as an int or as a float) returns the image
    unchanged: [angle % 360.0] is then exactly [0.0], which takes PIL's
    no-rotation path. *)
Theorem rotate_expand_full_turns (rotate_bbox : float -> Z -> Z -> Z * Z)
  (rotate_bicubic : image rgba -> float -> Z -> Z -> rgba) (im : image rgba) (k : Z)
  (Hk : Z.abs (360 * k) < 2 ^ 53) :
  rotate_expand rotate_bbox rotate_bicubic im (VInt (360 * k)) = im /\
  rotate_expand rotate_bbox rotate_bicubic im (VFloat (of_Z (360 * k))) = im.
Proof.
  unfold rotate_expand; cbn [to_float]; rewrite (fmod360_full_turns k Hk).
  split; reflexivity.
Qed.

Lemma rotate_expand_full_turns_witness :
  Z.abs (360 * (-2)) < 2 ^ 53 /\
  rotate_expand (fun _ w h => (w, h)) (fun _ _ _ _ => rgba_zero) (blank 3 5) (VInt (360 * (-2)))
    = blank 3 5 /\
  rotate_expand (fun _ w h => (w, h)) (fun _ _ _ _ => rgba_zero) (blank 3 5)
    (VFloat (of_Z (360 * (-2)))) = blank 3 5.
Proof.
  split; [lia|].
  exact (rotate_expand_full_turns (fun _ w h => (w, h)) (fun _ _ _ _ => rgba_zero)
           (blank 3 5) (-2) ltac:(lia)).
Defined.

(** ** Extra: shape masks and portal fills *)

Section FilesProperties.
Variable has_cairosvg : bool.
Variable read_text : string -> option string.
Variable svg2png : string -> Z -> Z -> option (image rgba).
Variable open_image : string -> option Files.opened.
Variable fetch_image : string -> option Files.opened.
Variable convert_L_other : string -> image rgba -> Z -> Z -> Z.
Variable convert_RGB_other : string -> image rgba -> Z -> Z -> rgba.
Variable lanczos_L : image Z -> Z -> Z -> Z -> Z -> Z.
Variable lanczos : image rgba -> Z -> Z -> Z -> Z -> rgba.

Lemma resize_L_size (im r : image Z) (sz : Z * Z) :
  Files.resize_L lanczos_L im sz = Some r -> size r = sz.
Proof.
  destruct sz as [w h]; unfold Files.resize_L.
  destruct ((w =? width im) && (h =? height im)) eqn:E.
  - apply andb_true_iff in E as [E1 E2]; apply Z.eqb_eq in E1, E2.
    intros H; injection H as <-; unfold size, copy; congruence.
  - destruct ((w <? 1) || (h <? 1)); [discriminate|].
    intros H; injection H as <-; reflexivity.
Qed.

Lemma resize_size (im r : image rgba) (sz : Z * Z) :
  resize lanczos im sz = Some r -> size r = sz.
Proof.
  destruct sz as [w h]; unfold resize.
  destruct ((w =? width im) && (h =? height im)) eqn:E.
  - apply andb_true_iff in E as [E1 E2]; apply Z.eqb_eq in E1, E2.
    intros H; injection H as <-; unfold size, copy; congruence.
  - destruct ((w <? 1) || (h <? 1)); [discriminate|].
    intros H; injection H as <-; reflexivity.
Qed.

Lemma size_eqb_true (a b : Z * Z) : Files.size_eqb a b = true -> a = b.
Proof.
  destruct a, b; unfold Files.size_eqb; cbn [fst snd].
  intros H; apply andb_true_iff in H as [H1 H2]; apply Z.eqb_eq in H1, H2; congruence.
Qed.

(** X11: on the PNG path (a [shape_path] not ending in [.svg]) the mask
    [load_shape_mask] returns always has the requested size: a mask of
    another size is resized, and the resize fails (rather than returning
    another size) when a requested dimension is below 1. *)
Theorem load_shape_mask_png_size (shape_path : string) (sz : Z * Z) (mask : image Z)
  (Hp : Files.endswith ".svg" shape_path = false)
  (Hm : Files.load_shape_mask has_cairosvg read_text svg2png open_image convert_L_other
          lanczos_L shape_path sz = Some mask) :
  size mask = sz.
Proof.
  revert Hm; unfold Files.load_shape_mask; rewrite Hp.
  destruct (open_image shape_path) as [o|]; [|discriminate].
  set (m := match o with
            | Files.OpenedRGBA i => getchannel_A i
            | Files.OpenedL i => i
            | Files.OpenedOther md i => mkImage (width i) (height i) (convert_L_other md i)
            end).
  destruct (Files.size_eqb (size m) sz) eqn:E; cbn [negb].
  - intros H; injection H as <-; exact (size_eqb_true _ _ E).
  - apply resize_L_size.
Qed.

Lemma fill_image_size (sz : Z * Z) (f : Files.fill) (r : image rgba) :
  Files.fill_image open_image fetch_image convert_RGB_other lanczos sz f = Some r ->
  size r = sz.
Proof.
  unfold Files.fill_image; destruct f as [g|path|o].
  - destruct sz as [w h]; intros H; revert H; unfold create_gradient_image.
    destruct (Img.new (w, h) (RGBA 0 0 0 255)); [|discriminate].
    destruct (hex_to_rgb (start_color g)) as [[[? ?] ?]|]; [|discriminate].
    destruct (hex_to_rgb (end_color g)) as [[[? ?] ?]|]; [|discriminate].
    intros H; injection H as <-; reflexivity.
  - destruct (Files.open_source open_image fetch_image path); [apply resize_size | discriminate].
  - apply resize_size.
Qed.

(** X13: [create_portal_with_fill] returns, when it succeeds, an image of the
    requested size whose colour at each pixel is the fill's and whose
    alpha is the shape mask's: the fill (gradient, or file or image
    converted to RGB and resized) shows exactly through the mask. *)
Theorem create_portal_with_fill_pixels (shape_path : string) (sz : Z * Z) (f : Files.fill)
  (r : image rgba)
  (Hr : Files.create_portal_with_fill has_cairosvg read_text svg2png open_image fetch_image
          convert_L_other convert_RGB_other lanczos_L lanczos shape_path sz f = Some r) :
  exists mask fill_img,
    Files.load_shape_mask has_cairosvg read_text svg2png open_image convert_L_other lanczos_L
      shape_path sz = Some mask /\
    Files.fill_image open_image fetch_image convert_RGB_other lanczos sz f = Some fill_img /\
    size r = sz /\ size mask = sz /\
    forall x y, 0 <= x < fst sz -> 0 <= y < snd sz ->
      pixel r x y = RGBA (red (pixel fill_img x y)) (green (pixel fill_img x y))
                         (blue (pixel fill_img x y)) (pixel mask x y).
Proof.
  revert Hr; unfold Files.create_portal_with_fill.
  destruct (Files.load_shape_mask _ _ _ _ _ _ shape_path sz) as [mask|]; [|discriminate].
  destruct (Files.fill_image _ _ _ _ sz f) as [fill_img|] eqn:Ef; [|discriminate].
  pose proof (fill_image_size _ _ _ Ef) as Hfs.
  destruct sz as [w h]; unfold Img.new.
  destruct ((0 <=? w) && (0 <=? h)); [|discriminate].
  unfold putalpha, paste; cbn [width height pixel].
  destruct ((width mask =? w) && (height mask =? h)) eqn:Em; [|discriminate].
  apply andb_true_iff in Em as [Em1 Em2]; apply Z.eqb_eq in Em1, Em2.
  intros H; injection H as <-.
  exists mask, fill_img; split; [reflexivity|]; split; [reflexivity|].
  split; [reflexivity|]; split; [unfold size; congruence|].
  intros x y Hx Hy; cbn [pixel fst snd] in *.
  unfold size in Hfs; injection Hfs as Hw Hh.
  replace (in_bounds fill_img (x - 0) (y - 0)) with true
    by (symmetry; unfold in_bounds; rewrite Hw, Hh; repeat (apply andb_true_iff; split);
        first [apply Z.leb_le | apply Z.ltb_lt]; lia).
  rewrite !Z.sub_0_r; reflexivity.
Qed.

End FilesProperties.

Lemma load_shape_mask_png_size_witness :
  Files.endswith ".svg" "portal.png" = false /\
  exists mask,
    Files.load_shape_mask false (fun _ => None) (fun _ _ _ => None)
      (fun _ => Some (Files.OpenedRGBA (blank 5 7))) (fun _ _ _ _ => 0)
      (fun _ _ _ _ _ => 255) "portal.png" (340, 376) = Some mask /\
    size mask = (340, 376).
Proof.
  split; [reflexivity|].
  assert (Hs : match Files.load_shape_mask false (fun _ => None) (fun _ _ _ => None)
                       (fun _ => Some (Files.OpenedRGBA (blank 5 7))) (fun _ _ _ _ => 0)
                       (fun _ _ _ _ _ => 255) "portal.png" (340, 376)
               with Some _ => true | None => false end = true) by (vm_compute; reflexivity).
  destruct (Files.load_shape_mask false (fun _ => None) (fun _ _ _ => None)
              (fun _ => Some (Files.OpenedRGBA (blank 5 7))) (fun _ _ _ _ => 0)
              (fun _ _ _ _ _ => 255) "portal.png" (340, 376)) as [mask|] eqn:E;
    [|discriminate Hs].
  exists mask; split; [reflexivity|].
  exact (load_shape_mask_png_size false (fun _ => None) (fun _ _ _ => None)
           (fun _ => Some (Files.OpenedRGBA (blank 5 7))) (fun _ _ _ _ => 0)
           (fun _ _ _ _ _ => 255) "portal.png" (340, 376) mask eq_refl E).
Defined.

Lemma create_portal_with_fill_pixels_witness :
  exists r,
    Files.create_portal_with_fill false (fun _ => None) (fun _ _ _ => None)
      (fun _ => Some (Files.OpenedRGBA (blank 4 3))) (fun _ => None) (fun _ _ _ _ => 0)
      (fun _ _ _ _ => rgba_zero) (fun _ _ _ _ _ => 255) (fun _ _ _ _ _ => rgba_zero)
      "portal.png" (4, 3) (Files.FillGradient Presets.orange) = Some r /\
    size r = (4, 3).
Proof.
  assert (Hs : match Files.create_portal_with_fill false (fun _ => None) (fun _ _ _ => None)
                       (fun _ => Some (Files.OpenedRGBA (blank 4 3))) (fun _ => None)
                       (fun _ _ _ _ => 0) (fun _ _ _ _ => rgba_zero) (fun _ _ _ _ _ => 255)
                       (fun _ _ _ _ _ => rgba_zero) "portal.png" (4, 3)
                       (Files.FillGradient Presets.orange)
               with Some _ => true | None => false end = true) by (vm_compute; reflexivity).
  destruct (Files.create_portal_with_fill false (fun _ => None) (fun _ _ _ => None)
              (fun _ => Some (Files.OpenedRGBA (blank 4 3))) (fun _ => None)
              (fun _ _ _ _ => 0) (fun _ _ _ _ => rgba_zero) (fun _ _ _ _ _ => 255)
              (fun _ _ _ _ _ => rgba_zero) "portal.png" (4, 3)
              (Files.FillGradient Presets.orange)) as [r|] eqn:E; [|discriminate Hs].
  exists r; split; [reflexivity|].
  destruct (create_portal_with_fill_pixels false (fun _ => None) (fun _ _ _ => None)
              (fun _ => Some (Files.OpenedRGBA (blank 4 3))) (fun _ => None)
              (fun _ _ _ _ => 0) (fun _ _ _ _ => rgba_zero) (fun _ _ _ _ _ => 255)
              (fun _ _ _ _ _ => rgba_zero) "portal.png" (4, 3)
              (Files.FillGradient Presets.orange) r E)
    as (mask & fill_img & _ & _ & Hr & _).
  exact Hr.
Defined.

(** ** Extra: the output paths of the command line *)

Lemma append_empty_r (s : string) : (s ++ "")%string = s.
Proof. induction s as [|c s IH]; simpl; [reflexivity | rewrite IH; reflexivity]. Qed.

Lemma length_append (s t : string) :
  String.length (s ++ t) = (String.length s + String.length t)%nat.
Proof. induction s as [|c s IH]; simpl; [reflexivity | rewrite IH; reflexivity]. Qed.

Lemma index_none_cons (old : string) (c : ascii) (r : string) :
  String.index 0 old (String c r) = None ->
  String.prefix old (String c r) = false /\ String.index 0 old r = None.
Proof.
  intros H.
  change (String.index 0 old (String c r)) with
    (if String.prefix old (String c r) then Some 0%nat
     else match String.index 0 old r with Some n => Some (S n) | None => None end) in H.
  destruct (String.prefix old (String c r)); [discriminate H|].
  destruct (String.index 0 old r); [discriminate H|]; split; reflexivity.
Qed.

Lemma replace_all_cons (fuel : nat) (old new : string) (c : ascii) (r : string) :
  replace_all (S fuel) old new (String c r)
  = if String.prefix old (String c r)
    then (new ++ replace_all fuel old new
                  (substring (String.length old)
                     (String.length (String c r) - String.length old) (String c r)))%string
    else String c (replace_all fuel old new r).
Proof. reflexivity. Qed.

Lemma replace_all_no_occurrence (fuel : nat) (old new s : string) :
  String.index 0 old s = None -> replace_all fuel old new s = s.
Proof.
  revert fuel; induction s as [|c r IH]; intros fuel H; destruct fuel; try reflexivity.
  apply index_none_cons in H as [H1 H2]; rewrite replace_all_cons, H1, IH by exact H2.
  reflexivity.
Qed.

Lemma prefix_app_l (p s t : string) :
  (String.length p <= String.length s)%nat -> String.prefix p (s ++ t) = String.prefix p s.
Proof.
  revert s; induction p as [|a p IH]; intros s H; [destruct s; [destruct t|]; reflexivity|].
  destruct s as [|b s]; simpl in H; [lia|].
  cbn [String.prefix String.append]; destruct (ascii_dec a b); [apply IH; lia | reflexivity].
Qed.

Lemma prefix_png_app (s : string) :
  String.prefix ".png" (s ++ ".png") = true -> s = EmptyString \/ String.prefix ".png" s = true.
Proof.
  intros H.
  destruct (Nat.le_gt_cases 4 (String.length s)) as [L|L].
  { right; rewrite <- (prefix_app_l ".png" s ".png") by exact L; exact H. }
  destruct s as [|c1 [|c2 [|c3 [|c4 r]]]]; [left; reflexivity| | | | simpl in L; lia];
    exfalso; revert H; cbn [String.prefix String.append];
    destruct (ascii_dec "." c1) as [<-|]; try discriminate;
    cbn [String.prefix]; try (destruct (ascii_dec "p" c2) as [<-|]; try discriminate);
    cbn [String.prefix]; try (destruct (ascii_dec "n" c3) as [<-|]; try discriminate);
    vm_compute; discriminate.
Qed.


Lemma replace_all_app_png (fuel : nat) (new base : string) :
  String.index 0 ".png" base = None -> (String.length base < fuel)%nat ->
  replace_all fuel ".png" new (base ++ ".png") = (base ++ new)%string.
Proof.
  revert fuel; induction base as [|c r IH]; intros fuel H Hf.
  - destruct fuel as [|f]; [simpl in Hf; lia|].
    simpl; destruct f; rewrite append_empty_r; reflexivity.
  - destruct fuel as [|f]; [simpl in Hf; lia|].
    apply index_none_cons in H as [H1 H2].
    change (String c r ++ ".png")%string with (String c (r ++ ".png")).
    rewrite replace_all_cons.
    destruct (String.prefix ".png" (String c (r ++ ".png"))) eqn:Ep.
    + destruct (prefix_png_app (String c r) Ep) as [E|E]; [discriminate | congruence].
    + rewrite IH by (try exact H2; simpl in Hf; lia); reflexivity.
Qed.

(** X14: when the output path (the second argument, unless it starts with
    [--]) contains no [.png], [output_path.replace(".png", ...)] leaves it
    unchanged, so every variant (blue, green, purple) is saved over the
    avatar itself. *)
Theorem cli_variants_overwrite_output (argv : list string)
  (H : String.index 0 ".png" (cli_output_path argv) = None) :
  forall name, In name variant_names -> variant_path (cli_output_path argv) name = cli_output_path argv.
Proof.
  intros name _; unfold variant_path, py_replace.
  apply replace_all_no_occurrence; exact H.
Qed.

Lemma cli_variants_overwrite_output_witness :
  String.index 0 ".png" (cli_output_path ["avatar_compositor.py"%string; "character.png"%string; "avatar.jpg"%string])
    = None /\
  variant_path (cli_output_path ["avatar_compositor.py"%string; "character.png"%string; "avatar.jpg"%string]) "blue"%string
    = "avatar.jpg"%string.
Proof.
  split; [reflexivity|].
  exact (cli_variants_overwrite_output ["avatar_compositor.py"%string; "character.png"%string; "avatar.jpg"%string]
           eq_refl "blue"%string ltac:(simpl; tauto)).
Defined.

(** X15: for an output path [base.png] with no other [.png] in [base], the
    variant called [name] is saved as [base_name.png]. *)
Theorem variant_path_single_png (base name : string)
  (H : String.index 0 ".png" base = None) :
  variant_path (base ++ ".png") name = (base ++ "_" ++ name ++ ".png")%string.
Proof.
  unfold variant_path, py_replace.
  apply replace_all_app_png; [exact H|].
  rewrite length_append; simpl; lia.
Qed.

Lemma variant_path_single_png_witness :
  String.index 0 ".png" "out/avatar" = None /\
  variant_path "out/avatar.png" "green" = "out/avatar_green.png"%string.
Proof.
  split; [reflexivity|].
  exact (variant_path_single_png "out/avatar" "green" eq_refl).
Defined.

(** ** Extra: angles modulo 360 *)

Lemma normalize_scaled_pos (q : positive) (j : Z) :
  0 <= j -> Zpos (digits2_pos q) <= 53 ->
  binary_normalize prec emax (Zpos q * 2 ^ j) (- j) false = of_Z (Zpos q).
Proof.
  intros Hj Hd.
  destruct (of_Z_pos q Hd) as (m & Hm & Hmd & Hmv); rewrite Hm.
  destruct (Z.eq_dec j 0) as [->|Hj0].
  { rewrite Z.mul_1_r; simpl Z.opp; rewrite <- Hm; reflexivity. }
  set (jp := Z.to_pos j).
  assert (Hjp : Zpos jp = j) by (subst jp; rewrite Z2Pos.id; lia).
  replace (Zpos q * 2 ^ j) with (Zpos (Pos.iter xO q jp)) by (rewrite iter_xO_Z, Hjp; reflexivity).
  unfold binary_normalize, binary_round, shl_align.
  rewrite digits2_iter_xO.
  set (dq := Zpos (digits2_pos q)) in *.
  assert (Hf : fexp prec emax (Zpos (digits2_pos q + jp) + - j) = dq - 53)
    by (unfold fexp, emin, prec, emax; rewrite Pos2Z.inj_add; subst dq; lia).
  rewrite Hf.
  destruct (dq - 53 - - j) eqn:E.
  - assert (Hk : digits2_pos (Pos.iter xO q jp) = 53%positive)
      by (rewrite digits2_iter_xO; apply Pos2Z.inj; rewrite Pos2Z.inj_add; subst dq; lia).
    rewrite round_aux_exact by (try exact Hk; lia).
    assert (Hme : Pos.iter xO q jp = m).
    { apply Pos2Z.inj; rewrite iter_xO_Z, Hmv, Hjp; f_equal; f_equal; lia. }
    rewrite Hme; f_equal; lia.
  - assert (Hme : Pos.iter xO q jp = Pos.iter xO m p).
    { apply Pos2Z.inj; rewrite !iter_xO_Z, Hmv, Hjp, <- Z.mul_assoc, <- Z.pow_add_r by lia.
      f_equal; f_equal; lia. }
    rewrite Hme.
    replace (- j) with ((dq - 53) - Zpos p) by lia.
    apply round_aux_shift; [exact Hmd | lia].
  - assert (Hme : Pos.iter xO (Pos.iter xO q jp) p = m).
    { apply Pos2Z.inj; rewrite !iter_xO_Z, Hjp, Hmv, <- Z.mul_assoc, <- Z.pow_add_r by lia.
      f_equal; f_equal; lia. }
    rewrite Hme.
    apply round_aux_exact; [exact Hmd | lia].
Qed.

Lemma fmod360_of_Z (z : Z) :
  Z.abs z < 2 ^ 53 -> fmod360 (of_Z z) = of_Z (z mod 360).
Proof.
  intros Hz.
  destruct (Z.eq_dec z 0) as [->|E]; [reflexivity|].
  assert (Hs : exists s p, z = zsign s p)
    by (destruct z as [|p|p]; [congruence | exists false, p | exists true, p]; reflexivity).
  destruct Hs as (s & p & ->).
  assert (Hp : Zpos p < 2 ^ 53) by (destruct s; simpl in Hz; lia).
  pose proof (digits_le p 53 ltac:(lia) Hp) as Hd.
  destruct (of_Z_signed s p Hd) as (m & Hm & Hv).
  rewrite Hm; unfold fmod360.
  set (j := 53 - Zpos (digits2_pos p)) in Hv.
  assert (HM : (if s then Zneg m else Zpos m) = zsign s p * 2 ^ j)
    by (destruct s; simpl zsign; [change (Zneg m) with (- Zpos m); change (Zneg p) with (- Zpos p)|]; rewrite Hv; ring).
  rewrite HM.
  destruct (0 <=? Zpos (digits2_pos p) - 53) eqn:E0.
  - apply Z.leb_le in E0.
    replace j with 0 by (subst j; lia).
    replace (Zpos (digits2_pos p) - 53) with 0 by lia.
    rewrite Z.mul_1_r, Z.shiftl_0_r; reflexivity.
  - replace (Zpos (digits2_pos p) - 53) with (- j) by (subst j; lia).
    rewrite Z.opp_involutive.
    assert (Hj : 0 <= j) by (apply Z.leb_gt in E0; subst j; lia).
    rewrite Z.mul_mod_distr_r by (try lia; apply Z.pow_nonzero; lia).
    pose proof (Z.mod_pos_bound (zsign s p) 360 ltac:(lia)) as Hb.
    destruct (zsign s p mod 360) as [|q|q] eqn:Eq.
    + reflexivity.
    + apply normalize_scaled_pos; [exact Hj | apply digits_le; lia].
    + lia.
Qed.

Lemma fmod360_of_Z_mod (z : Z) :
  Z.abs z < 2 ^ 53 -> fmod360 (of_Z z) = fmod360 (of_Z (z mod 360)).
Proof.
  intros Hz.
  pose proof (Z.mod_pos_bound z 360 ltac:(lia)) as Hb.
  assert (Hm : Z.abs (z mod 360) < 2 ^ 53) by (rewrite Z.abs_eq by lia; apply Z.lt_trans with 360; [lia | reflexivity]).
  rewrite (fmod360_of_Z z Hz), (fmod360_of_Z _ Hm), Z.mod_mod by lia; reflexivity.
Qed.

(** X16: for an integer angle [z] (as an int or as a float), rotating
    by [z] degrees is rotating by [z mod 360]: [angle % 360.0] reduces the
    angle exactly, so [-90] takes the 270-degree path. *)
Theorem rotate_expand_mod_360 (rotate_bbox : float -> Z -> Z -> Z * Z)
  (rotate_bicubic : image rgba -> float -> Z -> Z -> rgba) (im : image rgba) (z : Z)
  (Hz : Z.abs z < 2 ^ 53) :
  rotate_expand rotate_bbox rotate_bicubic im (VInt z)
  = rotate_expand rotate_bbox rotate_bicubic im (VInt (z mod 360)) /\
  rotate_expand rotate_bbox rotate_bicubic im (VFloat (of_Z z))
  = rotate_expand rotate_bbox rotate_bicubic im (VInt (z mod 360)).
Proof.
  unfold rotate_expand; cbn [to_float]; rewrite (fmod360_of_Z_mod z Hz); split; reflexivity.
Qed.

Lemma rotate_expand_mod_360_witness :
  Z.abs (-90) < 2 ^ 53 /\
  rotate_expand (fun _ w h => (w, h)) (fun _ _ _ _ => rgba_zero) (blank 3 5) (VInt (-90))
  = rotate_expand (fun _ w h => (w, h)) (fun _ _ _ _ => rgba_zero) (blank 3 5) (VInt 270) /\
  rotate_expand (fun _ w h => (w, h)) (fun _ _ _ _ => rgba_zero) (blank 3 5) (VFloat (of_Z (-90)))
  = rotate_expand (fun _ w h => (w, h)) (fun _ _ _ _ => rgba_zero) (blank 3 5) (VInt 270).
Proof.
  split; [lia|].
  exact (rotate_expand_mod_360 (fun _ w h => (w, h)) (fun _ _ _ _ => rgba_zero)
           (blank 3 5) (-90) ltac:(lia)).
Defined.

(** ** Extra: range of parsed colours *)

Lemma int16_within_empty : int16_within (-15) 255 EmptyString = true.
Proof. vm_compute; reflexivity. Qed.

Lemma int16_within_one :
  forallb (fun c1 => int16_within (-15) 255 (String c1 EmptyString)) all_ascii = true.
Proof. vm_compute; reflexivity. Qed.

Lemma int16_within_two :
  forallb (fun c1 => forallb (fun c2 => int16_within (-15) 255 (String c1 (String c2 EmptyString)))
    all_ascii) all_ascii = true.
Proof. vm_compute; reflexivity. Qed.

Lemma substring_length_le (n m : nat) (s : string) : (String.length (substring n m s) <= m)%nat.
Proof.
  revert n m; induction s as [|c s IH]; intros n m; destruct n, m; simpl; try lia.
  all: try apply IH.
  specialize (IH 0%nat m); lia.
Qed.

Lemma int16_short_within (s : string) (v : Z) :
  (String.length s <= 2)%nat -> PyStr.int16 s = Some v -> -15 <= v <= 255.
Proof.
  intros Hl Hv.
  assert (Hw : int16_within (-15) 255 s = true).
  { destruct s as [|c1 [|c2 [|c3 s]]]; [exact int16_within_empty | | | simpl in Hl; lia].
    - pose proof int16_within_one as H1; rewrite forallb_forall in H1.
      exact (H1 c1 (in_all_ascii c1)).
    - pose proof int16_within_two as H2; rewrite forallb_forall in H2.
      specialize (H2 c1 (in_all_ascii c1)); rewrite forallb_forall in H2.
      exact (H2 c2 (in_all_ascii c2)). }
  unfold int16_within in Hw; rewrite Hv in Hw; apply andb_prop in Hw as [A B]; lia.
Qed.

(** X17: every channel [hex_to_rgb] returns lies in [-15, 255]: [int]
    accepts a sign, so a slice like [-f] gives [-15]. *)
Theorem hex_to_rgb_channel_range (s : string) (r g b : Z)
  (H : hex_to_rgb s = Some (r, g, b)) :
  -15 <= r <= 255 /\ -15 <= g <= 255 /\ -15 <= b <= 255.
Proof.
  unfold hex_to_rgb in H.
  destruct (PyStr.int16 (PyStr.slice _ 0 2)) as [r'|] eqn:Er; [|discriminate].
  destruct (PyStr.int16 (PyStr.slice _ 2 2)) as [g'|] eqn:Eg; [|discriminate].
  destruct (PyStr.int16 (PyStr.slice _ 4 2)) as [b'|] eqn:Eb; [|discriminate].
  injection H as <- <- <-.
  repeat split; eapply int16_short_within; try eassumption; apply substring_length_le.
Qed.

Lemma hex_to_rgb_channel_range_witness :
  hex_to_rgb "#-f-f-f" = Some (-15, -15, -15) /\ -15 <= -15 <= 255 /\ -15 <= -15 <= 255 /\ -15 <= -15 <= 255.
Proof.
  assert (H : hex_to_rgb "#-f-f-f" = Some (-15, -15, -15)) by (vm_compute; reflexivity).
  split; [exact H|].
  exact (hex_to_rgb_channel_range "#-f-f-f" (-15) (-15) (-15) H).
Defined.

(** ** Extra: the [--fill] option *)

Lemma list_index_app_not_in (x : string) (pre post : list string) :
  ~ In x pre -> list_index x (pre ++ x :: post) = Some (List.length pre).
Proof.
  induction pre as [|y pre IH]; intros Hn; simpl.
  - rewrite String.eqb_refl; reflexivity.
  - destruct (String.eqb_spec y x) as [->|Hy]; [exfalso; apply Hn; left; reflexivity|].
    rewrite IH by (intros Hi; apply Hn; right; exact Hi); reflexivity.
Qed.

Lemma existsb_app_in (x : string) (pre post : list string) :
  existsb (String.eqb x) (pre ++ x :: post) = true.
Proof. apply existsb_exists; exists x; split; [apply in_or_app; right; left; reflexivity | apply String.eqb_refl]. Qed.

Lemma existsb_not_in (x : string) (l : list string) :
  ~ In x l -> existsb (String.eqb x) l = false.
Proof.
  intros Hn; apply Bool.not_true_iff_false; intros He.
  apply existsb_exists in He as (y & Hy & E); apply String.eqb_eq in E; subst y; contradiction.
Qed.

(** X18: the fill is the argument right after the first [--fill], even
    when it starts with [--]; a [--fill] that ends the command line, or no
    [--fill] at all, leaves the orange gradient. *)
Theorem cli_fill_first_flag (pre post : list string) (Hpre : ~ In "--fill"%string pre) :
  (forall v, cli_fill (pre ++ "--fill"%string :: v :: post) = Files.FillPath v) /\
  cli_fill (pre ++ ["--fill"%string]) = Files.FillGradient Presets.orange /\
  cli_fill pre = Files.FillGradient Presets.orange.
Proof.
  unfold cli_fill; split; [|split].
  - intros v; rewrite existsb_app_in, list_index_app_not_in by exact Hpre.
    rewrite length_app; simpl List.length.
    replace (List.length pre + 1 <? List.length pre + S (S (List.length post)))%nat with true
      by (symmetry; apply Nat.ltb_lt; lia).
    rewrite app_nth2 by lia; replace (List.length pre + 1 - List.length pre)%nat with 1%nat by lia.
    reflexivity.
  - rewrite existsb_app_in, list_index_app_not_in by exact Hpre.
    rewrite length_app; simpl List.length.
    replace (List.length pre + 1 <? List.length pre + 1)%nat with false
      by (symmetry; apply Nat.ltb_ge; lia).
    reflexivity.
  - rewrite existsb_not_in by exact Hpre; reflexivity.
Qed.

Lemma cli_fill_first_flag_witness :
  ~ In "--fill"%string ["avatar_compositor.py"%string; "character.png"%string; "avatar.png"%string] /\
  cli_fill (["avatar_compositor.py"%string; "character.png"%string; "avatar.png"%string]
              ++ "--fill"%string :: "--scale"%string :: ["2.0"%string])
  = Files.FillPath "--scale".
Proof.
  assert (Hn : ~ In "--fill"%string ["avatar_compositor.py"%string; "character.png"%string; "avatar.png"%string])
    by (simpl; intros [H|[H|[H|[]]]]; discriminate H).
  split; [exact Hn|].
  exact (proj1 (cli_fill_first_flag _ ["2.0"%string] Hn) "--scale"%string).
Defined.

(** ** Claims C3 and C8, restated *)

Lemma round_aux_sign (sx : bool) (mx ex : Z) (lx : location) :
  match binary_round_aux prec emax sx mx ex lx with
  | S754_zero s | S754_infinity s | S754_finite s _ _ => s = sx
  | S754_nan => True
  end.
Proof.
  unfold binary_round_aux.
  destruct (shr_fexp prec emax mx ex lx) as [mrs' e'].
  destruct (shr_fexp prec emax _ e' loc_Exact) as [mrs'' e''].
  destruct (shr_m mrs'') as [|p|p]; [reflexivity| |exact I].
  destruct (e'' <=? emax - prec); reflexivity.
Qed.

Lemma round_aux_not_neg (mx : Z) (ex : Z) (lx : location) m e :
  binary_round_aux prec emax false mx ex lx <> S754_finite true m e.
Proof.
  intros E; pose proof (round_aux_sign false mx ex lx) as S; rewrite E in S; discriminate.
Qed.

Lemma of_Z_nonneg_cases (z : Z) :
  0 <= z -> of_Z z = S754_zero false \/ (exists m e, of_Z z = S754_finite false m e) \/
            of_Z z = S754_infinity false \/ of_Z z = S754_nan.
Proof.
  intros Hz; destruct z as [|p|p]; [left; reflexivity| |lia].
  unfold of_Z, binary_normalize, binary_round.
  destruct (shl_align p 0 _) as [mz ez].
  pose proof (round_aux_sign false (Zpos mz) ez loc_Exact) as S.
  destruct (binary_round_aux prec emax false (Zpos mz) ez loc_Exact) as [s|s| |s m e];
    try subst s.
  - left; reflexivity.
  - right; right; left; reflexivity.
  - right; right; right; reflexivity.
  - right; left; exists m, e; reflexivity.
Qed.

Lemma trunc_floor_nonneg (m : positive) (e : Z) :
  trunc (S754_finite false m e) = spec_floor_float (S754_finite false m e).
Proof.
  unfold trunc, spec_floor_float.
  destruct (0 <=? e) eqn:E.
  - apply Z.leb_le in E; rewrite Z.shiftl_mul_pow2 by lia; reflexivity.
  - apply Z.leb_gt in E; rewrite Z.shiftr_div_pow2 by lia; reflexivity.
Qed.

Lemma int_of_float_mul_floor (z : Z) (fp : float) (top : Z) :
  0 <= z -> (fp = S754_zero false \/ exists m e, fp = S754_finite false m e) ->
  int_of_float (fmul (of_Z z) fp) = Some top -> top = spec_floor_float (fmul (of_Z z) fp).
Proof.
  intros Hz Hfp.
  destruct (of_Z_nonneg_cases z Hz) as [E|[(m & e & E)|[E|E]]]; rewrite E;
    destruct Hfp as [->|(m' & e' & ->)]; unfold fmul; simpl SFmul;
    try (intros H; inversion H; reflexivity); try discriminate.
  destruct (binary_round_aux prec emax false (Zpos (m * m')) (e + e') loc_Exact) as [s|s| |s mm ee] eqn:B;
    simpl; intros H; try discriminate.
  - inversion H; reflexivity.
  - destruct s; [exfalso; exact (round_aux_not_neg _ _ _ _ _ B)|].
    inversion H; apply trunc_floor_nonneg.
Qed.

(** C3 (the code's behaviour when the image covers the target): when the
    resized height is at least the target height and [face_position] is
    a non-negative float, the crop box is
    [(left, top, left + target_width, top + target_height)] with
    [left = floor((new_width - target_width) / 2)] and [top] the floor of
    the float product [(new_height - target_height) * face_position], as
    the spec states: [int()] truncates, and on a non-negative value that
    is the floor. *)
Theorem cover_crop_box_floor_when_covering (tw th nw nh : Z) (fp : float) (box : Z * Z * Z * Z)
  (Hcov : th <= nh)
  (Hfp : fp = S754_zero false \/ exists m e, fp = S754_finite false m e)
  (H : cover_crop_box tw th nw nh (VFloat fp) = Some box) :
  let left := (nw - tw) / 2 in
  let top := spec_floor_float (fmul (of_Z (nh - th)) fp) in
  box = (left, top, left + tw, top + th).
Proof.
  cbv zeta; revert H; unfold cover_crop_box, vmul, int_of_value, floordiv; cbv [to_float].
  destruct (int_of_float (fmul (of_Z (nh - th)) fp)) as [top|] eqn:E; [|discriminate].
  intros H; inversion H; subst box.
  rewrite <- (int_of_float_mul_floor (nh - th) fp top ltac:(lia) Hfp E); reflexivity.
Qed.

Lemma cover_crop_box_floor_when_covering_witness :
  100 <= 100 /\ cover_crop_box 50 100 100 100 (VFloat (of_Z 0)) = Some (25, 0, 75, 100) /\
  (25, 0, 75, 100) = ((100 - 50) / 2, spec_floor_float (fmul (of_Z (100 - 100)) (of_Z 0)),
                      (100 - 50) / 2 + 50, spec_floor_float (fmul (of_Z (100 - 100)) (of_Z 0)) + 100).
Proof.
  assert (Hb : cover_crop_box 50 100 100 100 (VFloat (of_Z 0)) = Some (25, 0, 75, 100))
    by (vm_compute; reflexivity).
  split; [lia|]; split; [exact Hb|].
  exact (cover_crop_box_floor_when_covering 50 100 100 100 (of_Z 0) (25, 0, 75, 100)
           ltac:(lia) (or_introl eq_refl) Hb).
Defined.

(** C8 (amended): [hex_to_rgb] does not check that the colour is six hex
    digits.  When the part after the leading ['#']s begins with six hex
    digits [d0 .. d5] it succeeds whatever follows them, with the channels
    [16 d0 + d1], [16 d2 + d3], [16 d4 + d5], each in [0, 255]; when at most
    four characters follow the ['#']s it fails. *)
Theorem hex_to_rgb_spec (s t : string)
  (Hs : six_hex_digits (PyStr.lstrip "#"%char s) = true) :
  (exists c0 c1 c2 c3 c4 c5 d0 d1 d2 d3 d4 d5,
    PyStr.lstrip "#"%char s
      = String c0 (String c1 (String c2 (String c3 (String c4 (String c5 EmptyString))))) /\
    PyStr.hex_digit c0 = Some d0 /\ PyStr.hex_digit c1 = Some d1 /\
    PyStr.hex_digit c2 = Some d2 /\ PyStr.hex_digit c3 = Some d3 /\
    PyStr.hex_digit c4 = Some d4 /\ PyStr.hex_digit c5 = Some d5 /\
    hex_to_rgb (s ++ t) = Some (16 * d0 + d1, 16 * d2 + d3, 16 * d4 + d5) /\
    0 <= 16 * d0 + d1 <= 255 /\ 0 <= 16 * d2 + d3 <= 255 /\ 0 <= 16 * d4 + d5 <= 255) /\
  (forall u, (String.length (PyStr.lstrip "#"%char u) <= 4)%nat -> hex_to_rgb u = None).
Proof.
  split.
  - assert (Hl : String.length (PyStr.lstrip "#"%char s) = 6%nat)
      by (unfold six_hex_digits in Hs; apply andb_prop in Hs as [Hs _]; apply Nat.eqb_eq; exact Hs).
    assert (E : hex_to_rgb (s ++ t) = hex_to_rgb s).
    { unfold hex_to_rgb, PyStr.slice.
      rewrite lstrip_app by (apply lstrip_length; lia).
      rewrite !substring_app_l by lia; reflexivity. }
    rewrite E; exact (hex_to_rgb_six_digits s Hs).
  - intros u Hu; unfold hex_to_rgb, PyStr.slice.
    rewrite (substring_past_end 4 2 (PyStr.lstrip "#"%char u) Hu).
    change (PyStr.int16 EmptyString) with (@None Z).
    destruct (PyStr.int16 (substring 0 2 (PyStr.lstrip "#"%char u)));
      destruct (PyStr.int16 (substring 2 2 (PyStr.lstrip "#"%char u))); reflexivity.
Qed.

Lemma hex_to_rgb_spec_witness :
  six_hex_digits (PyStr.lstrip "#"%char "#CE782D") = true /\
  hex_to_rgb ("#CE782D" ++ "FF") = Some (206, 120, 45) /\
  hex_to_rgb "#FFF" = None.
Proof.
  split; [reflexivity|].
  destruct (hex_to_rgb_spec "#CE782D" "FF" eq_refl) as [H Hshort].
  split; [|apply Hshort; simpl; lia].
  destruct H as (c0 & c1 & c2 & c3 & c4 & c5 & d0 & d1 & d2 & d3 & d4 & d5 & Hl & Hd0 & Hd1 &
                 Hd2 & Hd3 & Hd4 & Hd5 & Hr & _).
  simpl in Hl; inversion Hl; subst.
  vm_compute in Hd0, Hd1, Hd2, Hd3, Hd4, Hd5.
  inversion Hd0; inversion Hd1; inversion Hd2; inversion Hd3; inversion Hd4; inversion Hd5.
  subst; exact Hr.
Defined.

(** ** Claim C10, restated: the float gradient *)

Lemma new_location_locZ (D r : Z) : 0 < D -> 0 <= r < D -> new_location D r = locZ D r.
Proof.
  intros HD Hr; unfold new_location, new_location_even, new_location_odd, locZ.
  destruct (Z.even D) eqn:Ev; [reflexivity|].
  destruct (r =? 0) eqn:Er; [reflexivity|]; f_equal.
  assert (Hodd : D = 2 * Z.div2 D + 1).
  { rewrite (Z.div2_odd D) at 1; rewrite <- Z.negb_even, Ev; simpl; lia. }
  destruct (Z.compare_spec (2 * r + 1) D); destruct (Z.compare_spec (2 * r) D); try reflexivity; lia.
Qed.

Lemma mod_mul_r (a b c : Z) : 0 < b -> 0 < c -> a mod (b * c) = a mod b + b * ((a / b) mod c).
Proof.
  intros Hb Hc.
  symmetry; apply Z.mod_unique with (q := a / b / c).
  - left; split.
    + pose proof (Z.mod_pos_bound a b Hb); pose proof (Z.mod_pos_bound (a / b) c Hc); nia.
    + pose proof (Z.mod_pos_bound a b Hb); pose proof (Z.mod_pos_bound (a / b) c Hc); nia.
  - rewrite (Z.div_mod a b) at 1 by lia.
    rewrite (Z.div_mod (a / b) c) at 1 by lia.
    ring.
Qed.

Lemma shr_1_spec (q D r : Z) (rb sb : bool) :
  0 <= q -> 0 < D -> 0 <= r < D ->
  loc_of_shr_record {| shr_m := q; shr_r := rb; shr_s := sb |} = locZ D r ->
  shr_m (shr_1 {| shr_m := q; shr_r := rb; shr_s := sb |}) = q / 2 /\
  loc_of_shr_record (shr_1 {| shr_m := q; shr_r := rb; shr_s := sb |})
    = locZ (2 * D) ((q mod 2) * D + r).
Proof.
  intros Hq HD Hr Hl.
  assert (Hex : (rb || sb)%bool = false <-> r = 0).
  { unfold locZ in Hl; destruct (Z.eqb_spec r 0);
      destruct rb, sb; simpl in Hl |- *; split; intros; try congruence; try lia; discriminate. }
  assert (Hc : forall q', loc_of_shr_record {| shr_m := q'; shr_r := false; shr_s := rb || sb |}
                         = locZ (2 * D) (0 * D + r)).
  { intros q'; unfold locZ; rewrite Z.mul_0_l, Z.add_0_l.
    destruct (rb || sb)%bool eqn:E; cbn [loc_of_shr_record].
    - destruct (Z.eqb_spec r 0) as [E0|E0]; [apply Hex in E0; congruence|].
      destruct (Z.compare_spec (2 * r) (2 * D)); try reflexivity; lia.
    - assert (r = 0) by (apply Hex; reflexivity); subst r; reflexivity. }
  assert (Hc' : forall q', loc_of_shr_record {| shr_m := q'; shr_r := true; shr_s := rb || sb |}
                          = locZ (2 * D) (1 * D + r)).
  { intros q'; unfold locZ.
    destruct (Z.eqb_spec (1 * D + r) 0); [lia|].
    destruct (rb || sb)%bool eqn:E; cbn [loc_of_shr_record].
    - destruct (Z.eqb_spec r 0) as [E0|E0]; [apply Hex in E0; congruence|].
      destruct (Z.compare_spec (2 * (1 * D + r)) (2 * D)); try reflexivity; lia.
    - assert (r = 0) by (apply Hex; reflexivity); subst r.
      destruct (Z.compare_spec (2 * (1 * D + 0)) (2 * D)); try reflexivity; lia. }
  destruct q as [|p|p]; [|destruct p as [p|p|]|lia]; cbn [shr_1].
  - split; [reflexivity|]; rewrite Zmod_0_l; apply Hc.
  - assert (E1 : Z.pos p~1 = 1 + Z.pos p * 2) by lia.
    rewrite E1, Z.div_add, Z_mod_plus_full by lia; split; [reflexivity| apply Hc'].
  - assert (E1 : Z.pos p~0 = 0 + Z.pos p * 2) by lia.
    rewrite E1, Z.div_add, Z_mod_plus_full by lia; split; [reflexivity| apply Hc].
  - split; [reflexivity|]; apply Hc'.
Qed.

Lemma shr_1_spec' (mrs : shr_record) (D r : Z) :
  0 <= shr_m mrs -> 0 < D -> 0 <= r < D -> loc_of_shr_record mrs = locZ D r ->
  shr_m (shr_1 mrs) = shr_m mrs / 2 /\
  loc_of_shr_record (shr_1 mrs) = locZ (2 * D) ((shr_m mrs mod 2) * D + r).
Proof. destruct mrs as [q rb sb]; simpl; apply shr_1_spec. Qed.

Lemma shr_iter_spec (k : positive) (mrs : shr_record) (D r : Z) :
  0 <= shr_m mrs -> 0 < D -> 0 <= r < D -> loc_of_shr_record mrs = locZ D r ->
  shr_m (iter_pos shr_1 k mrs) = shr_m mrs / 2 ^ Zpos k /\
  loc_of_shr_record (iter_pos shr_1 k mrs)
    = locZ (2 ^ Zpos k * D) ((shr_m mrs mod 2 ^ Zpos k) * D + r).
Proof.
  intros Hq HD Hr Hl; rewrite iter_pos_iter.
  set (q := shr_m mrs) in *.
  induction k as [|k IH] using Pos.peano_ind.
  - simpl Pos.iter; change (2 ^ Zpos 1) with 2; apply shr_1_spec'; assumption.
  - rewrite Pos.iter_succ.
    destruct IH as [IHm IHl].
    assert (Hk : 0 < 2 ^ Zpos k) by (apply Z.pow_pos_nonneg; lia).
    assert (Hmk : 0 <= q mod 2 ^ Zpos k < 2 ^ Zpos k) by (apply Z.mod_pos_bound; lia).
    destruct (shr_1_spec' (Pos.iter shr_1 mrs k) (2 ^ Zpos k * D) ((q mod 2 ^ Zpos k) * D + r))
      as [Hm Hl'].
    + rewrite IHm; apply Z.div_pos; lia.
    + nia.
    + nia.
    + exact IHl.
    + assert (Hs : 2 ^ Zpos (Pos.succ k) = 2 ^ Zpos k * 2)
        by (rewrite Pos2Z.inj_succ, Z.pow_succ_r by lia; lia).
      split.
      * rewrite Hm, IHm, Hs, Z.div_div by lia; reflexivity.
      * rewrite Hl', IHm, Hs, mod_mul_r by lia.
        f_equal; ring.
Qed.

Lemma loc_of_record_of_loc (m : Z) (l : location) :
  loc_of_shr_record (shr_record_of_loc m l) = l.
Proof. destruct l as [|[| |]]; reflexivity. Qed.

Lemma shr_m_record_of_loc (m : Z) (l : location) : shr_m (shr_record_of_loc m l) = m.
Proof. destruct l as [|[| |]]; reflexivity. Qed.

Lemma rne_spec (q Q rho : Z) :
  0 < Q -> 0 <= rho < Q ->
  q <= round_nearest_even q (locZ Q rho) <= q + 1 /\
  Z.abs (2 * Q * (round_nearest_even q (locZ Q rho) - q) - 2 * rho) <= Q.
Proof.
  intros HQ Hr; unfold locZ.
  destruct (Z.eqb_spec rho 0) as [E|E]; cbn [round_nearest_even].
  - subst; rewrite Z.abs_le; lia.
  - destruct (Z.compare_spec (2 * rho) Q); cbn [round_nearest_even].
    + destruct (Z.even q); rewrite Z.abs_le; lia.
    + rewrite Z.abs_le; lia.
    + rewrite Z.abs_le; lia.
Qed.

Lemma digits_eq (p : positive) (k : Z) :
  1 <= k -> 2 ^ (k - 1) <= Zpos p < 2 ^ k -> Zpos (digits2_pos p) = k.
Proof.
  intros Hk [Hl Hh].
  pose proof (digits_le p k ltac:(lia) Hh) as H1.
  pose proof (digits2_pos_bound p) as [_ H2].
  destruct (Z.eq_dec (Zpos (digits2_pos p)) k) as [E|E]; [exact E|].
  assert (2 ^ Zpos (digits2_pos p) <= 2 ^ (k - 1)) by (apply Z.pow_le_mono_r; lia).
  lia.
Qed.

Lemma shr_spec (mrs : shr_record) (e k D r : Z) :
  0 <= k -> 0 <= shr_m mrs -> 0 < D -> 0 <= r < D -> loc_of_shr_record mrs = locZ D r ->
  snd (shr mrs e k) = e + k /\
  shr_m (fst (shr mrs e k)) = shr_m mrs / 2 ^ k /\
  loc_of_shr_record (fst (shr mrs e k)) = locZ (2 ^ k * D) ((shr_m mrs mod 2 ^ k) * D + r).
Proof.
  intros Hk Hq HD Hr Hl.
  destruct k as [|kp|kp]; [|simpl shr|lia].
  - cbn [shr fst snd]; rewrite Z.pow_0_r, Z.div_1_r, Z.mod_1_r, Z.mul_1_l, Z.add_0_r.
    split; [reflexivity|]; split; [reflexivity|]; exact Hl.
  - cbn [fst snd]; split; [reflexivity|]; apply shr_iter_spec; assumption.
Qed.

Lemma round_final (q E : Z) :
  2 ^ 52 <= q <= 2 ^ 53 -> -1074 <= E <= 969 ->
  (let '(mrs'', e'') := shr_fexp Py.prec Py.emax q E loc_Exact in
   match shr_m mrs'' with
   | Z0 => S754_zero false
   | Zpos m => if Z.leb e'' (Z.sub Py.emax Py.prec) then S754_finite false m e'' else S754_infinity false
   | _ => S754_nan
   end) = mkfloat q E.
Proof.
  intros Hq HE; unfold mkfloat.
  destruct (Z.eqb_spec q (2 ^ 53)) as [Eq|Eq].
  - subst q; unfold shr_fexp.
    change (Zdigits2 (2 ^ 53)) with 54.
    replace (fexp Py.prec Py.emax (54 + E) - E) with 1
      by (unfold fexp, emin, Py.prec, Py.emax; lia).
    cbn [shr iter_pos shr_record_of_loc fst snd].
    change (shr_m (shr_1 {| shr_m := 2 ^ 53; shr_r := false; shr_s := false |}))
      with (Zpos (Z.to_pos (2 ^ 52))).
    cbv iota beta.
    replace (E + 1 <=? Py.emax - Py.prec) with true
      by (symmetry; apply Z.leb_le; unfold Py.prec, Py.emax; lia).
    reflexivity.
  - destruct q as [|m|m]; [lia| |lia].
    assert (Hd : Zpos (digits2_pos m) = 53) by (apply digits_eq; simpl in *; lia).
    unfold shr_fexp, Zdigits2; rewrite Hd.
    replace (fexp Py.prec Py.emax (53 + E) - E) with 0
      by (unfold fexp, emin, Py.prec, Py.emax; lia).
    cbn [shr shr_record_of_loc fst snd shr_m].
    replace (E <=? Py.emax - Py.prec) with true
      by (symmetry; apply Z.leb_le; unfold Py.prec, Py.emax; lia).
    reflexivity.
Qed.

Lemma round_aux_int (p : positive) (ex D r : Z) :
  53 <= Zpos (digits2_pos p) -> -1074 <= Zpos (digits2_pos p) + ex - 53 <= 969 ->
  0 < D -> 0 <= r < D ->
  exists q, 2 ^ 52 <= q <= 2 ^ 53 /\
    binary_round_aux Py.prec Py.emax false (Zpos p) ex (locZ D r)
      = mkfloat q (Zpos (digits2_pos p) + ex - 53) /\
    Z.abs (2 * 2 ^ (Zpos (digits2_pos p) - 53) * D * q - 2 * (Zpos p * D + r))
      <= 2 ^ (Zpos (digits2_pos p) - 53) * D.
Proof.
  intros Hd HE HD Hr.
  pose proof (digits2_pos_bound p) as Hpb.
  set (dp := Zpos (digits2_pos p)) in *.
  set (k := dp - 53).
  unfold binary_round_aux.
  destruct (shr_fexp Py.prec Py.emax (Zpos p) ex (locZ D r)) as [mrs1 e1] eqn:H1.
  unfold shr_fexp, Zdigits2 in H1; fold dp in H1.
  replace (fexp Py.prec Py.emax (dp + ex) - ex) with k in H1
    by (unfold fexp, emin, Py.prec, Py.emax, k; lia).
  destruct (shr_spec (shr_record_of_loc (Zpos p) (locZ D r)) ex k D r) as [Hs [Hm Hl]];
    try (rewrite shr_m_record_of_loc; lia); try lia.
  { apply loc_of_record_of_loc. }
  rewrite H1 in Hs, Hm, Hl; cbn [fst snd] in Hs, Hm, Hl.
  rewrite shr_m_record_of_loc in Hm, Hl.
  rewrite Hm, Hl; subst e1.
  assert (Hk : 0 < 2 ^ k) by (apply Z.pow_pos_nonneg; lia).
  assert (E52 : 2 ^ (dp - 1) = 2 ^ 52 * 2 ^ k)
    by (rewrite <- Z.pow_add_r by lia; f_equal; unfold k; lia).
  assert (E53 : 2 ^ dp = 2 ^ 53 * 2 ^ k)
    by (rewrite <- Z.pow_add_r by lia; f_equal; unfold k; lia).
  set (q1 := Zpos p / 2 ^ k).
  assert (Hq1 : 2 ^ 52 <= q1 < 2 ^ 53).
  { split.
    - apply Z.div_le_lower_bound; lia.
    - apply Z.div_lt_upper_bound; lia. }
  set (rho := (Zpos p mod 2 ^ k) * D + r).
  assert (Hmk : 0 <= Zpos p mod 2 ^ k < 2 ^ k) by (apply Z.mod_pos_bound; lia).
  assert (Hrho : 0 <= rho < 2 ^ k * D) by (unfold rho; nia).
  destruct (rne_spec q1 (2 ^ k * D) rho ltac:(nia) Hrho) as [Hb Herr].
  set (q' := round_nearest_even q1 (locZ (2 ^ k * D) rho)) in *.
  exists q'.
  split; [lia|]; split.
  - replace (ex + k) with (dp + ex - 53) by (unfold k; lia).
    apply round_final; lia.
  - assert (Hp : Zpos p = 2 ^ k * q1 + Zpos p mod 2 ^ k) by (apply Z.div_mod; lia).
    replace (2 * 2 ^ k * D * q' - 2 * (Zpos p * D + r))
      with (2 * (2 ^ k * D) * (q' - q1) - 2 * rho)
      by (unfold rho; rewrite Hp at 2; ring).
    exact Herr.
Qed.

Lemma powerRZ2_IZR (k : Z) : 0 <= k -> powerRZ 2 k = IZR (2 ^ k).
Proof.
  intros H; destruct k as [|p|p]; [reflexivity| |lia].
  simpl powerRZ; rewrite pow_IZR, positive_nat_Z; reflexivity.
Qed.

Lemma powerRZ2_pos (k : Z) : (0 < powerRZ 2 k)%R.
Proof. apply powerRZ_lt; lra. Qed.

Lemma powerRZ2_add (a b : Z) : powerRZ 2 (a + b) = (powerRZ 2 a * powerRZ 2 b)%R.
Proof. apply powerRZ_add; lra. Qed.

Lemma fval_mkfloat (q E : Z) :
  2 ^ 52 <= q <= 2 ^ 53 -> fval (mkfloat q E) = (IZR q * powerRZ 2 E)%R.
Proof.
  intros Hq; unfold mkfloat, fval.
  destruct (Z.eqb_spec q (2 ^ 53)) as [Eq|Eq].
  - subst q; rewrite powerRZ2_add; replace (powerRZ 2 1) with 2%R by (simpl; lra).
    change (Zpos (Z.to_pos (2 ^ 52))) with (2 ^ 52).
    change (2 ^ 53) with (2 ^ 52 * 2); rewrite mult_IZR; lra.
  - rewrite Z2Pos.id by lia; lra.
Qed.

Lemma mkfloat_shape (q E : Z) :
  2 ^ 52 <= q <= 2 ^ 53 ->
  exists m e, mkfloat q E = S754_finite false m e /\ Zpos (digits2_pos m) = 53 /\
              (e = E \/ e = E + 1).
Proof.
  intros Hq; unfold mkfloat.
  destruct (Z.eqb_spec q (2 ^ 53)) as [Eq|Eq].
  - exists (Z.to_pos (2 ^ 52)), (E + 1); split; [reflexivity|]; split; [reflexivity|]; lia.
  - exists (Z.to_pos q), E; split; [reflexivity|]; split; [|lia].
    apply digits_eq; [lia|]; rewrite Z2Pos.id by lia; simpl; lia.
Qed.

(** Rounding of [(p + r/D) * 2^ex] with [p] of at least 53 bits. *)
Lemma round_aux_real (p : positive) (ex D r : Z) :
  53 <= Zpos (digits2_pos p) -> -1074 <= Zpos (digits2_pos p) + ex - 53 <= 969 ->
  0 < D -> 0 <= r < D ->
  let x := ((IZR (Zpos p) + IZR r / IZR D) * powerRZ 2 ex)%R in
  let f := binary_round_aux Py.prec Py.emax false (Zpos p) ex (locZ D r) in
  (exists m e, f = S754_finite false m e /\ Zpos (digits2_pos m) = 53 /\
     (e = Zpos (digits2_pos p) + ex - 53 \/ e = Zpos (digits2_pos p) + ex - 52)) /\
  (Rabs (fval f - x) <= ulp_rel * x)%R.
Proof.
  intros Hd HE HD Hr x f.
  destruct (round_aux_int p ex D r Hd HE HD Hr) as [q [Hq [Hf Herr]]].
  unfold f; rewrite Hf; split.
  { destruct (mkfloat_shape q (Zpos (digits2_pos p) + ex - 53) Hq) as [m [e [H1 [H2 H3]]]].
    exists m, e; split; [exact H1|]; split; [exact H2|]; lia. }
  rewrite fval_mkfloat by exact Hq.
  pose proof (digits2_pos_bound p) as [Hpl _].
  set (dp := Zpos (digits2_pos p)) in *.
  set (k := dp - 53) in *.
  assert (Hk0 : 0 <= k) by lia.
  assert (HE' : dp + ex - 53 = k + ex) by (unfold k; lia).
  rewrite HE', powerRZ2_add, powerRZ2_IZR by exact Hk0.
  assert (Hpl' : 2 ^ 52 * 2 ^ k <= Zpos p)
    by (rewrite <- Z.pow_add_r by lia; replace (52 + k) with (dp - 1) by (unfold k; lia); exact Hpl).
  apply IZR_le in Hpl'; rewrite mult_IZR in Hpl'.
  apply IZR_le in Herr; rewrite abs_IZR, minus_IZR, !mult_IZR, plus_IZR, mult_IZR in Herr.
  unfold x.
  pose proof (powerRZ2_pos ex) as HP.
  set (P := powerRZ 2 ex) in *.
  assert (HK : (0 < IZR (2 ^ k))%R) by (apply IZR_lt, Z.pow_pos_nonneg; lia).
  set (K := IZR (2 ^ k)) in *.
  assert (HDr : (0 < IZR D)%R) by (apply IZR_lt; lia).
  assert (Hr0 : (0 <= IZR r)%R) by (apply IZR_le; lia).
  set (Dr := IZR D) in *.
  change (IZR 2) with 2%R in Herr.
  replace (IZR q * (K * P) - (IZR (Zpos p) + IZR r / Dr) * P)%R
    with ((2 * K * Dr * IZR q - 2 * (IZR (Zpos p) * Dr + IZR r)) * (P / (2 * Dr)))%R
    by (field; lra).
  rewrite Rabs_mult, (Rabs_right (P / (2 * Dr))) by (apply Rle_ge, Rlt_le, Rdiv_lt_0_compat; lra).
  apply Rle_trans with (K * Dr * (P / (2 * Dr)))%R.
  { apply Rmult_le_compat_r; [apply Rlt_le, Rdiv_lt_0_compat; lra | exact Herr]. }
  replace (K * Dr * (P / (2 * Dr)))%R with (K * P / 2)%R by (field; lra).
  change (IZR (2 ^ 52)) with 4503599627370496%R in Hpl'.
  unfold ulp_rel.
  assert (H0 : (0 <= IZR r / Dr)%R) by (unfold Rdiv; apply Rmult_le_pos; [lra | apply Rlt_le, Rinv_0_lt_compat; lra]).
  nra.
Qed.

Lemma of_Z_canon (z : Z) :
  1 <= z <= 2 ^ 53 ->
  exists m e, of_Z z = S754_finite false m e /\ Zpos (digits2_pos m) = 53 /\
              -52 <= e <= 1 /\ fval (of_Z z) = IZR z.
Proof.
  intros Hz.
  destruct (Z.eq_dec z (2 ^ 53)) as [E|E].
  - subst z; exists (Z.to_pos (2 ^ 52)), 1.
    assert (H : of_Z (2 ^ 53) = S754_finite false (Z.to_pos (2 ^ 52)) 1) by reflexivity.
    rewrite H; split; [reflexivity|]; split; [reflexivity|]; split; [lia|].
    unfold fval; replace (powerRZ 2 1) with 2%R by (simpl; lra).
    change (Zpos (Z.to_pos (2 ^ 52))) with (2 ^ 52).
    change (2 ^ 53) with (2 ^ 52 * 2); rewrite mult_IZR; lra.
  - destruct z as [|p|p]; try lia.
    assert (Hd : Zpos (digits2_pos p) <= 53) by (apply digits_le; lia).
    destruct (of_Z_pos p Hd) as [m [H1 [H2 H3]]].
    exists m, (Zpos (digits2_pos p) - 53).
    rewrite H1; split; [reflexivity|]; split; [rewrite H2; reflexivity|]; split; [lia|].
    unfold fval; rewrite H3, mult_IZR, <- powerRZ2_IZR by lia.
    replace (Zpos (digits2_pos p) - 53) with (- (53 - Zpos (digits2_pos p))) by lia.
    rewrite powerRZ_neg' by lra.
    assert (0 < powerRZ 2 (53 - Zpos (digits2_pos p)))%R by apply powerRZ2_pos.
    field; lra.
Qed.

Lemma div_eucl_split (a b : Z) : Z.div_eucl a b = (a / b, a mod b).
Proof. unfold Z.div, Z.modulo; destruct (Z.div_eucl a b); reflexivity. Qed.

Lemma canon_mant_bounds (m : positive) :
  Zpos (digits2_pos m) = 53 -> 2 ^ 52 <= Zpos m < 2 ^ 53.
Proof. intros H; pose proof (digits2_pos_bound m) as B; rewrite H in B; exact B. Qed.

Lemma fval_finite_pos (m : positive) (e : Z) : (0 < fval (S754_finite false m e))%R.
Proof.
  unfold fval; pose proof (powerRZ2_pos e); assert (0 < IZR (Zpos m))%R by (apply IZR_lt; lia).
  nra.
Qed.

Lemma fdiv_canon (m1 m2 : positive) (e1 e2 : Z) :
  Zpos (digits2_pos m1) = 53 -> Zpos (digits2_pos m2) = 53 -> -1000 <= e1 - e2 <= 900 ->
  let a := S754_finite false m1 e1 in
  let b := S754_finite false m2 e2 in
  (exists m e, fdiv a b = S754_finite false m e /\ Zpos (digits2_pos m) = 53 /\
     e1 - e2 - 53 <= e <= e1 - e2 - 51) /\
  (Rabs (fval (fdiv a b) - fval a / fval b) <= ulp_rel * (fval a / fval b))%R.
Proof.
  intros H1 H2 He a b.
  pose proof (canon_mant_bounds m1 H1) as B1.
  pose proof (canon_mant_bounds m2 H2) as B2.
  unfold fdiv, SFdiv, a, b, SFdiv_core_binary, Zdigits2; rewrite H1, H2.
  replace (Z.min (fexp Py.prec Py.emax (53 + e1 - (53 + e2))) (e1 - e2)) with (e1 - e2 - 53)
    by (unfold fexp, emin, Py.prec, Py.emax; lia).
  replace (e1 - e2 - (e1 - e2 - 53)) with 53 by lia.
  rewrite Z.shiftl_mul_pow2 by lia.
  rewrite div_eucl_split.
  assert (Hq : 2 ^ 52 <= Zpos m1 * 2 ^ 53 / Zpos m2 < 2 ^ 54).
  { split.
    - apply Z.div_le_lower_bound; lia.
    - apply Z.div_lt_upper_bound; lia. }
  assert (Hr : 0 <= Zpos m1 * 2 ^ 53 mod Zpos m2 < Zpos m2) by (apply Z.mod_pos_bound; lia).
  assert (Hdm : Zpos m1 * 2 ^ 53 = Zpos m2 * (Zpos m1 * 2 ^ 53 / Zpos m2) + Zpos m1 * 2 ^ 53 mod Zpos m2)
    by (apply Z.div_mod; lia).
  set (q := Zpos m1 * 2 ^ 53 / Zpos m2) in *.
  set (r := Zpos m1 * 2 ^ 53 mod Zpos m2) in *.
  cbv beta iota zeta.
  rewrite new_location_locZ by lia.
  destruct q as [|qp|qp]; try lia.
  assert (Hdq : 53 <= Zpos (digits2_pos qp) <= 54).
  { split.
    - pose proof (digits2_pos_bound qp) as [_ Hh].
      destruct (Z.le_gt_cases 53 (Zpos (digits2_pos qp))) as [L|L]; [exact L|].
      assert (2 ^ Zpos (digits2_pos qp) <= 2 ^ 52) by (apply Z.pow_le_mono_r; lia).
      lia.
    - apply digits_le; lia. }
  destruct (round_aux_real qp (e1 - e2 - 53) (Zpos m2) r) as [[m [e [Hf [Hm He']]]] Herr];
    try lia.
  split.
  { exists m, e; split; [exact Hf|]; split; [exact Hm|]; lia. }
  replace (fval (S754_finite false m1 e1) / fval (S754_finite false m2 e2))%R
    with ((IZR (Zpos qp) + IZR r / IZR (Zpos m2)) * powerRZ 2 (e1 - e2 - 53))%R.
  { exact Herr. }
  unfold fval; cbv iota.
  assert (HP : powerRZ 2 e1 = (powerRZ 2 (e1 - e2 - 53) * powerRZ 2 e2 * IZR (2 ^ 53))%R).
  { rewrite <- powerRZ2_IZR by lia; rewrite <- !powerRZ2_add; f_equal; lia. }
  rewrite HP.
  apply IZR_eq in Hdm; rewrite plus_IZR, !mult_IZR in Hdm.
  pose proof (powerRZ2_pos e2); pose proof (powerRZ2_pos (e1 - e2 - 53)).
  assert (0 < IZR (Zpos m2))%R by (apply IZR_lt; lia).
  transitivity ((IZR (Zpos m1) * IZR (2 ^ 53)) / IZR (Zpos m2) * powerRZ 2 (e1 - e2 - 53))%R.
  - rewrite Hdm; field; lra.
  - field; lra.
Qed.

Lemma locZ_exact : loc_Exact = locZ 1 0.
Proof. reflexivity. Qed.

Lemma round_exact_real (p : positive) (ex : Z) :
  53 <= Zpos (digits2_pos p) -> -1074 <= Zpos (digits2_pos p) + ex - 53 <= 969 ->
  let f := binary_round_aux Py.prec Py.emax false (Zpos p) ex loc_Exact in
  (exists m e, f = S754_finite false m e /\ Zpos (digits2_pos m) = 53 /\
     (e = Zpos (digits2_pos p) + ex - 53 \/ e = Zpos (digits2_pos p) + ex - 52)) /\
  (Rabs (fval f - IZR (Zpos p) * powerRZ 2 ex) <= ulp_rel * (IZR (Zpos p) * powerRZ 2 ex))%R.
Proof.
  intros Hd HE f; unfold f; rewrite locZ_exact.
  destruct (round_aux_real p ex 1 0 Hd HE ltac:(lia) ltac:(lia)) as [H1 H2].
  split; [exact H1|].
  replace (IZR (Zpos p) * powerRZ 2 ex)%R with ((IZR (Zpos p) + IZR 0 / IZR 1) * powerRZ 2 ex)%R
    by (unfold Rdiv; rewrite Rmult_0_l, Rplus_0_r; reflexivity).
  exact H2.
Qed.

Lemma shl_align_spec (m : positive) (ex ez : Z) :
  ez <= ex ->
  snd (shl_align m ex ez) = ez /\ Zpos (fst (shl_align m ex ez)) = Zpos m * 2 ^ (ex - ez).
Proof.
  intros H; unfold shl_align.
  destruct (ez - ex) eqn:Hz; try lia.
  - cbn [fst snd]; split; [lia|]; replace (ex - ez) with 0 by lia; lia.
  - cbn [fst snd]; split; [reflexivity|].
    rewrite iter_xO_Z; f_equal; f_equal; lia.
Qed.

Lemma normalize_real (N : positive) (e : Z) :
  -1074 <= Zpos (digits2_pos N) + e - 53 <= 969 ->
  let f := binary_normalize Py.prec Py.emax (Zpos N) e false in
  (exists m e', f = S754_finite false m e' /\ Zpos (digits2_pos m) = 53 /\
     (e' = Zpos (digits2_pos N) + e - 53 \/ e' = Zpos (digits2_pos N) + e - 52)) /\
  (Rabs (fval f - IZR (Zpos N) * powerRZ 2 e) <= ulp_rel * (IZR (Zpos N) * powerRZ 2 e))%R.
Proof.
  intros HE f; unfold f, binary_normalize, binary_round.
  set (dN := Zpos (digits2_pos N)) in *.
  replace (fexp Py.prec Py.emax (dN + e)) with (dN + e - 53)
    by (unfold fexp, emin, Py.prec, Py.emax; lia).
  destruct (Z.le_gt_cases 53 dN) as [Hd|Hd].
  - unfold shl_align.
    destruct (dN + e - 53 - e) eqn:Hz; try lia; apply round_exact_real; lia.
  - unfold shl_align.
    destruct (dN + e - 53 - e) as [|d|d] eqn:Hz; try lia.
    assert (Hd' : Zpos (digits2_pos (Pos.iter xO N d)) = 53)
      by (rewrite digits2_iter_xO, Pos2Z.inj_add; fold dN; lia).
    destruct (round_exact_real (Pos.iter xO N d) (dN + e - 53)) as [H1 H2]; try lia.
    split.
    + destruct H1 as [m [e' [Hf [Hm He']]]]; exists m, e'; split; [exact Hf|]; split; [exact Hm|].
      lia.
    + replace (IZR (Zpos N) * powerRZ 2 e)%R
        with (IZR (Zpos (Pos.iter xO N d)) * powerRZ 2 (dN + e - 53))%R; [exact H2|].
      rewrite iter_xO_Z, mult_IZR, <- powerRZ2_IZR by lia.
      rewrite Rmult_assoc, <- powerRZ2_add; f_equal; f_equal; lia.
Qed.

Lemma Rabs_le_split (x b : R) : (Rabs x <= b)%R -> (- b <= x <= b)%R.
Proof. unfold Rabs; destruct (Rcase_abs x); intros; lra. Qed.

Lemma canon_exp_le (m : positive) (e k : Z) :
  Zpos (digits2_pos m) = 53 -> (fval (S754_finite false m e) < powerRZ 2 k)%R -> e <= k - 53.
Proof.
  intros Hm Hv.
  destruct (Z.le_gt_cases e (k - 53)) as [L|L]; [exact L|exfalso].
  pose proof (canon_mant_bounds m Hm) as [B _].
  apply IZR_le in B.
  unfold fval in Hv; cbv iota in Hv.
  replace e with ((k - 52) + (e - k + 52)) in Hv by lia.
  rewrite powerRZ2_add, (powerRZ2_IZR (e - k + 52)) in Hv by lia.
  assert (H1 : (1 <= IZR (2 ^ (e - k + 52)))%R) by (apply IZR_le; assert (0 < 2 ^ (e - k + 52)) by (apply Z.pow_pos_nonneg; lia); lia).
  replace (k - 52) with (k + - 52) in Hv by lia.
  rewrite powerRZ2_add in Hv.
  change (powerRZ 2 (-52)) with (/ powerRZ 2 52)%R in Hv.
  rewrite (powerRZ2_IZR 52) in Hv by lia.
  pose proof (powerRZ2_pos k).
  assert (H2 : (0 < IZR (2 ^ 52))%R) by (apply IZR_lt; lia).
  assert (H3 : (IZR (Zpos m) * / IZR (2 ^ 52) >= 1)%R).
  { apply Rle_ge; apply (Rmult_le_reg_r (IZR (2 ^ 52))); [lra|].
    rewrite Rmult_assoc, Rinv_l by lra; lra. }
  set (a := (IZR (Zpos m) * / IZR (2 ^ 52))%R) in *.
  set (K' := IZR (2 ^ (e - k + 52))) in *.
  set (P := powerRZ 2 k) in *.
  replace (1 * IZR (Zpos m) * (P * / IZR (2 ^ 52) * K'))%R with (a * K' * P)%R in Hv
    by (unfold a; ring).
  assert (H5 : (1 <= a * K')%R).
  { replace 1%R with (1 * 1)%R by ring; apply Rmult_le_compat; lra. }
  assert (H6 : (P <= a * K' * P)%R).
  { rewrite <- (Rmult_1_l P) at 1; apply Rmult_le_compat_r; lra. }
  lra.
Qed.

Lemma gradient_t_props (n d : Z) :
  1 <= n < d -> d <= 2 ^ 53 ->
  exists m e, truediv_int n d = S754_finite false m e /\ Zpos (digits2_pos m) = 53 /\
    -106 <= e <= -53 /\
    (Rabs (fval (truediv_int n d) - IZR n / IZR d) <= ulp_rel * (IZR n / IZR d))%R /\
    (fval (truediv_int n d) < 1)%R.
Proof.
  intros Hn Hd.
  destruct (of_Z_canon n ltac:(lia)) as [m1 [e1 [Ha [Hm1 [He1 Hva]]]]].
  destruct (of_Z_canon d ltac:(lia)) as [m2 [e2 [Hb [Hm2 [He2 Hvb]]]]].
  rewrite Ha in Hva; rewrite Hb in Hvb.
  unfold truediv_int; rewrite Ha, Hb.
  destruct (fdiv_canon m1 m2 e1 e2 Hm1 Hm2 ltac:(lia)) as [[m [e [Hf [Hm He]]]] Herr].
  cbv zeta in Herr; rewrite Hva, Hvb in Herr.
  assert (Hlt : (fval (fdiv (S754_finite false m1 e1) (S754_finite false m2 e2)) < 1)%R).
  { assert (Hd0 : (0 < IZR d)%R) by (apply IZR_lt; lia).
    assert (Hnd : (IZR n + 1 <= IZR d)%R) by (rewrite <- plus_IZR; apply IZR_le; lia).
    assert (Hn53 : (IZR n < 9007199254740992)%R) by (apply IZR_lt; lia).
    assert (Hn0 : (0 < IZR n)%R) by (apply IZR_lt; lia).
    assert (Hq : (IZR n / IZR d * (1 + ulp_rel) < 1)%R).
    { unfold ulp_rel.
      apply (Rmult_lt_reg_r (IZR d)); [lra|].
      replace (IZR n / IZR d * (1 + / 9007199254740992) * IZR d)%R
        with (IZR n + IZR n / 9007199254740992)%R by (field; lra).
      assert (IZR n / 9007199254740992 < 1)%R.
      { apply (Rmult_lt_reg_r 9007199254740992); [lra|]. unfold Rdiv.
        rewrite Rmult_assoc, Rinv_l by lra; lra. }
      lra. }
    apply Rabs_le_split in Herr; lra. }
  exists m, e; rewrite Hf in Hlt |- *.
  split; [reflexivity|]; split; [exact Hm|]; split.
  - split; [lia|].
    apply (canon_exp_le m e 0 Hm); exact Hlt.
  - split; [rewrite <- Hf; exact Herr | exact Hlt].
Qed.

Lemma fsub_one_canon (m : positive) (e : Z) :
  Zpos (digits2_pos m) = 53 -> -200 <= e <= -53 ->
  (exists m' e', fsub (of_Z 1) (S754_finite false m e) = S754_finite false m' e' /\
     Zpos (digits2_pos m') = 53 /\ -300 <= e' <= -51) /\
  (Rabs (fval (fsub (of_Z 1) (S754_finite false m e)) - (1 - fval (S754_finite false m e)))
     <= ulp_rel * (1 - fval (S754_finite false m e)))%R.
Proof.
  intros Hm He.
  pose proof (canon_mant_bounds m Hm) as Bm.
  rewrite of_Z_one; unfold fsub, SFsub; cbv beta iota zeta.
  replace (Z.min (-52) e) with e by lia.
  destruct (shl_align_spec (Pos.iter xO 1%positive 52) (-52) e ltac:(lia)) as [_ HA].
  destruct (shl_align_spec m e e ltac:(lia)) as [_ HB].
  set (A := fst (shl_align (Pos.iter xO 1%positive 52) (-52) e)) in *.
  set (B := fst (shl_align m e e)) in *.
  rewrite iter_xO_Z, Z.mul_1_l, <- Z.pow_add_r in HA by lia.
  replace (52 + (-52 - e)) with (- e) in HA by lia.
  replace (e - e) with 0 in HB by lia; rewrite Z.pow_0_r, Z.mul_1_r in HB.
  assert (Hpe : 2 ^ 53 <= 2 ^ (- e)) by (apply Z.pow_le_mono_r; lia).
  assert (HN : cond_Zopp false (Zpos A) - cond_Zopp false (Zpos B)
               = Zpos (Z.to_pos (2 ^ (- e) - Zpos m))).
  { unfold cond_Zopp; rewrite HA, HB, Z2Pos.id by lia; reflexivity. }
  rewrite HN.
  set (N := Z.to_pos (2 ^ (- e) - Zpos m)).
  assert (HNv : Zpos N = 2 ^ (- e) - Zpos m) by (unfold N; rewrite Z2Pos.id by lia; reflexivity).
  assert (HdN : Zpos (digits2_pos N) <= - e) by (apply digits_le; lia).
  destruct (normalize_real N e) as [[m' [e' [Hf [Hm' He']]]] Herr]; [lia|].
  split.
  { exists m', e'; split; [exact Hf|]; split; [exact Hm'|]; lia. }
  replace (1 - fval (S754_finite false m e))%R with (IZR (Zpos N) * powerRZ 2 e)%R; [exact Herr|].
  rewrite HNv, minus_IZR, <- powerRZ2_IZR by lia.
  unfold fval; cbv iota.
  assert (H1 : (powerRZ 2 (- e) * powerRZ 2 e = 1)%R)
    by (rewrite <- powerRZ2_add; replace (- e + e) with 0 by lia; reflexivity).
  rewrite Rmult_minus_distr_r, H1; ring.
Qed.

Lemma fmul_canon (m1 m2 : positive) (e1 e2 : Z) :
  Zpos (digits2_pos m1) = 53 -> Zpos (digits2_pos m2) = 53 -> -800 <= e1 + e2 <= 800 ->
  (exists m e, fmul (S754_finite false m1 e1) (S754_finite false m2 e2) = S754_finite false m e /\
     Zpos (digits2_pos m) = 53 /\ e1 + e2 + 52 <= e <= e1 + e2 + 54) /\
  (Rabs (fval (fmul (S754_finite false m1 e1) (S754_finite false m2 e2))
         - fval (S754_finite false m1 e1) * fval (S754_finite false m2 e2))
     <= ulp_rel * (fval (S754_finite false m1 e1) * fval (S754_finite false m2 e2)))%R.
Proof.
  intros H1 H2 He.
  pose proof (canon_mant_bounds m1 H1) as B1.
  pose proof (canon_mant_bounds m2 H2) as B2.
  assert (Hd : 105 <= Zpos (digits2_pos (m1 * m2)) <= 106).
  { split.
    - pose proof (digits2_pos_bound (m1 * m2)) as [_ Hh].
      destruct (Z.le_gt_cases 105 (Zpos (digits2_pos (m1 * m2)))) as [L|L]; [exact L|].
      assert (2 ^ Zpos (digits2_pos (m1 * m2)) <= 2 ^ 104) by (apply Z.pow_le_mono_r; lia).
      rewrite Pos2Z.inj_mul in Hh; nia.
    - apply digits_le; [lia|]; rewrite Pos2Z.inj_mul; nia. }
  unfold fmul, SFmul; cbv beta iota; cbn [xorb].
  destruct (round_exact_real (m1 * m2) (e1 + e2)) as [[m [e [Hf [Hm He']]]] Herr]; try lia.
  split.
  { exists m, e; split; [exact Hf|]; split; [exact Hm|]; lia. }
  replace (fval (S754_finite false m1 e1) * fval (S754_finite false m2 e2))%R
    with (IZR (Zpos (m1 * m2)) * powerRZ 2 (e1 + e2))%R; [exact Herr|].
  unfold fval; cbv iota; rewrite Pos2Z.inj_mul, mult_IZR, powerRZ2_add; ring.
Qed.

Lemma fval_nonneg (lo hi : Z) (f : float) : nonneg_float lo hi f -> (0 <= fval f)%R.
Proof.
  intros [H|[m [e [H _]]]]; subst f; [simpl; lra|].
  apply Rlt_le, fval_finite_pos.
Qed.

Lemma of_Z_zero : of_Z 0 = S754_zero false.
Proof. reflexivity. Qed.

Lemma mul_of_Z_nonneg (s : Z) (ma : positive) (ea : Z) :
  0 <= s <= 255 -> Zpos (digits2_pos ma) = 53 -> -300 <= ea <= 0 ->
  nonneg_float (-400) 100 (fmul (of_Z s) (S754_finite false ma ea)) /\
  (Rabs (fval (fmul (of_Z s) (S754_finite false ma ea)) - IZR s * fval (S754_finite false ma ea))
     <= ulp_rel * (IZR s * fval (S754_finite false ma ea)))%R.
Proof.
  intros Hs Hm He.
  destruct (Z.eq_dec s 0) as [E|E].
  - subst s; rewrite of_Z_zero; split; [left; reflexivity|].
    simpl fval; unfold fmul, SFmul; cbn [xorb fval].
    rewrite Rmult_0_l, Rminus_0_r, Rabs_R0; unfold ulp_rel; lra.
  - destruct (of_Z_canon s ltac:(lia)) as [m1 [e1 [H1 [Hm1 [He1 Hv1]]]]].
    rewrite H1 in Hv1 |- *.
    destruct (fmul_canon m1 ma e1 ea Hm1 Hm ltac:(lia)) as [[m [e [Hf [Hm' He']]]] Herr].
    split.
    + right; exists m, e; split; [exact Hf|]; split; [exact Hm'|]; lia.
    + rewrite Hv1 in Herr; exact Herr.
Qed.

Lemma fadd_nonneg (A B : float) :
  nonneg_float (-400) 100 A -> nonneg_float (-400) 100 B ->
  nonneg_float (-400) 200 (fadd A B) /\
  (Rabs (fval (fadd A B) - (fval A + fval B)) <= ulp_rel * (fval A + fval B))%R.
Proof.
  intros HA HB.
  pose proof (fval_nonneg _ _ _ HA) as FA; pose proof (fval_nonneg _ _ _ HB) as FB.
  assert (Hu : (0 < ulp_rel)%R) by (unfold ulp_rel; lra).
  destruct HA as [HA|[ma [ea [HA [Hma Hea]]]]]; destruct HB as [HB|[mb [eb [HB [Hmb Heb]]]]];
    subst A B.
  - split; [left; reflexivity|]; simpl; rewrite Rplus_0_l, Rminus_0_r, Rabs_R0; lra.
  - split; [right; exists mb, eb; split; [reflexivity|]; split; [exact Hmb|]; lia|].
    unfold fadd, SFadd; cbv iota.
    simpl (fval (S754_zero false)); rewrite Rplus_0_l, Rminus_diag, Rabs_R0.
    apply Rmult_le_pos; lra.
  - split; [right; exists ma, ea; split; [reflexivity|]; split; [exact Hma|]; lia|].
    unfold fadd, SFadd; cbv iota.
    simpl (fval (S754_zero false)); rewrite Rplus_0_r, Rminus_diag, Rabs_R0.
    apply Rmult_le_pos; lra.
  - pose proof (canon_mant_bounds ma Hma) as Ba.
    pose proof (canon_mant_bounds mb Hmb) as Bb.
    unfold fadd, SFadd; cbv beta iota zeta.
    set (ez := Z.min ea eb).
    destruct (shl_align_spec ma ea ez ltac:(unfold ez; lia)) as [_ Ha'].
    destruct (shl_align_spec mb eb ez ltac:(unfold ez; lia)) as [_ Hb'].
    set (a' := fst (shl_align ma ea ez)) in *.
    set (b' := fst (shl_align mb eb ez)) in *.
    change (cond_Zopp false (Zpos a') + cond_Zopp false (Zpos b')) with (Zpos (a' + b')).
    set (mx := Z.max ea eb).
    assert (Pa : 2 ^ (ea - ez) <= 2 ^ (mx - ez)) by (apply Z.pow_le_mono_r; unfold mx, ez; lia).
    assert (Pb : 2 ^ (eb - ez) <= 2 ^ (mx - ez)) by (apply Z.pow_le_mono_r; unfold mx, ez; lia).
    assert (Pa0 : 1 <= 2 ^ (ea - ez))
      by (assert (0 < 2 ^ (ea - ez)) by (apply Z.pow_pos_nonneg; unfold ez; lia); lia).
    assert (Pb0 : 1 <= 2 ^ (eb - ez))
      by (assert (0 < 2 ^ (eb - ez)) by (apply Z.pow_pos_nonneg; unfold ez; lia); lia).
    assert (P54 : 2 ^ (54 + (mx - ez)) = 2 ^ 54 * 2 ^ (mx - ez))
      by (apply Z.pow_add_r; unfold mx, ez; lia).
    assert (HN : Zpos (a' + b') = Zpos ma * 2 ^ (ea - ez) + Zpos mb * 2 ^ (eb - ez))
      by (rewrite Pos2Z.inj_add, Ha', Hb'; reflexivity).
    assert (Hd : 53 <= Zpos (digits2_pos (a' + b')) <= 54 + (mx - ez)).
    { split.
      - pose proof (digits2_pos_bound (a' + b')) as [_ Hh].
        destruct (Z.le_gt_cases 53 (Zpos (digits2_pos (a' + b')))) as [L|L]; [exact L|].
        assert (2 ^ Zpos (digits2_pos (a' + b')) <= 2 ^ 52) by (apply Z.pow_le_mono_r; lia).
        nia.
      - apply digits_le; [unfold mx, ez; lia|]; rewrite P54, HN; nia. }
    destruct (normalize_real (a' + b') ez) as [[m [e [Hf [Hm He]]]] Herr];
      [unfold mx, ez in *; lia|].
    split.
    + right; exists m, e; split; [exact Hf|]; split; [exact Hm|]; unfold mx, ez in *; lia.
    + replace (fval (S754_finite false ma ea) + fval (S754_finite false mb eb))%R
        with (IZR (Zpos (a' + b')) * powerRZ 2 ez)%R; [exact Herr|].
      rewrite HN, plus_IZR, !mult_IZR, <- !powerRZ2_IZR by (unfold ez; lia).
      unfold fval; cbv iota.
      rewrite Rmult_plus_distr_r, !Rmult_assoc, <- !powerRZ2_add.
      replace (ea - ez + ez) with ea by lia; replace (eb - ez + ez) with eb by lia; ring.
Qed.

Lemma trunc_real (lo hi : Z) (f : float) :
  nonneg_float lo hi f -> (IZR (trunc f) <= fval f < IZR (trunc f) + 1)%R.
Proof.
  intros [H|[m [e [H _]]]]; subst f; [simpl; lra|].
  unfold trunc, fval; cbv iota.
  destruct (Z.leb_spec 0 e) as [E|E].
  - rewrite Z.shiftl_mul_pow2 by lia; rewrite mult_IZR, <- powerRZ2_IZR by lia; lra.
  - rewrite Z.shiftr_div_pow2 by lia.
    assert (Hk : 0 < 2 ^ (- e)) by (apply Z.pow_pos_nonneg; lia).
    pose proof (Z.div_mod (Zpos m) (2 ^ (- e)) ltac:(lia)) as Hdm.
    pose proof (Z.mod_pos_bound (Zpos m) (2 ^ (- e)) Hk) as Hr.
    set (q := Zpos m / 2 ^ (- e)) in *.
    set (r := Zpos m mod 2 ^ (- e)) in *.
    assert (HP : powerRZ 2 e = (/ IZR (2 ^ (- e)))%R).
    { replace e with (- (- e)) at 1 by lia.
      rewrite powerRZ_neg', powerRZ2_IZR by lia; reflexivity. }
    rewrite HP, Hdm, plus_IZR, mult_IZR, Rmult_1_l.
    apply IZR_lt in Hk.
    assert (Hr0 : (0 <= IZR r)%R) by (apply IZR_le; lia).
    assert (Hr1 : (IZR r < IZR (2 ^ (- e)))%R) by (apply IZR_lt; lia).
    set (K := IZR (2 ^ (- e))) in *.
    replace ((K * IZR q + IZR r) * / K)%R with (IZR q + IZR r / K)%R by (field; lra).
    assert (0 <= IZR r / K)%R by (unfold Rdiv; apply Rmult_le_pos; [lra|apply Rlt_le, Rinv_0_lt_compat; lra]).
    assert (IZR r / K < 1)%R.
    { apply (Rmult_lt_reg_r K); [lra|]; unfold Rdiv; rewrite Rmult_assoc, Rinv_l by lra; lra. }
    lra.
Qed.

Lemma gradient_error_bound (lo hi s e tau fa fA fB V : R) :
  (0 <= lo)%R -> (lo <= s <= hi)%R -> (lo <= e <= hi)%R -> (0 < tau < 1)%R ->
  (Rabs (fa - (1 - tau)) <= ulp_rel * (1 - tau))%R ->
  (Rabs (fA - s * fa) <= ulp_rel * (s * fa))%R ->
  (Rabs (fB - e * tau) <= ulp_rel * (e * tau))%R ->
  (Rabs (V - (fA + fB)) <= ulp_rel * (fA + fB))%R ->
  (lo * (1 - ulp_rel) ^ 3 <= V <= hi * (1 + ulp_rel) ^ 3)%R.
Proof.
  intros Hlo Hs He Ht Ha HA HB HV.
  assert (Hu : (0 < ulp_rel < / 1000)%R) by (unfold ulp_rel; split; lra).
  set (u := ulp_rel) in *.
  set (w := (1 - u)%R); set (v := (1 + u)%R).
  assert (Hw : (0 < w <= 1)%R) by (unfold w; lra).
  assert (Hv : (1 <= v)%R) by (unfold v; lra).
  apply Rabs_le_split in Ha, HA, HB, HV.
  assert (Ha1 : (w * (1 - tau) <= fa <= v * (1 - tau))%R) by (unfold w, v; lra).
  assert (Hsfa : (s * (w * (1 - tau)) <= s * fa <= s * (v * (1 - tau)))%R)
    by (split; apply Rmult_le_compat_l; lra).
  assert (HA1 : (w * (s * fa) <= fA <= v * (s * fa))%R) by (unfold w, v; lra).
  assert (HB1 : (w * (e * tau) <= fB <= v * (e * tau))%R) by (unfold w, v; lra).
  assert (HV1 : (w * (fA + fB) <= V <= v * (fA + fB))%R) by (unfold w, v; lra).
  assert (Het : (0 <= e * tau)%R) by (apply Rmult_le_pos; lra).
  assert (Hst : (0 <= s * (1 - tau))%R) by (apply Rmult_le_pos; lra).
  assert (Hmix : (lo <= s * (1 - tau) + e * tau <= hi)%R) by nra.
  split.
  - assert (L1 : (w * w * (s * (1 - tau)) <= fA)%R).
    { apply Rle_trans with (w * (s * fa))%R; [|lra].
      replace (w * w * (s * (1 - tau)))%R with (w * (s * (w * (1 - tau))))%R by ring.
      apply Rmult_le_compat_l; lra. }
    assert (L2 : (w * w * (e * tau) <= fB)%R).
    { apply Rle_trans with (w * (e * tau))%R; [|lra].
      rewrite Rmult_assoc; apply Rmult_le_compat_l; [lra|].
      rewrite <- (Rmult_1_l (e * tau)) at 2; apply Rmult_le_compat_r; lra. }
    assert (L3 : (w * w * lo <= fA + fB)%R).
    { apply Rle_trans with (w * w * (s * (1 - tau) + e * tau))%R; [|lra].
      apply Rmult_le_compat_l; [nra|lra]. }
    apply Rle_trans with (w * (fA + fB))%R; [|lra].
    replace (lo * w ^ 3)%R with (w * (w * w * lo))%R by ring.
    apply Rmult_le_compat_l; lra.
  - assert (U1 : (fA <= v * v * (s * (1 - tau)))%R).
    { apply Rle_trans with (v * (s * fa))%R; [lra|].
      replace (v * v * (s * (1 - tau)))%R with (v * (s * (v * (1 - tau))))%R by ring.
      apply Rmult_le_compat_l; lra. }
    assert (U2 : (fB <= v * v * (e * tau))%R).
    { apply Rle_trans with (v * (e * tau))%R; [lra|].
      rewrite Rmult_assoc; apply Rmult_le_compat_l; [lra|].
      rewrite <- (Rmult_1_l (e * tau)) at 1; apply Rmult_le_compat_r; lra. }
    assert (U3 : (fA + fB <= v * v * hi)%R).
    { apply Rle_trans with (v * v * (s * (1 - tau) + e * tau))%R; [lra|].
      apply Rmult_le_compat_l; [nra|lra]. }
    apply Rle_trans with (v * (fA + fB))%R; [lra|].
    replace (hi * v ^ 3)%R with (v * (v * v * hi))%R by ring.
    apply Rmult_le_compat_l; lra.
Qed.

Lemma channel_round_bounds (lo hi : Z) (V : R) :
  0 <= lo <= 255 -> 0 <= hi <= 255 ->
  (IZR lo * (1 - ulp_rel) ^ 3 <= V <= IZR hi * (1 + ulp_rel) ^ 3)%R ->
  (IZR lo - 1 < V < IZR hi + 1)%R.
Proof.
  intros Hlo Hhi [H1 H2].
  assert (Hl : (0 <= IZR lo <= 255)%R) by (split; apply IZR_le; lia).
  assert (Hh : (0 <= IZR hi <= 255)%R) by (split; apply IZR_le; lia).
  assert (Hu : (0 < ulp_rel < / 1000000)%R) by (unfold ulp_rel; split; lra).
  set (u := ulp_rel) in *.
  assert (C1 : (1 - 3 * u <= (1 - u) ^ 3)%R).
  { assert (0 <= u * u * (3 - u))%R by (apply Rmult_le_pos; [apply Rmult_le_pos|]; lra).
    replace ((1 - u) ^ 3)%R with (1 - 3 * u + u * u * (3 - u))%R by ring; lra. }
  assert (C2 : ((1 + u) ^ 3 <= 1 + 4 * u)%R).
  { assert (0 <= u * (1 - 3 * u - u * u))%R by (apply Rmult_le_pos; nra).
    replace ((1 + u) ^ 3)%R with (1 + 4 * u - u * (1 - 3 * u - u * u))%R by ring; lra. }
  assert (D1 : (IZR lo * (1 - 3 * u) <= IZR lo * (1 - u) ^ 3)%R)
    by (apply Rmult_le_compat_l; lra).
  assert (D2 : (IZR hi * (1 + u) ^ 3 <= IZR hi * (1 + 4 * u))%R)
    by (apply Rmult_le_compat_l; lra).
  split; nra.
Qed.

Lemma gradient_channel_bounds (s en n d : Z) :
  0 <= s <= 255 -> 0 <= en <= 255 -> 1 <= n < d -> d <= 2 ^ 53 ->
  Z.min s en - 1 <= gradient_channel s en (truediv_int n d) <= Z.max s en.
Proof.
  intros Hs Hen Hn Hd.
  destruct (gradient_t_props n d Hn Hd) as [m [e [Ht [Hm [He [Herr_t Hlt]]]]]].
  rewrite Ht in Herr_t, Hlt |- *.
  set (t := S754_finite false m e) in *.
  pose proof (fval_finite_pos m e) as Htp; fold t in Htp.
  destruct (fsub_one_canon m e Hm ltac:(lia)) as [[ma [ea [Ha [Hma Hea]]]] Herr_a].
  fold t in Ha, Herr_a.
  rewrite Ha in Herr_a.
  destruct (mul_of_Z_nonneg s ma ea Hs Hma ltac:(lia)) as [NA Herr_A].
  destruct (mul_of_Z_nonneg en m e Hen Hm ltac:(lia)) as [NB Herr_B].
  fold t in NB, Herr_B.
  destruct (fadd_nonneg _ _ NA NB) as [NV Herr_V].
  pose proof (trunc_real _ _ _ NV) as Htr.
  unfold gradient_channel; rewrite Ha.
  set (V := fadd (fmul (of_Z s) (S754_finite false ma ea)) (fmul (of_Z en) t)) in *.
  assert (Hlo : (IZR (Z.min s en) <= IZR s <= IZR (Z.max s en))%R) by (split; apply IZR_le; lia).
  assert (Hhi : (IZR (Z.min s en) <= IZR en <= IZR (Z.max s en))%R) by (split; apply IZR_le; lia).
  assert (Hl0 : (0 <= IZR (Z.min s en))%R) by (apply IZR_le; lia).
  pose proof (gradient_error_bound _ _ _ _ _ _ _ _ _ Hl0 Hlo Hhi (conj Htp Hlt)
                Herr_a Herr_A Herr_B Herr_V) as HB.
  apply channel_round_bounds in HB; [|lia|lia].
  assert (L1 : (IZR (Z.min s en) - 1 - 1 < IZR (trunc V))%R) by lra.
  assert (L2 : (IZR (trunc V) < IZR (Z.max s en) + 1)%R) by lra.
  rewrite <- minus_IZR, <- minus_IZR in L1; rewrite <- plus_IZR in L2.
  apply lt_IZR in L1; apply lt_IZR in L2; lia.
Qed.

Lemma hex_to_rgb_valid_range (s : string) :
  six_hex_digits (PyStr.lstrip "#"%char s) = true ->
  exists r g b, hex_to_rgb s = Some (r, g, b) /\
    0 <= r <= 255 /\ 0 <= g <= 255 /\ 0 <= b <= 255.
Proof.
  intros Hs.
  destruct (hex_to_rgb_six_digits s Hs)
    as [c0 [c1 [c2 [c3 [c4 [c5 [d0 [d1 [d2 [d3 [d4 [d5 H]]]]]]]]]]]].
  destruct H as [_ [_ [_ [_ [_ [_ [_ [Hh [Hr [Hg Hb]]]]]]]]]].
  do 3 eexists; split; [exact Hh|]; split; [exact Hr|]; split; [exact Hg|exact Hb].
Qed.

Lemma gradient_t_finite (W H x y : Z) :
  W + H <= 2 ^ 53 -> 0 <= x < W -> 0 <= y < H ->
  exists m e, gradient_t W H x y = S754_finite false m e /\ e <= -53.
Proof.
  intros HWH Hx Hy.
  destruct (gradient_t_props (gradient_t_num W x y) (gradient_t_den W H)) as [m [e [Ht [_ [He _]]]]];
    unfold gradient_t_num, gradient_t_den in *; try lia.
  exists m, e; split; [exact Ht | lia].
Qed.

Lemma clip8_bounds (lo hi c : Z) :
  0 <= lo <= hi -> hi <= 255 -> lo - 1 <= c <= hi -> lo - 1 <= clip8 c <= hi.
Proof. unfold clip8; lia. Qed.

(** C10 (amended): for valid colours (six hex digits after the leading
    ['#']) and W + H <= 2^53, the float [t] at every pixel satisfies
    [0.0 < t < 1.0], and each stored channel lies between
    [min(start, end) - 1] and [max(start, end)]. *)
Theorem gradient_t_strict_and_channels_bounded (g : PortalGradient) (W H x y : Z)
  (img : image rgba)
  (Hs : six_hex_digits (PyStr.lstrip "#"%char (start_color g)) = true)
  (He : six_hex_digits (PyStr.lstrip "#"%char (end_color g)) = true)
  (HWH : W + H <= 2 ^ 53) (Hx : 0 <= x < W) (Hy : 0 <= y < H)
  (Hi : create_gradient_image (W, H) g = Some img) :
  fltb (of_Z 0) (gradient_t W H x y) = true /\
  fltb (gradient_t W H x y) (of_Z 1) = true /\
  exists sr sg sb er eg eb,
    hex_to_rgb (start_color g) = Some (sr, sg, sb) /\
    hex_to_rgb (end_color g) = Some (er, eg, eb) /\
    Z.min sr er - 1 <= red (pixel img x y) <= Z.max sr er /\
    Z.min sg eg - 1 <= green (pixel img x y) <= Z.max sg eg /\
    Z.min sb eb - 1 <= blue (pixel img x y) <= Z.max sb eb.
Proof.
  destruct (gradient_t_finite W H x y HWH Hx Hy) as [m [e [Ht Hle]]].
  split; [rewrite Ht, of_Z_zero; reflexivity|].
  split.
  { rewrite Ht, of_Z_one; unfold fltb, SFltb, SFcompare.
    replace (e ?= -52) with Lt by (symmetry; apply Z.compare_lt_iff; lia); reflexivity. }
  destruct (hex_to_rgb_valid_range _ Hs) as [sr [sg [sb [Hsc [Hr1 [Hg1 Hb1]]]]]].
  destruct (hex_to_rgb_valid_range _ He) as [er [eg [eb [Hec [Hr2 [Hg2 Hb2]]]]]].
  exists sr, sg, sb, er, eg, eb; split; [exact Hsc|]; split; [exact Hec|].
  destruct (create_gradient_image_pixel g W H img sr sg sb er eg eb Hsc Hec Hi) as [_ Hpx].
  rewrite Hpx; cbn [red green blue].
  assert (Hn : 1 <= gradient_t_num W x y < gradient_t_den W H)
    by (unfold gradient_t_num, gradient_t_den; lia).
  assert (Hd : gradient_t_den W H <= 2 ^ 53) by (unfold gradient_t_den; lia).
  unfold gradient_t.
  split; [|split]; apply clip8_bounds; try lia; apply gradient_channel_bounds; lia.
Qed.

Lemma gradient_t_strict_and_channels_bounded_witness :
  six_hex_digits (PyStr.lstrip "#"%char (start_color constant_03)) = true /\
  six_hex_digits (PyStr.lstrip "#"%char (end_color constant_03)) = true /\
  1 + 9 <= 2 ^ 53 /\ (0 <= 0 < 1 /\ 0 <= 2 < 9) /\
  exists img, create_gradient_image (1, 9) constant_03 = Some img /\
    fltb (of_Z 0) (gradient_t 1 9 0 2) = true /\ fltb (gradient_t 1 9 0 2) (of_Z 1) = true.
Proof.
  split; [reflexivity|]; split; [reflexivity|]; split; [lia|]; split; [lia|].
  eexists; split; [reflexivity|].
  destruct (gradient_t_strict_and_channels_bounded constant_03 1 9 0 2 _
              eq_refl eq_refl ltac:(lia) ltac:(lia) ltac:(lia) eq_refl) as [H1 [H2 _]].
  split; [exact H1 | exact H2].
Defined.
